(** * tala_base: the workflow chain executor

    A shallow embedding of the orchestrator of [araujota/tala_base]:
    - [types/executor.go]: the workflow data model;
    - [orchestrator/executor.go]: [ExecuteStep] and [ExecuteChain];
    - [unnamed/part_002]: a second copy of the same package whose
      [ExecuteStep] resolves the lambda through a port table and validates
      the response envelope; its [ExecuteChain] is textually the same.

    Go's [(value, error)] results become [GoResult]; a run-time panic (an
    index out of range) becomes [Panicked].  The libraries the executor calls
    ([text/template], [encoding/json], [net/http]) are gathered in a
    [Runtime] record.  The network is a function of the requests sent so far
    and the request being sent, so the log of requests is the only state the
    executor threads besides its own [WorkflowState]. *)

From Stdlib Require Import Ascii.
From stdpp Require Import gmap strings list fin_maps pretty.

Open Scope Z_scope.

(** ** Data model ([types/executor.go]) *)

(** The values Go's [encoding/json] stores in an [interface{}]: [nil], [bool],
    [float64] (kept as its 64-bit pattern, the executor never computes on
    it), [string], [[]interface{}] and [map[string]interface{}]. *)
#[local] Unset Elimination Schemes.
Inductive JSON : Type :=
| JNull
| JBool (b : bool)
| JNumber (bits : Z)
| JString (s : string)
| JArray (xs : list JSON)
| JObject (m : gmap string JSON).
#[local] Set Elimination Schemes.

(** [map[string]interface{}]; [None] is the nil map. *)
Abbreviation JSONMap := (option (gmap string JSON)).

Record Step := {
  Step_Name : string;
  Step_Lambda : string;
  Step_InputTemplate : string;
  Step_PassOutputAs : string;
  Step_ErrorHandler : string
}.

Record Workflow := {
  Workflow_Name : string;
  Workflow_Description : string;
  Workflow_Steps : list Step
}.

Record WorkflowError := {
  WorkflowError_Step : string;
  WorkflowError_Message : string;
  WorkflowError_Code : string
}.

Record WorkflowInput := {
  WorkflowInput_Data : JSONMap;
  WorkflowInput_Context : JSONMap
}.

(** [Error] is a [*WorkflowError]: [None] is the nil pointer. *)
Record WorkflowOutput := {
  WorkflowOutput_Data : JSONMap;
  WorkflowOutput_Context : JSONMap;
  WorkflowOutput_Error : option WorkflowError
}.

Record StepState := {
  StepState_Input : WorkflowInput;
  StepState_Output : WorkflowOutput
}.

Record WorkflowState := {
  WorkflowState_Steps : gmap string StepState;
  WorkflowState_CurrentStep : string;
  WorkflowState_Completed : bool
}.

Record StepResult := {
  StepResult_Data : JSONMap;
  StepResult_Error : option WorkflowError
}.

(** Go zero values, as a struct literal leaves the fields it does not name. *)
Definition zero_WorkflowInput : WorkflowInput :=
  {| WorkflowInput_Data := None; WorkflowInput_Context := None |}.

Definition zero_WorkflowOutput : WorkflowOutput :=
  {| WorkflowOutput_Data := None; WorkflowOutput_Context := None;
     WorkflowOutput_Error := None |}.

Definition zero_StepState : StepState :=
  {| StepState_Input := zero_WorkflowInput; StepState_Output := zero_WorkflowOutput |}.

Definition zero_WorkflowState : WorkflowState :=
  {| WorkflowState_Steps := ∅; WorkflowState_CurrentStep := "";
     WorkflowState_Completed := false |}.

(** [state.Steps[name]]: reading a missing key gives the zero value. *)
Definition steps_index (state : WorkflowState) (name : string) : StepState :=
  default zero_StepState (WorkflowState_Steps state !! name).

(** [state.Steps[name] = st] *)
Definition steps_assign (state : WorkflowState) (name : string) (st : StepState)
  : WorkflowState :=
  {| WorkflowState_Steps := <[name := st]> (WorkflowState_Steps state);
     WorkflowState_CurrentStep := WorkflowState_CurrentStep state;
     WorkflowState_Completed := WorkflowState_Completed state |}.

Definition set_CurrentStep (state : WorkflowState) (name : string) : WorkflowState :=
  {| WorkflowState_Steps := WorkflowState_Steps state;
     WorkflowState_CurrentStep := name;
     WorkflowState_Completed := WorkflowState_Completed state |}.

Definition set_Completed (state : WorkflowState) (b : bool) : WorkflowState :=
  {| WorkflowState_Steps := WorkflowState_Steps state;
     WorkflowState_CurrentStep := WorkflowState_CurrentStep state;
     WorkflowState_Completed := b |}.

(** ** Results, requests and the libraries the executor calls *)

(** A Go [(value, error)] pair in which exactly one side is set. *)
Inductive GoResult (A : Type) : Type :=
| Ok (a : A)
| Err (msg : string).
Arguments Ok {A} a.
Arguments Err {A} msg.

(** What a call may end in: it returns, or it panics. *)
Inductive Outcome (A : Type) : Type :=
| Returned (r : GoResult A)
| Panicked (msg : string).
Arguments Returned {A} r.
Arguments Panicked {A} msg.

(** One [http.Post(url, contentType, body)]. *)
Record Request := {
  req_url : string;
  req_contentType : string;
  req_body : string
}.

(** The parts of [*http.Response] the executor reads: the status code,
    [Header.Get("Content-Type")] and what [io.ReadAll(resp.Body)] gives. *)
Record Response := {
  resp_StatusCode : Z;
  resp_ContentType : string;
  resp_Body : GoResult string
}.

(** What [template.New("input").Parse(t)] followed by [tmpl.Execute(&buf,
    state)] ends in. *)
Inductive TemplateOutcome : Type :=
| ParseError (err : string)
| ExecError (err : string)
| Rendered (out : string).

Record Runtime := {
  (** [text/template] on a source that contains an action *)
  template_actions : string → WorkflowState → TemplateOutcome;
  (** [json.Unmarshal(body, &result)] with [result : StepResult] *)
  json_Unmarshal : string → GoResult StepResult;
  (** the network: the answer to a request, given the requests sent before *)
  http_respond : list Request → Request → GoResult Response
}.

(** Does the template source contain the left delimiter of an action? *)
Fixpoint has_action (t : string) : bool :=
  match t with
  | EmptyString => false
  | String c rest =>
      match rest with
      | EmptyString => false
      | String c' _ =>
          if (Ascii.eqb c "{"%char && Ascii.eqb c' "{"%char)%bool then true else has_action rest
      end
  end.

(** [text/template]: a source without [{{] parses to plain text, and executing
    it writes that text unchanged, whatever the data. *)
Definition template_render (rt : Runtime) (t : string) (state : WorkflowState)
  : TemplateOutcome :=
  if has_action t then template_actions rt t state else Rendered t.

(** [http.Post]: the request is sent (and logged) and the network answers. *)
Definition http_Post (rt : Runtime) (url contentType body : string) (log : list Request)
  : GoResult Response * list Request :=
  let req := {| req_url := url; req_contentType := contentType; req_body := body |} in
  (http_respond rt log req, log ++ [req]).

Definition StatusOK : Z := 200.

(** The executor.  [orchestrator/executor.go] declares only [workflows];
    [unnamed/part_002] adds [ports]. *)
Record ChainExecutor := {
  workflows : gmap string Workflow;
  ports : gmap string Z
}.

Definition error_result (step : Step) (message code : string) : StepResult :=
  {| StepResult_Data := None;
     StepResult_Error := Some {| WorkflowError_Step := Step_Name step;
                                 WorkflowError_Message := message;
                                 WorkflowError_Code := code |} |}.

(** ** [ExecuteStep] of [orchestrator/executor.go] *)
Module Orchestrator.

Definition ExecuteStep (rt : Runtime) (e : ChainExecutor) (step : Step)
    (state : WorkflowState) (log : list Request) : GoResult StepResult * list Request :=
  match template_render rt (Step_InputTemplate step) state with
  | ParseError err => (Err ("failed to parse input template: " +:+ err), log)
  | ExecError err => (Err ("failed to execute template: " +:+ err), log)
  | Rendered inputBuf =>
      let lambdaURL := "http://" +:+ Step_Lambda step +:+ ":8080" in
      let '(posted, log) := http_Post rt lambdaURL "application/json" inputBuf log in
      match posted with
      | Err err => (Err ("failed to call lambda: " +:+ err), log)
      | Ok resp =>
          match resp_Body resp with
          | Err err => (Err ("failed to read lambda response: " +:+ err), log)
          | Ok body =>
              if negb (resp_StatusCode resp =? StatusOK) then
                (Ok (error_result step ("lambda returned error: " +:+ body) "LAMBDA_ERROR"),
                 log)
              else
                match json_Unmarshal rt body with
                | Err err => (Err ("failed to parse lambda response: " +:+ err), log)
                | Ok result => (Ok result, log)
                end
          end
      end
  end.

End Orchestrator.

(** ** [ExecuteStep] of [unnamed/part_002] *)
Module Part002.

Definition ExecuteStep (rt : Runtime) (e : ChainExecutor) (step : Step)
    (state : WorkflowState) (log : list Request) : GoResult StepResult * list Request :=
  match template_render rt (Step_InputTemplate step) state with
  | ParseError err => (Err ("failed to parse input template: " +:+ err), log)
  | ExecError err => (Err ("failed to execute template: " +:+ err), log)
  | Rendered inputBuf =>
      match ports e !! Step_Lambda step with
      | None => (Err ("no port mapping found for lambda " +:+ Step_Lambda step), log)
      | Some port =>
          let lambdaURL := "http://localhost:" +:+ pretty port in
          let '(posted, log) := http_Post rt lambdaURL "application/json" inputBuf log in
          match posted with
          | Err err => (Err ("failed to call lambda: " +:+ err), log)
          | Ok resp =>
              match resp_Body resp with
              | Err err => (Err ("failed to read lambda response: " +:+ err), log)
              | Ok body =>
                  let contentType := resp_ContentType resp in
                  if negb (String.eqb contentType "application/json") then
                    (Ok (error_result step
                           ("lambda returned unexpected Content-Type: " +:+ contentType
                              +:+ ", body: " +:+ body)
                           "INVALID_RESPONSE_TYPE"),
                     log)
                  else if negb (resp_StatusCode resp =? StatusOK) then
                    (Ok (error_result step ("lambda returned error: " +:+ body)
                           "LAMBDA_ERROR"),
                     log)
                  else
                    match json_Unmarshal rt body with
                    | Err err =>
                        (Ok (error_result step
                               ("failed to parse lambda response as JSON: " +:+ body
                                  +:+ ", error: " +:+ err)
                               "INVALID_JSON"),
                         log)
                    | Ok result => (Ok result, log)
                    end
              end
          end
      end
  end.

End Part002.

(** The two copies of the package. *)
Inductive Source := SrcOrchestrator | SrcPart002.

Definition ExecuteStep (src : Source) :=
  match src with
  | SrcOrchestrator => Orchestrator.ExecuteStep
  | SrcPart002 => Part002.ExecuteStep
  end.

(** ** [ExecuteChain] (the same text in both copies) *)

(** Ghost history: every [ExecuteStep] call a run makes, with the step, the
    state and the request log it was given and what it returned.  The source
    keeps no such history; it is recorded here so that properties of a run
    can speak about its individual dispatches. *)
Inductive Role := MainStep | ErrorHandlerStep.

Record StepCall := {
  call_role : Role;
  call_step : Step;
  call_state : WorkflowState;
  call_log : list Request;
  call_result : GoResult StepResult
}.

(** A finished run: what [ExecuteChain] ended in, its local [state] when it
    ended, the ghost history, and the requests sent. *)
Record Run := {
  run_outcome : Outcome WorkflowOutput;
  run_state : WorkflowState;
  run_calls : list StepCall;
  run_log : list Request
}.

(** The [for i, step := range workflow.Steps] loop either falls through to
    the code after it or leaves the function from inside its body. *)
Inductive LoopResult :=
| LoopDone (state : WorkflowState) (calls : list StepCall) (log : list Request)
| LoopExit (r : Run).

Definition index_panic (i n : nat) : string :=
  "runtime error: index out of range [" +:+ pretty i +:+ "] with length " +:+ pretty n.

Definition output_of_result (result : StepResult) : WorkflowOutput :=
  {| WorkflowOutput_Data := StepResult_Data result;
     WorkflowOutput_Context := None;
     WorkflowOutput_Error := StepResult_Error result |}.

(** One iteration of the loop body, for the step at index [i].  [LoopDone]
    here means that the body reached its end and the loop goes on. *)
Definition chain_body (src : Source) (rt : Runtime) (e : ChainExecutor) (workflow : Workflow)
    (i : nat) (step : Step)
    (state : WorkflowState) (calls : list StepCall) (log : list Request) : LoopResult :=
  (* Execute step *)
  let '(r, log1) := ExecuteStep src rt e step state log in
  let calls :=
    calls ++ [{| call_role := MainStep; call_step := step; call_state := state;
                 call_log := log; call_result := r |}] in
  match r with
  | Err err =>
      LoopExit {| run_outcome :=
                    Returned (Err ("step " +:+ Step_Name step +:+ " failed: " +:+ err));
                  run_state := state; run_calls := calls; run_log := log1 |}
  | Ok result =>
      (* Update state *)
      let stepState := steps_index state (Step_Name step) in
      let stepState :=
        {| StepState_Input := StepState_Input stepState;
           StepState_Output := output_of_result result |} in
      let state := steps_assign state (Step_Name step) stepState in
      (* Handle error if any *)
      match StepResult_Error result with
      | Some _ =>
          let output :=
            {| WorkflowOutput_Data := None; WorkflowOutput_Context := None;
               WorkflowOutput_Error := StepResult_Error result |} in
          if negb (String.eqb (Step_ErrorHandler step) "") then
            (* Execute error handler *)
            match Workflow_Steps workflow !! (i + 1)%nat with
            | None =>
                LoopExit {| run_outcome :=
                              Panicked (index_panic (i + 1)
                                          (length (Workflow_Steps workflow)));
                            run_state := state; run_calls := calls; run_log := log1 |}
            | Some errorStep =>
                let '(r2, log2) := ExecuteStep src rt e errorStep state log1 in
                let calls :=
                  calls ++ [{| call_role := ErrorHandlerStep; call_step := errorStep;
                               call_state := state; call_log := log1;
                               call_result := r2 |}] in
                match r2 with
                | Err err =>
                    LoopExit {| run_outcome :=
                                  Returned (Err ("error handler " +:+ Step_Name errorStep
                                                   +:+ " failed: " +:+ err));
                                run_state := state; run_calls := calls;
                                run_log := log2 |}
                | Ok errorResult =>
                    let state :=
                      steps_assign state (Step_Name errorStep)
                        {| StepState_Input := StepState_Input stepState;
                           StepState_Output := output_of_result errorResult |} in
                    LoopExit {| run_outcome := Returned (Ok output);
                                run_state := state; run_calls := calls;
                                run_log := log2 |}
                end
            end
          else
            LoopExit {| run_outcome := Returned (Ok output);
                        run_state := state; run_calls := calls; run_log := log1 |}
      | None =>
          (* Move to next step *)
          if Z.of_nat i <? Z.of_nat (length (Workflow_Steps workflow)) - 1 then
            match Workflow_Steps workflow !! (i + 1)%nat with
            | None =>
                LoopExit {| run_outcome :=
                              Panicked (index_panic (i + 1)
                                          (length (Workflow_Steps workflow)));
                            run_state := state; run_calls := calls; run_log := log1 |}
            | Some nextStep =>
                let state := set_CurrentStep state (Step_Name nextStep) in
                let state :=
                  steps_assign state (Step_Name nextStep)
                    {| StepState_Input :=
                         {| WorkflowInput_Data := StepResult_Data result;
                            WorkflowInput_Context :=
                              WorkflowInput_Context (StepState_Input stepState) |};
                       StepState_Output := zero_WorkflowOutput |} in
                LoopDone state calls log1
            end
          else LoopDone state calls log1
      end
  end.

Fixpoint chain_loop (src : Source) (rt : Runtime) (e : ChainExecutor) (workflow : Workflow)
    (i : nat) (rest : list Step)
    (state : WorkflowState) (calls : list StepCall) (log : list Request) : LoopResult :=
  match rest with
  | [] => LoopDone state calls log
  | step :: rest =>
      match chain_body src rt e workflow i step state calls log with
      | LoopDone state calls log => chain_loop src rt e workflow (S i) rest state calls log
      | LoopExit r => LoopExit r
      end
  end.

Definition ExecuteChain (src : Source) (rt : Runtime) (e : ChainExecutor)
    (name : string) (input : WorkflowInput) (log : list Request) : Run :=
  match workflows e !! name with
  | None =>
      {| run_outcome := Returned (Err ("workflow " +:+ name +:+ " not found"));
         run_state := zero_WorkflowState; run_calls := []; run_log := log |}
  | Some workflow =>
      match Workflow_Steps workflow !! 0%nat with
      | None =>
          {| run_outcome := Panicked (index_panic 0 (length (Workflow_Steps workflow)));
             run_state := zero_WorkflowState; run_calls := []; run_log := log |}
      | Some first =>
          let state :=
            {| WorkflowState_Steps := ∅;
               WorkflowState_CurrentStep := Step_Name first;
               WorkflowState_Completed := false |} in
          (* Initialize first step *)
          let state :=
            steps_assign state (Step_Name first)
              {| StepState_Input := input; StepState_Output := zero_WorkflowOutput |} in
          match chain_loop src rt e workflow 0 (Workflow_Steps workflow) state [] log with
          | LoopExit r => r
          | LoopDone state calls log =>
              (* Workflow completed successfully *)
              let state := set_Completed state true in
              match Workflow_Steps workflow !! (length (Workflow_Steps workflow) - 1)%nat with
              | None =>
                  {| run_outcome :=
                       Panicked (index_panic (length (Workflow_Steps workflow) - 1)
                                   (length (Workflow_Steps workflow)));
                     run_state := state; run_calls := calls; run_log := log |}
              | Some lastStep =>
                  let lastState := steps_index state (Step_Name lastStep) in
                  {| run_outcome :=
                       Returned (Ok {| WorkflowOutput_Data :=
                                         WorkflowOutput_Data (StepState_Output lastState);
                                       WorkflowOutput_Context :=
                                         WorkflowInput_Context (StepState_Input lastState);
                                       WorkflowOutput_Error := None |});
                     run_state := state; run_calls := calls; run_log := log |}
              end
          end
      end
  end.

(** ** Well-formed JSON objects (RFC 8259)

    A recogniser for the request bodies a handler can decode: it consumes one
    JSON value from the front of the text and returns the rest. *)

Definition is_ws (c : ascii) : bool :=
  (Ascii.eqb c " "%char || Ascii.eqb c "009"%char || Ascii.eqb c "010"%char
   || Ascii.eqb c "013"%char)%bool.

Fixpoint skip_ws (s : list ascii) : list ascii :=
  match s with
  | c :: r => if is_ws c then skip_ws r else s
  | [] => []
  end.

Definition is_digit (c : ascii) : bool :=
  ((48 <=? N_of_ascii c) && (N_of_ascii c <=? 57))%N%bool.

Definition is_hex (c : ascii) : bool :=
  (is_digit c
   || ((65 <=? N_of_ascii c) && (N_of_ascii c <=? 70))%N
   || ((97 <=? N_of_ascii c) && (N_of_ascii c <=? 102))%N)%bool.

Definition is_simple_escape (c : ascii) : bool :=
  (Ascii.eqb c "034"%char || Ascii.eqb c "\"%char || Ascii.eqb c "/"%char
   || Ascii.eqb c "b"%char || Ascii.eqb c "f"%char || Ascii.eqb c "n"%char
   || Ascii.eqb c "r"%char || Ascii.eqb c "t"%char)%bool.

(** The characters of a string after its opening quote, up to and including
    the closing quote. *)
Fixpoint json_string (s : list ascii) : option (list ascii) :=
  match s with
  | [] => None
  | c :: r =>
      if Ascii.eqb c "034"%char then Some r
      else if Ascii.eqb c "\"%char then
        match r with
        | [] => None
        | x :: r' =>
            if is_simple_escape x then json_string r'
            else if Ascii.eqb x "u"%char then
              match r' with
              | h1 :: h2 :: h3 :: h4 :: r'' =>
                  if (is_hex h1 && is_hex h2 && is_hex h3 && is_hex h4)%bool
                  then json_string r'' else None
              | _ => None
              end
            else None
        end
      else if (N_of_ascii c <? 32)%N then None
      else json_string r
  end.

Fixpoint skip_digits (s : list ascii) : list ascii :=
  match s with
  | c :: r => if is_digit c then skip_digits r else s
  | [] => []
  end.

(** One or more digits. *)
Definition json_digits (s : list ascii) : option (list ascii) :=
  match s with
  | c :: r => if is_digit c then Some (skip_digits r) else None
  | [] => None
  end.

Definition json_number (s : list ascii) : option (list ascii) :=
  let s := match s with
           | c :: r => if Ascii.eqb c "-"%char then r else s
           | [] => s
           end in
  let int :=
    match s with
    | c :: r =>
        if Ascii.eqb c "0"%char then Some r
        else if is_digit c then Some (skip_digits r) else None
    | [] => None
    end in
  match int with
  | None => None
  | Some s =>
      let frac :=
        match s with
        | c :: r => if Ascii.eqb c "."%char then json_digits r else Some s
        | [] => Some s
        end in
      match frac with
      | None => None
      | Some s =>
          match s with
          | c :: r =>
              if (Ascii.eqb c "e"%char || Ascii.eqb c "E"%char)%bool then
                match r with
                | x :: r' =>
                    if (Ascii.eqb x "+"%char || Ascii.eqb x "-"%char)%bool
                    then json_digits r' else json_digits r
                | [] => None
                end
              else Some s
          | [] => Some s
          end
      end
  end.

Definition json_literal (lit : string) (s : list ascii) : option (list ascii) :=
  let l := String.list_ascii_of_string lit in
  if decide (take (length l) s = l) then Some (drop (length l) s) else None.

Inductive JSONGoal := GValue | GMembers | GElements.

Fixpoint json_parse (fuel : nat) (g : JSONGoal) (s : list ascii) : option (list ascii) :=
  match fuel with
  | O => None
  | S fuel =>
      match g with
      | GValue =>
          match skip_ws s with
          | [] => None
          | c :: r =>
              if Ascii.eqb c "{"%char then
                match skip_ws r with
                | [] => None
                | c' :: r' =>
                    if Ascii.eqb c' "}"%char then Some r'
                    else json_parse fuel GMembers (c' :: r')
                end
              else if Ascii.eqb c "["%char then
                match skip_ws r with
                | [] => None
                | c' :: r' =>
                    if Ascii.eqb c' "]"%char then Some r'
                    else json_parse fuel GElements (c' :: r')
                end
              else if Ascii.eqb c "034"%char then json_string r
              else if Ascii.eqb c "t"%char then json_literal "true" (c :: r)
              else if Ascii.eqb c "f"%char then json_literal "false" (c :: r)
              else if Ascii.eqb c "n"%char then json_literal "null" (c :: r)
              else json_number (c :: r)
          end
      | GMembers =>
          (* string ws ':' value ws, then ',' ws and more members, or '}' *)
          match s with
          | [] => None
          | c :: r =>
              if Ascii.eqb c "034"%char then
                match json_string r with
                | None => None
                | Some r1 =>
                    match skip_ws r1 with
                    | [] => None
                    | c1 :: r2 =>
                        if Ascii.eqb c1 ":"%char then
                          match json_parse fuel GValue r2 with
                          | None => None
                          | Some r3 =>
                              match skip_ws r3 with
                              | [] => None
                              | c3 :: r4 =>
                                  if Ascii.eqb c3 ","%char
                                  then json_parse fuel GMembers (skip_ws r4)
                                  else if Ascii.eqb c3 "}"%char then Some r4
                                  else None
                              end
                          end
                        else None
                    end
                end
              else None
          end
      | GElements =>
          match json_parse fuel GValue s with
          | None => None
          | Some r1 =>
              match skip_ws r1 with
              | [] => None
              | c1 :: r2 =>
                  if Ascii.eqb c1 ","%char then json_parse fuel GElements r2
                  else if Ascii.eqb c1 "]"%char then Some r2
                  else None
              end
          end
      end
  end.

(** The text is one JSON object, with nothing but white space around it. *)
Definition is_json_object (text : string) : bool :=
  let s := String.list_ascii_of_string text in
  match skip_ws s with
  | [] => false
  | c :: _ =>
      if Ascii.eqb c "{"%char then
        match json_parse (2 * length s + 2) GValue s with
        | Some r => match skip_ws r with [] => true | _ => false end
        | None => false
        end
      else false
  end.

(** ** Vocabulary of the properties *)

Definition flow_calls (f : LoopResult) : list StepCall :=
  match f with
  | LoopDone _ calls _ => calls
  | LoopExit r => run_calls r
  end.

(** The address [ExecuteStep] posts to, when it can resolve one. *)
Definition lambdaURL (src : Source) (e : ChainExecutor) (step : Step) : option string :=
  match src with
  | SrcOrchestrator => Some ("http://" +:+ Step_Lambda step +:+ ":8080")
  | SrcPart002 =>
      match ports e !! Step_Lambda step with
      | Some port => Some ("http://localhost:" +:+ pretty port)
      | None => None
      end
  end.

(** The request [ExecuteStep] sends for a step in a state, when the template
    renders and the address resolves. *)
Definition step_request (src : Source) (rt : Runtime) (e : ChainExecutor)
    (step : Step) (state : WorkflowState) : option Request :=
  match template_render rt (Step_InputTemplate step) state with
  | Rendered body =>
      match lambdaURL src e step with
      | Some url =>
          Some {| req_url := url; req_contentType := "application/json"; req_body := body |}
      | None => None
      end
  | _ => None
  end.

(** A call that returned a result without an error. *)
Definition succeeded (c : StepCall) : Prop :=
  ∃ result, call_result c = Ok result ∧ StepResult_Error result = None.

(** The input recorded for a step in a state. *)
Definition recorded_input (state : WorkflowState) (step : Step) : WorkflowInput :=
  StepState_Input (steps_index state (Step_Name step)).

(** The state once a step's result has been recorded as its output. *)
Definition record_output (state : WorkflowState) (step : Step) (result : StepResult)
  : WorkflowState :=
  steps_assign state (Step_Name step)
    {| StepState_Input := recorded_input state step;
       StepState_Output := output_of_result result |}.

(** [&types.WorkflowOutput{Error: err}] *)
Definition error_output (err : WorkflowError) : WorkflowOutput :=
  {| WorkflowOutput_Data := None; WorkflowOutput_Context := None;
     WorkflowOutput_Error := Some err |}.

(** The three kinds of outcome of a dispatch. *)
Inductive Classification :=
| Fatal
| Recoverable (code : string)
| Success.

Definition classify (r : GoResult StepResult) : Classification :=
  match r with
  | Err _ => Fatal
  | Ok result =>
      match StepResult_Error result with
      | Some err => Recoverable (WorkflowError_Code err)
      | None => Success
      end
  end.

(** An answer on which the two copies of [ExecuteStep] have nothing to
    disagree about: a response that is read has the JSON content type, and
    with status 200 its body decodes. *)
Definition well_formed_answer (rt : Runtime) (a : GoResult Response) : Prop :=
  ∀ resp body,
    a = Ok resp → resp_Body resp = Ok body →
    resp_ContentType resp = "application/json" ∧
    (resp_StatusCode resp = StatusOK → ∃ result, json_Unmarshal rt body = Ok result).

(** What holds each time the loop is about to run the step at index [i]:
    [rest] are the steps still to run, every earlier step was called once as
    a main step and succeeded, each call sent one request, and the input
    recorded for the next step carries the context [ctx] of the run. *)
Definition chain_inv (src : Source) (rt : Runtime) (e : ChainExecutor) (workflow : Workflow)
    (ctx : JSONMap) (log0 : list Request)
    (i : nat) (rest : list Step)
    (state : WorkflowState) (calls : list StepCall) (log : list Request) : Prop :=
  drop i (Workflow_Steps workflow) = rest ∧
  length calls = i ∧
  map call_step calls = take i (Workflow_Steps workflow) ∧
  Forall (λ c, call_role c = MainStep ∧ succeeded c) calls ∧
  (∃ reqs, log = log0 ++ reqs ∧
     Forall2 (λ c req, step_request src rt e (call_step c) (call_state c) = Some req)
       calls reqs) ∧
  (∀ step, head rest = Some step →
     WorkflowInput_Context (recorded_input state step) = ctx).

(** The ghost record of the call the loop body makes for its own step, and of
    the call it makes for the error handler. *)
Definition main_call (src : Source) (rt : Runtime) (e : ChainExecutor)
    (step : Step) (state : WorkflowState) (log : list Request) : StepCall :=
  {| call_role := MainStep; call_step := step; call_state := state; call_log := log;
     call_result := fst (ExecuteStep src rt e step state log) |}.

Definition handler_call (src : Source) (rt : Runtime) (e : ChainExecutor)
    (errorStep : Step) (state : WorkflowState) (log : list Request) : StepCall :=
  {| call_role := ErrorHandlerStep; call_step := errorStep; call_state := state;
     call_log := log; call_result := fst (ExecuteStep src rt e errorStep state log) |}.

(** The state in which the next step starts: it is made current and its
    input is seeded from the result and the context of the step before. *)
Definition seed_next (state : WorkflowState) (nextStep : Step) (data ctx : JSONMap)
  : WorkflowState :=
  steps_assign (set_CurrentStep state (Step_Name nextStep)) (Step_Name nextStep)
    {| StepState_Input := {| WorkflowInput_Data := data; WorkflowInput_Context := ctx |};
       StepState_Output := zero_WorkflowOutput |}.

(** The state [ExecuteChain] starts its loop in. *)
Definition initial_state (first : Step) (input : WorkflowInput) : WorkflowState :=
  steps_assign
    {| WorkflowState_Steps := ∅; WorkflowState_CurrentStep := Step_Name first;
       WorkflowState_Completed := false |}
    (Step_Name first)
    {| StepState_Input := input; StepState_Output := zero_WorkflowOutput |}.

(** What [ExecuteChain] does with the result of its loop: a [return] inside
    the loop is the result; otherwise the run is completed and the output is
    read from the last step's recorded state. *)
Definition finish_chain (workflow : Workflow) (f : LoopResult) : Run :=
  match f with
  | LoopExit r => r
  | LoopDone state calls log =>
      let state := set_Completed state true in
      match Workflow_Steps workflow !! (length (Workflow_Steps workflow) - 1)%nat with
      | None =>
          {| run_outcome :=
               Panicked (index_panic (length (Workflow_Steps workflow) - 1)
                           (length (Workflow_Steps workflow)));
             run_state := state; run_calls := calls; run_log := log |}
      | Some lastStep =>
          {| run_outcome :=
               Returned (Ok {| WorkflowOutput_Data :=
                                 WorkflowOutput_Data
                                   (StepState_Output (steps_index state (Step_Name lastStep)));
                               WorkflowOutput_Context :=
                                 WorkflowInput_Context (recorded_input state lastStep);
                               WorkflowOutput_Error := None |});
             run_state := state; run_calls := calls; run_log := log |}
      end
  end.

(** The requests a call of [ExecuteStep] adds to the log. *)
Definition sent_requests (src : Source) (rt : Runtime) (e : ChainExecutor)
    (step : Step) (state : WorkflowState) (log : list Request) : list Request :=
  drop (length log) (snd (ExecuteStep src rt e step state log)).

(** ** Concrete executors, workflows and networks

    Small closed instances of the model, on which the theorems below are
    applied and the failing behaviours are exhibited. *)

(** The port table [NewChainExecutor] of [unnamed/part_002] installs. *)
Definition default_ports : gmap string Z :=
  list_to_map [("user_create", 8080); ("user_read", 8081);
               ("user_update", 8082); ("user_delete", 8083)].

Definition quote : string := String "034"%char "".

(** A JSON string literal. *)
Definition jstr (s : string) : string := quote +:+ s +:+ quote.

Definition mk_step (name lambda template handler : string) : Step :=
  {| Step_Name := name; Step_Lambda := lambda; Step_InputTemplate := template;
     Step_PassOutputAs := ""; Step_ErrorHandler := handler |}.

Definition payload_create : string :=
  "{" +:+ jstr "email" +:+ ": " +:+ jstr "a@b.com" +:+ "}".

Definition payload_id : string :=
  "{" +:+ jstr "id" +:+ ": " +:+ jstr "7" +:+ "}".

Definition step_create : Step := mk_step "create_user" "user_create" payload_create "".
Definition step_verify : Step := mk_step "verify_user" "user_read" payload_id "".
Definition step_create_guarded : Step :=
  mk_step "create_user" "user_create" payload_create "cleanup_user".
Definition step_cleanup : Step := mk_step "cleanup_user" "user_delete" payload_id "".
Definition step_notify : Step := mk_step "notify" "send_email" payload_id "".

Definition mk_workflow (name : string) (steps : list Step) : Workflow :=
  {| Workflow_Name := name; Workflow_Description := ""; Workflow_Steps := steps |}.

Definition wf_two : Workflow := mk_workflow "two" [step_create; step_verify].
Definition wf_guarded : Workflow := mk_workflow "guarded" [step_create_guarded; step_cleanup].
Definition wf_unrouted : Workflow := mk_workflow "unrouted" [step_create_guarded; step_notify].
Definition wf_empty : Workflow := mk_workflow "empty" [].
Definition wf_single : Workflow := mk_workflow "single" [step_create_guarded].

Definition demo_executor : ChainExecutor :=
  {| workflows := list_to_map [("two", wf_two); ("guarded", wf_guarded);
                               ("unrouted", wf_unrouted); ("empty", wf_empty);
                               ("single", wf_single)];
     ports := default_ports |}.

Definition demo_input : WorkflowInput :=
  {| WorkflowInput_Data := Some {[ "email" := JString "a@b.com" ]};
     WorkflowInput_Context := Some {[ "request_id" := JString "r-1" ]} |}.

(** Response bodies and what they decode to. *)
Definition body_created : string :=
  "{" +:+ jstr "data" +:+ ": {" +:+ jstr "id" +:+ ": " +:+ jstr "7" +:+ "}}".
Definition body_done : string :=
  "{" +:+ jstr "data" +:+ ": {" +:+ jstr "done" +:+ ": true}}".

Definition result_created : StepResult :=
  {| StepResult_Data := Some {[ "id" := JString "7" ]}; StepResult_Error := None |}.
Definition result_done : StepResult :=
  {| StepResult_Data := Some {[ "done" := JBool true ]}; StepResult_Error := None |}.

Definition demo_decode (body : string) : GoResult StepResult :=
  if String.eqb body body_created then Ok result_created
  else if String.eqb body body_done then Ok result_done
  else Err "invalid character".

(** A network that gives the [n]-th request the [n]-th answer of a script and
    refuses the connection once the script is used up. *)
Definition scripted (answers : list (GoResult Response))
  : list Request → Request → GoResult Response :=
  λ log _, default (Err "connection refused") (answers !! length log).

Definition demo_rt (answers : list (GoResult Response)) : Runtime :=
  {| template_actions := λ _ _, ExecError "can't evaluate field";
     json_Unmarshal := demo_decode;
     http_respond := scripted answers |}.

Definition answer_json (body : string) : GoResult Response :=
  Ok {| resp_StatusCode := 200; resp_ContentType := "application/json";
        resp_Body := Ok body |}.

Definition answer_text (body : string) : GoResult Response :=
  Ok {| resp_StatusCode := 200; resp_ContentType := "text/plain; charset=utf-8";
        resp_Body := Ok body |}.

(** What a handler's [http.Error(w, msg, 500)] sends. *)
Definition answer_failure : GoResult Response :=
  Ok {| resp_StatusCode := 500; resp_ContentType := "text/plain; charset=utf-8";
        resp_Body := Ok "Failed to create user" |}.

(** The step and the state [handleLambda] of [main.go] builds to call one
    lambda directly: the step has no input template. *)
Definition lambda_step (lambdaName : string) : Step :=
  {| Step_Name := lambdaName; Step_Lambda := lambdaName; Step_InputTemplate := "";
     Step_PassOutputAs := ""; Step_ErrorHandler := "" |}.

Definition lambda_state (lambdaName : string) (input : JSONMap) : WorkflowState :=
  {| WorkflowState_Steps :=
       {[ lambdaName := {| StepState_Input :=
                             {| WorkflowInput_Data := input;
                                WorkflowInput_Context := None |};
                           StepState_Output := zero_WorkflowOutput |} ]};
     WorkflowState_CurrentStep := lambdaName;
     WorkflowState_Completed := false |}.

(** Runs of the executor of [unnamed/part_002] on these instances. *)

(** Both steps answer with a result. *)
Definition rt_two_ok : Runtime := demo_rt [answer_json body_created; answer_json body_done].
Definition run_two_ok : Run :=
  ExecuteChain SrcPart002 rt_two_ok demo_executor "two" demo_input [].

(** The first handler answers with a failure. *)
Definition rt_failure : Runtime := demo_rt [answer_failure].
Definition run_two_failure : Run :=
  ExecuteChain SrcPart002 rt_failure demo_executor "two" demo_input [].

(** The first handler cannot be reached. *)
Definition rt_down : Runtime := demo_rt [].
Definition run_two_down : Run :=
  ExecuteChain SrcPart002 rt_down demo_executor "two" demo_input [].

(** The first handler fails and the error handler answers with a result. *)
Definition rt_recovered : Runtime := demo_rt [answer_failure; answer_json body_done].
Definition run_guarded : Run :=
  ExecuteChain SrcPart002 rt_recovered demo_executor "guarded" demo_input [].

(** The first handler fails and the error handler's lambda has no port. *)
Definition run_unrouted : Run :=
  ExecuteChain SrcPart002 rt_failure demo_executor "unrouted" demo_input [].

(** A handler answers status 200 with a body that is not a result. *)
Definition rt_garbled : Runtime := demo_rt [answer_json "oops"].

(** A handler answers a result under a Content-Type that is not JSON. *)
Definition rt_mistyped : Runtime := demo_rt [answer_text body_created].

(** A step whose input template is plain text that is not JSON. *)
Definition step_ping : Step := mk_step "ping" "user_read" "ping" "".

(** What [unnamed/part_002] makes of [answer_failure] for [create_user]. *)
Definition failure_error : WorkflowError :=
  {| WorkflowError_Step := "create_user";
     WorkflowError_Message :=
       "lambda returned unexpected Content-Type: text/plain; charset=utf-8, body: Failed to create user";
     WorkflowError_Code := "INVALID_RESPONSE_TYPE" |}.

Definition failure_result : StepResult :=
  {| StepResult_Data := None; StepResult_Error := Some failure_error |}.

(** The request [unnamed/part_002] sends for [create_user]. *)
Definition request_create : Request :=
  {| req_url := "http://localhost:8080"; req_contentType := "application/json";
     req_body := payload_create |}.

(** ** More vocabulary: what the state holds while the loop runs *)

(** What holds of the state each time the loop is about to run the step at
    index [i]: the run is not marked completed; the step about to run (or,
    after the last one, the last step) is the current one; the context
    recorded for the step before is still [ctx]; and the state has an entry
    exactly for the names of the steps up to index [i]. *)
Definition chain_state_inv (workflow : Workflow) (ctx : JSONMap)
    (i : nat) (rest : list Step) (state : WorkflowState) : Prop :=
  WorkflowState_Completed state = false ∧
  (∀ step, head rest = Some step → WorkflowState_CurrentStep state = Step_Name step) ∧
  (∀ step, rest = [] → last (take i (Workflow_Steps workflow)) = Some step →
           WorkflowState_CurrentStep state = Step_Name step) ∧
  (∀ step, last (take i (Workflow_Steps workflow)) = Some step →
           WorkflowInput_Context (recorded_input state step) = ctx) ∧
  (∀ name, is_Some (WorkflowState_Steps state !! name) ↔
           name ∈ Step_Name <$> take (S i) (Workflow_Steps workflow)).

(** What the state records of the calls made so far: under the name of each
    step that returned a result, the input it was called with and that
    result as its output. *)
Definition chain_record_inv (state : WorkflowState) (calls : list StepCall) : Prop :=
  ∀ k c r,
    calls !! k = Some c → call_role c = MainStep → call_result c = Ok r →
    WorkflowState_Steps state !! Step_Name (call_step c)
    = Some {| StepState_Input := recorded_input (call_state c) (call_step c);
              StepState_Output := output_of_result r |}.

(** ** What a run depends on in a workflow definition *)

(** Two steps the executor cannot tell apart: they agree on name, lambda and
    input template, and both or neither declare an error handler.  They may
    differ in [pass_output_as] and in which handler they name. *)
Definition step_alike (s s' : Step) : Prop :=
  Step_Name s = Step_Name s' ∧
  Step_Lambda s = Step_Lambda s' ∧
  Step_InputTemplate s = Step_InputTemplate s' ∧
  (Step_ErrorHandler s = "" ↔ Step_ErrorHandler s' = "").

(** Two runs with the same result: outcome, final state, requests sent and
    what each call returned. *)
Definition run_alike (r r' : Run) : Prop :=
  run_outcome r = run_outcome r' ∧
  run_state r = run_state r' ∧
  run_log r = run_log r' ∧
  map call_result (run_calls r) = map call_result (run_calls r').

Definition flow_alike (f f' : LoopResult) : Prop :=
  match f, f' with
  | LoopDone s c l, LoopDone s' c' l' =>
      s = s' ∧ l = l' ∧ map call_result c = map call_result c'
  | LoopExit r, LoopExit r' => run_alike r r'
  | _, _ => False
  end.

(** ** The registry: [NewChainExecutor], [LoadWorkflow], [GetWorkflows]

    The file system, the YAML decoder and the directory listing are
    gathered in a [Host] record. *)
Record Host := {
  (** [os.ReadFile(path)] *)
  os_ReadFile : string → GoResult string;
  (** [yaml.Unmarshal(file, &workflow)] into a zero [types.Workflow] *)
  yaml_Unmarshal : string → GoResult Workflow;
  (** [filepath.Glob(pattern)] *)
  filepath_Glob : string → GoResult (list string)
}.

(** [orchestrator/executor.go] builds an executor with no workflows;
    [unnamed/part_002] also installs its port table. *)
Definition NewChainExecutor (src : Source) : ChainExecutor :=
  {| workflows := ∅;
     ports := match src with
              | SrcOrchestrator => ∅
              | SrcPart002 => default_ports
              end |}.

(** [fmt.Sprintf("workflows/%s.yaml", name)] *)
Definition workflow_path (name : string) : string :=
  "workflows/" +:+ name +:+ ".yaml".

(** [LoadWorkflow] returns an error, or stores the workflow under [name] in
    the executor's map; the executor it leaves is the result. *)
Definition LoadWorkflow (host : Host) (e : ChainExecutor) (name : string)
  : GoResult ChainExecutor :=
  match os_ReadFile host (workflow_path name) with
  | Err err => Err ("failed to read workflow file: " +:+ err)
  | Ok file =>
      match yaml_Unmarshal host file with
      | Err err => Err ("failed to parse workflow: " +:+ err)
      | Ok workflow =>
          Ok {| workflows := <[name := workflow]> (workflows e); ports := ports e |}
      end
  end.

(** [GetWorkflows] appends the key of every entry the [range] over the map
    visits.  Go does not specify the order of the visit: [visit] is the
    sequence of entries of one [range] over [e.workflows]. *)
Definition GetWorkflows (visit : list (string * Workflow)) : list string :=
  foldl (λ workflows entry, workflows ++ [entry.1]) [] visit.

(** What Go promises of a [range] over a map: every entry is visited once. *)
Definition range_of (e : ChainExecutor) (visit : list (string * Workflow)) : Prop :=
  visit ≡ₚ map_to_list (workflows e).

(** ** [main.go]: the server and its two handlers *)

Definition is_slash (c : ascii) : bool := Ascii.eqb c "/"%char.

Fixpoint drop_slashes (l : list ascii) : list ascii :=
  match l with
  | c :: l' => if is_slash c then drop_slashes l' else l
  | [] => []
  end.

Fixpoint take_to_slash (l : list ascii) : list ascii :=
  match l with
  | c :: l' => if is_slash c then [] else c :: take_to_slash l'
  | [] => []
  end.

(** [filepath.Base] on a system whose separator is the slash: the last
    element of the path, trailing slashes removed first; ["."] for the empty
    path and ["/"] for a path of slashes only. *)
Definition filepath_Base (path : string) : string :=
  match path with
  | EmptyString => "."
  | _ =>
      let stripped := drop_slashes (reverse (String.list_ascii_of_string path)) in
      match reverse (take_to_slash stripped) with
      | [] => "/"
      | element => String.string_of_list_ascii element
      end
  end.

(** [strings.TrimSuffix] *)
Definition strings_TrimSuffix (s suffix : string) : string :=
  let l := String.list_ascii_of_string s in
  let suf := String.list_ascii_of_string suffix in
  let n := (length l - length suf)%nat in
  if decide ((length suf ≤ length l)%nat ∧ drop n l = suf)
  then String.string_of_list_ascii (take n l)
  else s.

(** [strings.Trim(s, "/")] *)
Definition trim_slashes (s : string) : string :=
  String.string_of_list_ascii
    (reverse (drop_slashes (reverse (drop_slashes (String.list_ascii_of_string s))))).

(** [strings.Split(s, "/")]: the pieces between the slashes, one more than
    there are slashes. *)
Fixpoint split_slashes_go (piece l : list ascii) : list string :=
  match l with
  | [] => [String.string_of_list_ascii (reverse piece)]
  | c :: l' =>
      if is_slash c
      then String.string_of_list_ascii (reverse piece) :: split_slashes_go [] l'
      else split_slashes_go (c :: piece) l'
  end.

Definition split_slashes (s : string) : list string :=
  split_slashes_go [] (String.list_ascii_of_string s).

Record Server := { executor : ChainExecutor }.

(** [name := strings.TrimSuffix(filepath.Base(file), ".yaml")] *)
Definition workflow_name (file : string) : string :=
  strings_TrimSuffix (filepath_Base file) ".yaml".

(** [NewServer] loads every file the pattern matches; a file that fails to
    load is logged and skipped.  When [Glob] fails its matches are nil. *)
Definition NewServer (src : Source) (host : Host) : Server :=
  let executor := NewChainExecutor src in
  let workflowFiles :=
    match filepath_Glob host "workflows/*.yaml" with
    | Ok files => files
    | Err _ => []
    end in
  {| executor :=
       foldl (λ executor file,
                match LoadWorkflow host executor (workflow_name file) with
                | Ok executor' => executor'
                | Err _ => executor
                end)
         executor workflowFiles |}.

(** What [LoadWorkflow] stores for a name, when it stores something. *)
Definition loadable (host : Host) (name : string) : option Workflow :=
  match os_ReadFile host (workflow_path name) with
  | Ok file =>
      match yaml_Unmarshal host file with
      | Ok workflow => Some workflow
      | Err _ => None
      end
  | Err _ => None
  end.

(** A text without a slash, as the [*] of a pattern matches. *)
Definition no_slash (s : string) : bool :=
  forallb (λ c, negb (is_slash c)) (String.list_ascii_of_string s).

(** ** Requests and response writers of the HTTP handlers

    [main.go] and the lambdas are [net/http] handlers.  A handler reads the
    method, the path and the body of its request, and sets headers, writes a
    status and writes values to its [http.ResponseWriter]. *)
Record HttpRequest := {
  r_Method : string;
  r_URL_Path : string;
  r_Body : string
}.

(** [types/user.go] *)
Record User := {
  User_ID : Z;
  User_Email : string;
  User_Name : string;
  (** [time.Time], as nanoseconds since the epoch *)
  User_CreatedAt : Z;
  User_UpdatedAt : Z
}.

Record CreateUserInput := {
  CreateUserInput_Email : string;
  CreateUserInput_Name : string
}.

Record UpdateUserInput := {
  UpdateUserInput_Email : string;
  UpdateUserInput_Name : string
}.

Record ReadUserInput := { ReadUserInput_ID : Z }.

(** What a handler writes to the body: a value through
    [json.NewEncoder(w).Encode], or the text of an [http.Error]. *)
Inductive Payload :=
(** [map[string]string{"error": message}] *)
| ErrorMessage (message : string)
| ResultPayload (result : StepResult)
| OutputPayload (output : WorkflowOutput)
(** [types.CreateUserOutput], [ReadUserOutput] and [UpdateUserOutput]: a
    struct with the one field [User] *)
| UserPayload (user : User)
| PlainText (text : string).

(** [w_Status] is [None] until the status line is written. *)
Record ResponseWriter := {
  w_Header : gmap string string;
  w_Status : option Z;
  w_Body : list Payload
}.

(** The writer [net/http] hands to a handler. *)
Definition new_writer : ResponseWriter :=
  {| w_Header := ∅; w_Status := None; w_Body := [] |}.

(** [w.Header().Set(key, value)] *)
Definition Header_Set (w : ResponseWriter) (key value : string) : ResponseWriter :=
  {| w_Header := <[key := value]> (w_Header w);
     w_Status := w_Status w; w_Body := w_Body w |}.

(** [w.Header().Del(key)] *)
Definition Header_Del (w : ResponseWriter) (key : string) : ResponseWriter :=
  {| w_Header := delete key (w_Header w);
     w_Status := w_Status w; w_Body := w_Body w |}.

(** [w.WriteHeader(status)]: only the first call writes the status line. *)
Definition WriteHeader (w : ResponseWriter) (status : Z) : ResponseWriter :=
  match w_Status w with
  | None => {| w_Header := w_Header w; w_Status := Some status; w_Body := w_Body w |}
  | Some _ => w
  end.

(** A write to the body; the first write sends status 200 when no status
    has been written. *)
Definition Write (w : ResponseWriter) (data : Payload) : ResponseWriter :=
  let w := WriteHeader w StatusOK in
  {| w_Header := w_Header w; w_Status := w_Status w; w_Body := w_Body w ++ [data] |}.

Definition StatusBadRequest : Z := 400.
Definition StatusMethodNotAllowed : Z := 405.
Definition StatusConflict : Z := 409.
Definition StatusInternalServerError : Z := 500.

Definition newline : string := String "010"%char "".

(** [http.Error(w, error, code)] of [net/http] *)
Definition http_Error (w : ResponseWriter) (error : string) (code : Z) : ResponseWriter :=
  let w := Header_Del w "Content-Length" in
  let w := Header_Set w "Content-Type" "text/plain; charset=utf-8" in
  let w := Header_Set w "X-Content-Type-Options" "nosniff" in
  let w := WriteHeader w code in
  Write w (PlainText (error +:+ newline)).

(** What a handler ends in: it returns, or it panics and [net/http] drops
    the connection. *)
Inductive Served :=
| Replied (w : ResponseWriter)
| Crashed (msg : string).

(** ** [utils] ([unnamed/part_000]) *)

Definition SetCORSHeaders (w : ResponseWriter) : ResponseWriter :=
  let w := Header_Set w "Content-Type" "application/json" in
  let w := Header_Set w "Access-Control-Allow-Origin" "*" in
  let w := Header_Set w "Access-Control-Allow-Methods" "GET, POST, PUT, DELETE, OPTIONS" in
  Header_Set w "Access-Control-Allow-Headers" "Content-Type".

Definition RespondJSON (w : ResponseWriter) (status : Z) (data : Payload)
  : ResponseWriter :=
  let w := Header_Set w "Content-Type" "application/json" in
  let w := WriteHeader w status in
  Write w data.

Definition RespondError (w : ResponseWriter) (status : Z) (message : string)
  : ResponseWriter :=
  RespondJSON w status (ErrorMessage message).

(** [DecodeJSONBody] into a [map[string]interface{}]; [json_Decode] is
    [json.NewDecoder(r.Body).Decode] at that type. *)
Definition DecodeJSONBody (json_Decode : string → GoResult JSONMap) (r : HttpRequest)
  : GoResult JSONMap :=
  json_Decode (r_Body r).

(** ** The handlers of [main.go] *)

(** [handleLambda].  [len(parts) != 2] followed by [parts[1]] is the match on
    a list of two. *)
Definition handleLambda (src : Source) (rt : Runtime)
    (json_Decode : string → GoResult JSONMap) (s : Server)
    (w : ResponseWriter) (r : HttpRequest) (log : list Request)
  : ResponseWriter * list Request :=
  let w := SetCORSHeaders w in
  if String.eqb (r_Method r) "OPTIONS" then (WriteHeader w StatusOK, log)
  else if negb (String.eqb (r_Method r) "POST") then
    (RespondError w StatusMethodNotAllowed "Method not allowed", log)
  else
    let path := trim_slashes (r_URL_Path r) in
    let parts := split_slashes path in
    match parts with
    | [_; lambdaName] =>
        match DecodeJSONBody json_Decode r with
        | Err _ => (RespondError w StatusBadRequest "Invalid request body", log)
        | Ok input =>
            let '(executed, log) :=
              ExecuteStep src rt (executor s) (lambda_step lambdaName)
                (lambda_state lambdaName input) log in
            match executed with
            | Err err => (RespondError w StatusInternalServerError err, log)
            | Ok result =>
                match StepResult_Error result with
                | Some error =>
                    (RespondError w StatusInternalServerError
                       (WorkflowError_Message error), log)
                | None => (RespondJSON w StatusOK (ResultPayload result), log)
                end
            end
        end
    | _ => (RespondError w StatusBadRequest "Invalid lambda path", log)
    end.

(** [handleWorkflow] *)
Definition handleWorkflow (src : Source) (rt : Runtime)
    (json_Decode : string → GoResult JSONMap) (s : Server)
    (w : ResponseWriter) (r : HttpRequest) (log : list Request)
  : Served * list Request :=
  let w := SetCORSHeaders w in
  if String.eqb (r_Method r) "OPTIONS" then (Replied (WriteHeader w StatusOK), log)
  else if negb (String.eqb (r_Method r) "POST") then
    (Replied (RespondError w StatusMethodNotAllowed "Method not allowed"), log)
  else
    let path := trim_slashes (r_URL_Path r) in
    let parts := split_slashes path in
    match parts with
    | [_; workflowName] =>
        match DecodeJSONBody json_Decode r with
        | Err _ => (Replied (RespondError w StatusBadRequest "Invalid request body"), log)
        | Ok input =>
            let workflowInput :=
              {| WorkflowInput_Data := input; WorkflowInput_Context := None |} in
            let run := ExecuteChain src rt (executor s) workflowName workflowInput log in
            match run_outcome run with
            | Panicked msg => (Crashed msg, run_log run)
            | Returned (Err err) =>
                (Replied (RespondError w StatusInternalServerError err), run_log run)
            | Returned (Ok result) =>
                (Replied (RespondJSON w StatusOK (OutputPayload result)), run_log run)
            end
        end
    | _ => (Replied (RespondError w StatusBadRequest "Invalid workflow path"), log)
    end.

(** ** The database layer ([db/user_repo.go])

    Go errors the handlers tell apart by dynamic type or identity:
    [sql.ErrNoRows], a [*pq.Error], what [fmt.Errorf] returns for a format
    with [%w] (a wrapper that is neither of the two) and any other error. *)
Inductive GoError :=
| sql_ErrNoRows
| pq_Error (Code : string) (Message : string)
| fmt_wrapError (msg : string) (err : GoError)
| errorString (text : string).

(** [err.Error()] *)
Definition Error_text (err : GoError) : string :=
  match err with
  | sql_ErrNoRows => "sql: no rows in result set"
  | pq_Error _ message => "pq: " +:+ message
  | fmt_wrapError msg _ => msg
  | errorString text => text
  end.

(** [fmt.Errorf(prefix + "%w", err)] *)
Definition fmt_Errorf_w (prefix : string) (err : GoError) : GoError :=
  fmt_wrapError (prefix +:+ Error_text err) err.

Inductive Fallible (A : Type) : Type :=
| Value (a : A)
| Failure (err : GoError).
Arguments Value {A} a.
Arguments Failure {A} err.

(** The statements the repository runs, as the database answers them:
    [QueryRow(...).Scan(...)] for the three single-row statements;
    [Exec] and then [RowsAffected] for the delete; [Query], the [Scan] of
    every row [rows.Next] delivers, and [rows.Err] for the listing. *)
Record DB := {
  insert_returning : string → string → Fallible User;
  select_by_id : Z → Fallible User;
  update_returning : string → string → Z → Fallible User;
  delete_by_id : Z → Fallible (Fallible Z);
  select_all : Fallible (list (Fallible User) * option GoError)
}.

Definition CreateUser (db : DB) (input : CreateUserInput) : Fallible User :=
  match insert_returning db (CreateUserInput_Email input) (CreateUserInput_Name input) with
  | Failure err => Failure (fmt_Errorf_w "failed to create user: " err)
  | Value user => Value user
  end.

Definition GetUserByID (db : DB) (id : Z) : Fallible User :=
  match select_by_id db id with
  | Failure sql_ErrNoRows => Failure (errorString ("user not found: " +:+ pretty id))
  | Failure err => Failure (fmt_Errorf_w "failed to get user: " err)
  | Value user => Value user
  end.

(** The loop of [ListUsers] over the rows. *)
Fixpoint scan_users (rows : list (Fallible User)) (users : list User)
  : Fallible (list User) :=
  match rows with
  | [] => Value users
  | Failure err :: _ => Failure (fmt_Errorf_w "failed to scan user: " err)
  | Value user :: rows' => scan_users rows' (users ++ [user])
  end.

Definition ListUsers (db : DB) : Fallible (list User) :=
  match select_all db with
  | Failure err => Failure (fmt_Errorf_w "failed to list users: " err)
  | Value (rows, rows_Err) =>
      match scan_users rows [] with
      | Failure err => Failure err
      | Value users =>
          match rows_Err with
          | Some err => Failure (fmt_Errorf_w "error iterating users: " err)
          | None => Value users
          end
      end
  end.

Definition UpdateUser (db : DB) (id : Z) (input : UpdateUserInput) : Fallible User :=
  match update_returning db (UpdateUserInput_Email input) (UpdateUserInput_Name input) id with
  | Failure sql_ErrNoRows => Failure (errorString ("user not found: " +:+ pretty id))
  | Failure err => Failure (fmt_Errorf_w "failed to update user: " err)
  | Value user => Value user
  end.

(** [DeleteUser] returns an error or nil. *)
Definition DeleteUser (db : DB) (id : Z) : option GoError :=
  match delete_by_id db id with
  | Failure err => Some (fmt_Errorf_w "failed to delete user: " err)
  | Value (Failure err) => Some (fmt_Errorf_w "failed to get rows affected: " err)
  | Value (Value rows) =>
      if rows =? 0 then Some (errorString ("user not found: " +:+ pretty id))
      else None
  end.

(** ** The lambdas

    What a lambda's process reaches besides its request: the decoders of its
    input type, [sql.Open] and [strconv.Atoi]. *)
Record LambdaEnv := {
  decode_CreateUserInput : string → GoResult CreateUserInput;
  decode_ReadUserInput : string → GoResult ReadUserInput;
  decode_UpdateUserInput : string → GoResult UpdateUserInput;
  sql_Open : Fallible DB;
  strconv_Atoi : string → GoResult Z
}.

(** [lambdas/user_create/main.go].  The type assertion of [err] to
    [*pq.Error] holds only of an error that is itself a [*pq.Error]. *)
Module UserCreate.

Definition handleRequest (env : LambdaEnv) (w : ResponseWriter) (r : HttpRequest)
  : ResponseWriter :=
  let w := Header_Set w "Access-Control-Allow-Origin" "*" in
  let w := Header_Set w "Access-Control-Allow-Methods" "POST, OPTIONS" in
  let w := Header_Set w "Access-Control-Allow-Headers" "Content-Type" in
  if String.eqb (r_Method r) "OPTIONS" then WriteHeader w StatusOK
  else if negb (String.eqb (r_Method r) "POST") then
    http_Error w "Method not allowed" StatusMethodNotAllowed
  else
    match decode_CreateUserInput env (r_Body r) with
    | Err _ => http_Error w "Invalid request body" StatusBadRequest
    | Ok input =>
        match sql_Open env with
        | Failure _ => http_Error w "Database connection error" StatusInternalServerError
        | Value dbConn =>
            match CreateUser dbConn input with
            | Failure err =>
                match err with
                | pq_Error code _ =>
                    if String.eqb code "23505" then
                      http_Error w "Email already exists" StatusConflict
                    else http_Error w "Failed to create user" StatusInternalServerError
                | _ => http_Error w "Failed to create user" StatusInternalServerError
                end
            | Value user =>
                let w := Header_Set w "Content-Type" "application/json" in
                Write w (UserPayload user)
            end
        end
    end.

End UserCreate.

(** [lambdas/user_read/main.go] *)
Module UserRead.

Definition handleRequest (env : LambdaEnv) (w : ResponseWriter) (r : HttpRequest)
  : ResponseWriter :=
  let w := Header_Set w "Access-Control-Allow-Origin" "*" in
  let w := Header_Set w "Access-Control-Allow-Methods" "GET, OPTIONS" in
  let w := Header_Set w "Access-Control-Allow-Headers" "Content-Type" in
  if String.eqb (r_Method r) "OPTIONS" then WriteHeader w StatusOK
  else if negb (String.eqb (r_Method r) "GET") then
    http_Error w "Method not allowed" StatusMethodNotAllowed
  else
    match decode_ReadUserInput env (r_Body r) with
    | Err _ => http_Error w "Invalid request body" StatusBadRequest
    | Ok input =>
        match sql_Open env with
        | Failure _ => http_Error w "Database connection error" StatusInternalServerError
        | Value dbConn =>
            match GetUserByID dbConn (ReadUserInput_ID input) with
            | Failure _ => http_Error w "Failed to get user" StatusInternalServerError
            | Value user =>
                let w := Header_Set w "Content-Type" "application/json" in
                Write w (UserPayload user)
            end
        end
    end.

End UserRead.

(** The [user_update] lambda ([unnamed/part_001]).  [r.URL.Path[1:]] panics
    on an empty path. *)
Module UserUpdate.

Definition handleRequest (env : LambdaEnv) (w : ResponseWriter) (r : HttpRequest)
  : Served :=
  let w := Header_Set w "Access-Control-Allow-Origin" "*" in
  let w := Header_Set w "Access-Control-Allow-Methods" "PUT, OPTIONS" in
  let w := Header_Set w "Access-Control-Allow-Headers" "Content-Type" in
  if String.eqb (r_Method r) "OPTIONS" then Replied (WriteHeader w StatusOK)
  else if negb (String.eqb (r_Method r) "PUT") then
    Replied (http_Error w "Method not allowed" StatusMethodNotAllowed)
  else
    match r_URL_Path r with
    | EmptyString =>
        Crashed "runtime error: slice bounds out of range [1:0]"
    | String _ idStr =>
        match strconv_Atoi env idStr with
        | Err _ => Replied (http_Error w "Invalid user ID" StatusBadRequest)
        | Ok id =>
            match decode_UpdateUserInput env (r_Body r) with
            | Err _ => Replied (http_Error w "Invalid request body" StatusBadRequest)
            | Ok input =>
                match sql_Open env with
                | Failure _ =>
                    Replied (http_Error w "Database connection error"
                               StatusInternalServerError)
                | Value dbConn =>
                    match UpdateUser dbConn id input with
                    | Failure _ =>
                        Replied (http_Error w "Failed to update user"
                                   StatusInternalServerError)
                    | Value user =>
                        let w := Header_Set w "Content-Type" "application/json" in
                        Replied (Write w (UserPayload user))
                    end
                end
            end
        end
    end.

End UserUpdate.

(** The lambdas of the repository, and the handler each one serves. *)
Inductive Lambda := user_create | user_read | user_update.

Definition lambda_handler (lambda : Lambda) (env : LambdaEnv) (w : ResponseWriter)
    (r : HttpRequest) : Served :=
  match lambda with
  | user_create => Replied (UserCreate.handleRequest env w r)
  | user_read => Replied (UserRead.handleRequest env w r)
  | user_update => UserUpdate.handleRequest env w r
  end.

(** ** A lambda at the other end of [http.Post]

    [http.Post] to an address without a path sends a POST for ["/"] with the
    body it was given; the response an executor reads back has the status
    the handler wrote (200 when it wrote none), the Content-Type it set, and
    as body what it wrote: the text of an [http.Error] as it is, a value as
    [json.Encoder.Encode] writes it, followed by a newline. *)
Definition posted (req : Request) : HttpRequest :=
  {| r_Method := "POST"; r_URL_Path := "/"; r_Body := req_body req |}.

Definition body_text (json_Marshal : Payload → string) (data : Payload) : string :=
  match data with
  | PlainText text => text
  | _ => json_Marshal data +:+ newline
  end.

Definition response_of (json_Marshal : Payload → string) (w : ResponseWriter) : Response :=
  {| resp_StatusCode := default StatusOK (w_Status w);
     resp_ContentType := default "" (w_Header w !! "Content-Type");
     resp_Body := Ok (foldr (λ data rest, body_text json_Marshal data +:+ rest) ""
                        (w_Body w)) |}.

(** What the network returns when [lambda] handles the request. *)
Definition served_by (lambda : Lambda) (env : LambdaEnv) (json_Marshal : Payload → string)
    (req : Request) : GoResult Response :=
  match lambda_handler lambda env new_writer (posted req) with
  | Replied w => Ok (response_of json_Marshal w)
  | Crashed _ => Err "EOF"
  end.

(** ** Further concrete instances *)

(** [wf_two] as a workflow file would declare it: with a description and a
    [pass_output_as] on every step, and registered under another name. *)
Definition step_create_described : Step :=
  {| Step_Name := "create_user"; Step_Lambda := "user_create";
     Step_InputTemplate := payload_create; Step_PassOutputAs := "user";
     Step_ErrorHandler := "" |}.

Definition step_verify_described : Step :=
  {| Step_Name := "verify_user"; Step_Lambda := "user_read";
     Step_InputTemplate := payload_id; Step_PassOutputAs := "verified_user";
     Step_ErrorHandler := "" |}.

Definition wf_two_described : Workflow :=
  {| Workflow_Name := "user_signup_chain";
     Workflow_Description := "Creates a user, then verifies it exists";
     Workflow_Steps := [step_create_described; step_verify_described] |}.

Definition signup_executor : ChainExecutor :=
  {| workflows := {[ "signup" := wf_two_described ]}; ports := default_ports |}.

(** The response [answer_failure] carries. *)
Definition response_failure : Response :=
  {| resp_StatusCode := 500; resp_ContentType := "text/plain; charset=utf-8";
     resp_Body := Ok "Failed to create user" |}.

(** A host with two workflow files, one of which does not parse. *)
Definition demo_host : Host :=
  {| os_ReadFile := λ path,
       if String.eqb path "workflows/two.yaml" then Ok "name: two"
       else if String.eqb path "workflows/broken.yaml" then Ok "steps: 7"
       else Err "open: no such file or directory";
     yaml_Unmarshal := λ file,
       if String.eqb file "name: two" then Ok wf_two
       else Err "yaml: unmarshal errors";
     filepath_Glob := λ _, Ok ["workflows/two.yaml"; "workflows/broken.yaml"] |}.

Definition loaded_executor : ChainExecutor :=
  {| workflows := {[ "two" := wf_two ]}; ports := default_ports |}.

(** One order in which a [range] may visit the registry of [demo_executor]. *)
Definition demo_visit : list (string * Workflow) :=
  reverse (map_to_list (workflows demo_executor)).

(** An error of [database/sql] or of the driver itself, as a caller can
    recognise it by identity or by type. *)
Definition driver_error (err : GoError) : bool :=
  match err with
  | sql_ErrNoRows | pq_Error _ _ => true
  | fmt_wrapError _ _ | errorString _ => false
  end.

(** ** A concrete deployment *)

Definition demo_user : User :=
  {| User_ID := 7; User_Email := "a@b.com"; User_Name := "Ann";
     User_CreatedAt := 0; User_UpdatedAt := 0 |}.

(** A database with the one user [demo_user], in which the email
    [taken@b.com] violates the unique constraint. *)
Definition demo_db : DB :=
  {| insert_returning := λ email _,
       if String.eqb email "taken@b.com"
       then Failure (pq_Error "23505" "duplicate key value violates unique constraint")
       else Value demo_user;
     select_by_id := λ id, if id =? 7 then Value demo_user else Failure sql_ErrNoRows;
     update_returning := λ _ _ id,
       if id =? 7 then Value demo_user else Failure sql_ErrNoRows;
     delete_by_id := λ id, Value (Value (if id =? 7 then 1 else 0));
     select_all := Value ([Value demo_user], None) |}.

Definition payload_taken : string :=
  "{" +:+ jstr "email" +:+ ": " +:+ jstr "taken@b.com" +:+ "}".

Definition demo_env : LambdaEnv :=
  {| decode_CreateUserInput := λ body,
       if String.eqb body payload_create
       then Ok {| CreateUserInput_Email := "a@b.com"; CreateUserInput_Name := "" |}
       else if String.eqb body payload_taken
       then Ok {| CreateUserInput_Email := "taken@b.com"; CreateUserInput_Name := "" |}
       else Err "json: cannot unmarshal";
     decode_ReadUserInput := λ _, Ok {| ReadUserInput_ID := 7 |};
     decode_UpdateUserInput := λ _, Err "EOF";
     sql_Open := Value demo_db;
     strconv_Atoi := λ _, Err "invalid syntax" |}.

Definition demo_marshal (data : Payload) : string :=
  match data with
  | UserPayload _ => "{" +:+ jstr "user" +:+ ": {" +:+ jstr "id" +:+ ": 7}}"
  | _ => "{}"
  end.

(** The lambdas as [local_deploy.sh] starts them: [user_create] on port
    8080, [user_read] on 8081, [user_update] on 8082; nothing listens
    elsewhere. *)
Definition local_deploy (env : LambdaEnv) (json_Marshal : Payload → string)
  : list Request → Request → GoResult Response :=
  λ _ req,
    if String.eqb (req_url req) "http://localhost:8080"
    then served_by user_create env json_Marshal req
    else if String.eqb (req_url req) "http://localhost:8081"
    then served_by user_read env json_Marshal req
    else if String.eqb (req_url req) "http://localhost:8082"
    then served_by user_update env json_Marshal req
    else Err "connection refused".

(** A body with neither a [data] nor an [error] member decodes to the zero
    [StepResult]. *)
Definition rt_local : Runtime :=
  {| template_actions := λ _ _, ExecError "can't evaluate field";
     json_Unmarshal := λ body,
       if String.eqb body (demo_marshal (UserPayload demo_user) +:+ newline)
       then Ok {| StepResult_Data := None; StepResult_Error := None |}
       else Err "invalid character";
     http_respond := local_deploy demo_env demo_marshal |}.

Definition request_verify : Request :=
  {| req_url := "http://localhost:8081"; req_contentType := "application/json";
     req_body := payload_id |}.

(** A step that sends [user_create] a body it does not decode. *)
Definition step_create_bad : Step := mk_step "create_user" "user_create" payload_id "".

Definition request_create_bad : Request :=
  {| req_url := "http://localhost:8080"; req_contentType := "application/json";
     req_body := payload_id |}.

Definition response_bad_request : Response :=
  {| resp_StatusCode := 400; resp_ContentType := "text/plain; charset=utf-8";
     resp_Body := Ok ("Invalid request body" +:+ newline) |}.

Definition demo_server : Server := {| executor := demo_executor |}.

(** A decoder of request bodies that takes every body for the empty
    object. *)
Definition decode_any (body : string) : GoResult JSONMap := Ok (Some ∅).

Definition post (path body : string) : HttpRequest :=
  {| r_Method := "POST"; r_URL_Path := path; r_Body := body |}.

(** ** Workflows in which an error handler fails in its turn *)

(** A step of [cleanup_user] that declares an error handler of its own. *)
Definition step_cleanup_guarded : Step :=
  mk_step "cleanup_user" "user_delete" payload_id "verify_user".

(** Three steps; the first declares an error handler, the second does
    not. *)
Definition wf_three : Workflow :=
  mk_workflow "three" [step_create_guarded; step_cleanup; step_verify].

(** Three steps; the first and the second declare an error handler. *)
Definition wf_nested : Workflow :=
  mk_workflow "nested" [step_create_guarded; step_cleanup_guarded; step_verify].

Definition handlers_executor : ChainExecutor :=
  {| workflows := list_to_map [("three", wf_three); ("nested", wf_nested)];
     ports := default_ports |}.

(** The first two handlers answer with a failure. *)
Definition rt_two_failures : Runtime := demo_rt [answer_failure; answer_failure].

Definition run_three : Run :=
  ExecuteChain SrcPart002 rt_two_failures handlers_executor "three" demo_input [].

Definition run_nested : Run :=
  ExecuteChain SrcPart002 rt_two_failures handlers_executor "nested" demo_input [].

(** What [unnamed/part_002] makes of [answer_failure] for [cleanup_user]. *)
Definition cleanup_error : WorkflowError :=
  {| WorkflowError_Step := "cleanup_user";
     WorkflowError_Message :=
       "lambda returned unexpected Content-Type: text/plain; charset=utf-8, body: Failed to create user";
     WorkflowError_Code := "INVALID_RESPONSE_TYPE" |}.

Definition cleanup_result : StepResult :=
  {| StepResult_Data := None; StepResult_Error := Some cleanup_error |}.

(** The request [unnamed/part_002] sends for [cleanup_user]. *)
Definition request_cleanup : Request :=
  {| req_url := "http://localhost:8083"; req_contentType := "application/json";
     req_body := payload_id |}.

(** The state in which the error handler of [create_user] is called. *)
Definition state_create_failed : WorkflowState :=
  record_output (initial_state step_create_guarded demo_input) step_create_guarded
    failure_result.

(** A response of type [text/plain] whose body cannot be read. *)
Definition rt_unread : Runtime :=
  demo_rt [Ok {| resp_StatusCode := 200; resp_ContentType := "text/plain; charset=utf-8";
                 resp_Body := Err "unexpected EOF" |}].

(** * Properties *)

(** ** What [ExecuteStep] sends *)

Ltac unfold_step :=
  unfold ExecuteStep, Orchestrator.ExecuteStep, Part002.ExecuteStep,
    step_request, lambdaURL, http_Post in *.

Section ExecuteStepFacts.
Context (src : Source) (rt : Runtime) (e : ChainExecutor).

Lemma ExecuteStep_no_request step state log :
  step_request src rt e step state = None →
  ∃ err, ExecuteStep src rt e step state log = (Err err, log).
Proof.
  destruct src; unfold_step; intros H; repeat case_match; simplify_eq; eauto.
Qed.

Lemma ExecuteStep_request step state log req :
  step_request src rt e step state = Some req →
  snd (ExecuteStep src rt e step state log) = log ++ [req].
Proof.
  destruct src; unfold_step; intros H; repeat case_match; simplify_eq; done.
Qed.

Lemma ExecuteStep_Ok step state log result log' :
  ExecuteStep src rt e step state log = (Ok result, log') →
  ∃ req, step_request src rt e step state = Some req ∧ log' = log ++ [req].
Proof.
  destruct src; unfold_step; intros H; repeat case_match; simplify_eq; eauto.
Qed.

Lemma ExecuteStep_transport step state log req err :
  step_request src rt e step state = Some req →
  http_respond rt log req = Err err →
  ExecuteStep src rt e step state log
  = (Err ("failed to call lambda: " +:+ err), log ++ [req]).
Proof.
  destruct src; unfold_step; intros H Hn; repeat case_match; simplify_eq; congruence.
Qed.
End ExecuteStepFacts.

Lemma drop_cons_inv {A} (l : list A) i x r :
  drop i l = x :: r → l !! i = Some x ∧ drop (S i) l = r.
Proof.
  intros H.
  assert (Hx : l !! i = Some x).
  { rewrite <- (Nat.add_0_r i), <- lookup_drop, H. done. }
  split; [done|]. rewrite (drop_S _ _ _ Hx) in H. congruence.
Qed.

Section ChainFacts.
Context (src : Source) (rt : Runtime) (e : ChainExecutor) (wf : Workflow).

Local Abbreviation steps := (Workflow_Steps wf).
Local Abbreviation body := (chain_body src rt e wf).
Local Abbreviation loop := (chain_loop src rt e wf).
Local Abbreviation exec := (ExecuteStep src rt e).

Local Abbreviation main_call := (main_call src rt e).
Local Abbreviation handler_call := (handler_call src rt e).

Lemma chain_body_fatal i step state calls log err log1 :
  exec step state log = (Err err, log1) →
  body i step state calls log
  = LoopExit {| run_outcome :=
                  Returned (Err ("step " +:+ Step_Name step +:+ " failed: " +:+ err));
                run_state := state;
                run_calls := calls ++ [main_call step state log];
                run_log := log1 |}.
Proof. intros H. unfold chain_body, main_call. rewrite H. done. Qed.

Lemma chain_body_error_no_handler i step state calls log result err log1 :
  exec step state log = (Ok result, log1) →
  StepResult_Error result = Some err →
  Step_ErrorHandler step = "" →
  body i step state calls log
  = LoopExit {| run_outcome := Returned (Ok (error_output err));
                run_state := record_output state step result;
                run_calls := calls ++ [main_call step state log];
                run_log := log1 |}.
Proof.
  intros H He Hh. unfold chain_body, main_call. rewrite H, He, Hh. done.
Qed.

Lemma chain_body_handler_missing i step state calls log result err log1 :
  exec step state log = (Ok result, log1) →
  StepResult_Error result = Some err →
  Step_ErrorHandler step ≠ "" →
  steps !! S i = None →
  body i step state calls log
  = LoopExit {| run_outcome := Panicked (index_panic (i + 1) (length steps));
                run_state := record_output state step result;
                run_calls := calls ++ [main_call step state log];
                run_log := log1 |}.
Proof.
  intros H He Hh Hn. unfold chain_body, main_call. rewrite H, He.
  rewrite Nat.add_1_r, Hn.
  destruct (String.eqb_spec (Step_ErrorHandler step) ""); [done|]. done.
Qed.

Lemma chain_body_handler i step state calls log result err log1 errorStep :
  exec step state log = (Ok result, log1) →
  StepResult_Error result = Some err →
  Step_ErrorHandler step ≠ "" →
  steps !! S i = Some errorStep →
  let state1 := record_output state step result in
  let c2 := handler_call errorStep state1 log1 in
  body i step state calls log
  = LoopExit
      {| run_outcome :=
           match call_result c2 with
           | Err err2 =>
               Returned (Err ("error handler " +:+ Step_Name errorStep
                                +:+ " failed: " +:+ err2))
           | Ok _ => Returned (Ok (error_output err))
           end;
         run_state :=
           match call_result c2 with
           | Err _ => state1
           | Ok errorResult =>
               steps_assign state1 (Step_Name errorStep)
                 {| StepState_Input := recorded_input state step;
                    StepState_Output := output_of_result errorResult |}
           end;
         run_calls := (calls ++ [main_call step state log]) ++ [c2];
         run_log := snd (exec errorStep state1 log1) |}.
Proof.
  intros H He Hh Hn. simpl. unfold chain_body, main_call, handler_call. rewrite H, He.
  rewrite Nat.add_1_r, Hn.
  destruct (String.eqb_spec (Step_ErrorHandler step) ""); [done|]. simpl.
  unfold record_output, recorded_input.
  destruct (exec errorStep _ log1) as [[r2|err2] log2]; done.
Qed.

Lemma chain_body_success i step state calls log result log1 :
  exec step state log = (Ok result, log1) →
  StepResult_Error result = None →
  body i step state calls log
  = LoopDone
      (match steps !! S i with
       | Some nextStep =>
           seed_next (record_output state step result) nextStep (StepResult_Data result)
             (WorkflowInput_Context (recorded_input state step))
       | None => record_output state step result
       end)
      (calls ++ [main_call step state log]) log1.
Proof.
  intros H He. unfold chain_body, main_call. rewrite H, He.
  rewrite Nat.add_1_r.
  destruct (Z.ltb_spec (Z.of_nat i) (Z.of_nat (length steps) - 1)) as [Hlt|Hge].
  - destruct (lookup_lt_is_Some_2 steps (S i)) as [next Hnext]; [lia|].
    rewrite Hnext. done.
  - rewrite (lookup_ge_None_2 steps (S i)); [done|lia].
Qed.

(** Case analysis on one run of the loop body. *)
Ltac body_cases i step state calls log :=
  let HE := fresh "HE" in
  let He := fresh "He" in
  let Hh := fresh "Hh" in
  let Hn := fresh "Hn" in
  destruct (exec step state log) as [[?result| ?err] ?log1] eqn:HE;
  [ destruct (StepResult_Error result) as [?we|] eqn:He;
    [ destruct (decide (Step_ErrorHandler step = "")) as [Hh|Hh];
      [ rewrite (chain_body_error_no_handler i step state calls log _ _ _ HE He Hh) in *
      | destruct (steps !! S i) as [?errorStep|] eqn:Hn;
        [ rewrite (chain_body_handler i step state calls log _ _ _ _ HE He Hh Hn) in *
        | rewrite (chain_body_handler_missing i step state calls log _ _ _ HE He Hh Hn)
            in * ] ]
    | rewrite (chain_body_success i step state calls log _ _ HE He) in * ]
  | rewrite (chain_body_fatal i step state calls log _ _ HE) in * ].

Lemma chain_body_prefix i step state calls log :
  calls `prefix_of` flow_calls (body i step state calls log).
Proof.
  body_cases i step state calls log; simpl;
    rewrite <- ?(assoc_L (++)); apply prefix_app_r; done.
Qed.

Lemma chain_loop_prefix rest : ∀ i state calls log,
  calls `prefix_of` flow_calls (loop i rest state calls log).
Proof.
  induction rest as [|step rest IH]; intros i state calls log; simpl; [done|].
  pose proof (chain_body_prefix i step state calls log) as Hb.
  destruct (body i step state calls log) as [state' calls' log'|r]; simpl in *; [|done].
  etrans; [apply Hb|apply IH].
Qed.

Local Abbreviation inv := (chain_inv src rt e wf).

Lemma recorded_input_seed_next state nextStep data c :
  recorded_input (seed_next state nextStep data c) nextStep
  = {| WorkflowInput_Data := data; WorkflowInput_Context := c |}.
Proof.
  unfold recorded_input, steps_index, seed_next, steps_assign. simpl.
  rewrite lookup_insert_eq. done.
Qed.

Lemma chain_inv_step ctx log0 i step rest state calls log state' calls' log' :
  inv ctx log0 i (step :: rest) state calls log →
  body i step state calls log = LoopDone state' calls' log' →
  inv ctx log0 (S i) rest state' calls' log'.
Proof.
  intros (Hdrop & Hlen & Hmap & Hall & (reqs & Hlog & Hreqs) & Hctx) Hbody.
  apply drop_cons_inv in Hdrop as [Hi Hdrop].
  body_cases i step state calls log; try discriminate.
  injection Hbody as <- <- <-.
  destruct (ExecuteStep_Ok _ _ _ _ _ _ _ _ HE) as (req & Hreq & ->).
  assert (Hres : call_result (main_call step state log) = Ok result).
  { unfold main_call. simpl. rewrite HE. done. }
  repeat split.
  - done.
  - rewrite length_app. simpl. lia.
  - rewrite map_app, Hmap. simpl. rewrite (take_S_r _ _ _ Hi). done.
  - apply Forall_app. split; [done|]. constructor; [|done].
    split; [done|]. exists result. done.
  - exists (reqs ++ [req]). split; [rewrite Hlog, (assoc_L (++)); done|].
    apply Forall2_app; [done|]. constructor; [done|constructor].
  - intros next Hnext.
    assert (Hn : steps !! S i = Some next).
    { rewrite <- (Nat.add_0_r (S i)), <- lookup_drop, Hdrop. by destruct rest; simplify_eq/=. }
    rewrite Hn, recorded_input_seed_next. simpl. apply Hctx. done.
Qed.

(** Every call of a run was made by one run of the loop body, started from a
    configuration that satisfies the invariant. *)
Lemma chain_loop_call ctx log0 rest : ∀ i state calls log k c,
  inv ctx log0 i rest state calls log →
  flow_calls (loop i rest state calls log) !! k = Some c →
  (i ≤ k)%nat →
  ∃ j step rest' state_j calls_j log_j,
    inv ctx log0 j (step :: rest') state_j calls_j log_j ∧ (j ≤ k)%nat ∧
    flow_calls (body j step state_j calls_j log_j) !! k = Some c ∧
    loop i rest state calls log
    = match body j step state_j calls_j log_j with
      | LoopDone s cs l => loop (S j) rest' s cs l
      | LoopExit r => LoopExit r
      end.
Proof.
  induction rest as [|step rest IH]; intros i state calls log k c Hinv Hk Hle.
  - simpl in Hk. apply lookup_lt_Some in Hk.
    destruct Hinv as (_ & Hlen & _). lia.
  - simpl in Hk |- *.
    destruct (body i step state calls log) as [state' calls' log'|r] eqn:Hbody.
    + pose proof (chain_inv_step _ _ _ _ _ _ _ _ _ _ _ Hinv Hbody) as Hinv'.
      destruct (decide (k < length calls')%nat) as [Hlt|Hge].
      * exists i, step, rest, state, calls, log. rewrite Hbody. simpl.
        split; [done|]. split; [done|]. split; [|done]. simpl.
        rewrite (prefix_lookup_lt _ _ _ Hlt (chain_loop_prefix rest (S i) state' calls' log')).
        done.
      * destruct Hinv' as (? & Hlen' & ?).
        destruct (IH (S i) state' calls' log' k c) as (j & s & r' & sj & cj & lj & H1 & H2 & H3 & H4);
          [done|done|lia|].
        exists j, s, r', sj, cj, lj. done.
    + exists i, step, rest, state, calls, log. rewrite Hbody. done.
Qed.

Lemma chain_body_call j step state calls log k c :
  length calls = j → (j ≤ k)%nat →
  flow_calls (body j step state calls log) !! k = Some c →
  (k = j ∧ c = main_call step state log) ∨
  (k = S j ∧ ∃ result err log1 errorStep,
      exec step state log = (Ok result, log1) ∧
      StepResult_Error result = Some err ∧
      Step_ErrorHandler step ≠ "" ∧
      steps !! S j = Some errorStep ∧
      c = handler_call errorStep (record_output state step result) log1).
Proof.
  intros Hlen Hle Hk.
  assert (Hone : ∀ c1, (calls ++ [c1]) !! k = Some c → k = j ∧ c = c1).
  { intros c1 H. rewrite lookup_app_r in H by lia.
    destruct (k - length calls)%nat as [|n] eqn:Hd; simplify_eq/=.
    split; [lia|done]. }
  body_cases j step state calls log; simpl in Hk; try (left; by apply Hone).
  destruct (decide (k = j)) as [->|Hne].
  - left. rewrite lookup_app_l in Hk by (rewrite length_app; simpl; lia).
    by apply Hone.
  - right. rewrite lookup_app_r in Hk by (rewrite length_app; simpl; lia).
    rewrite length_app in Hk. simpl in Hk.
    destruct (k - (length calls + 1))%nat as [|n] eqn:Hd; simplify_eq/=.
    split; [lia|]. eauto 10.
Qed.

Lemma chain_inv_init first input log :
  steps !! 0%nat = Some first →
  chain_inv src rt e wf (WorkflowInput_Context input) log
    0 steps (initial_state first input) [] log.
Proof.
  intros Hf. repeat split; try done.
  - exists []. rewrite (right_id_L [] (++)). split; [done|constructor].
  - intros step Hs. destruct steps as [|s ss]; simplify_eq/=.
    unfold recorded_input, steps_index, initial_state, steps_assign. simpl.
    rewrite lookup_insert_eq. done.
Qed.

Lemma ExecuteChain_finish name first input log :
  workflows e !! name = Some wf →
  steps !! 0%nat = Some first →
  ExecuteChain src rt e name input log
  = finish_chain wf (loop 0 steps (initial_state first input) [] log).
Proof.
  intros Hwf Hf. unfold ExecuteChain, finish_chain. rewrite Hwf, Hf.
  fold (initial_state first input).
  destruct (loop 0 steps (initial_state first input) [] log); [|done].
  unfold recorded_input. done.
Qed.

Lemma ExecuteChain_calls_nonempty name input log k c :
  workflows e !! name = Some wf →
  run_calls (ExecuteChain src rt e name input log) !! k = Some c →
  ∃ first, steps !! 0%nat = Some first.
Proof.
  intros Hwf Hk. unfold ExecuteChain in Hk. rewrite Hwf in Hk.
  destruct (steps !! 0%nat) eqn:Hf; [eauto|]. simpl in Hk. done.
Qed.

Lemma finish_chain_calls f : run_calls (finish_chain wf f) = flow_calls f.
Proof. destruct f; simpl; [|done]. by case_match. Qed.

(** Every call in the history of a run comes from one run of the loop
    body, and the run ends as that body and the rest of the loop decide. *)
Lemma run_call name input log k c :
  workflows e !! name = Some wf →
  run_calls (ExecuteChain src rt e name input log) !! k = Some c →
  ∃ j step rest' state_j calls_j log_j,
    chain_inv src rt e wf (WorkflowInput_Context input) log
      j (step :: rest') state_j calls_j log_j ∧
    ExecuteChain src rt e name input log
    = finish_chain wf
        match body j step state_j calls_j log_j with
        | LoopDone s cs l => loop (S j) rest' s cs l
        | LoopExit r => LoopExit r
        end ∧
    ((k = j ∧ c = main_call step state_j log_j) ∨
     (k = S j ∧ ∃ result err log1 errorStep,
         exec step state_j log_j = (Ok result, log1) ∧
         StepResult_Error result = Some err ∧
         Step_ErrorHandler step ≠ "" ∧
         steps !! S j = Some errorStep ∧
         c = handler_call errorStep (record_output state_j step result) log1)).
Proof.
  intros Hwf Hk.
  destruct (ExecuteChain_calls_nonempty _ _ _ _ _ Hwf Hk) as [first Hf].
  rewrite (ExecuteChain_finish _ _ _ _ Hwf Hf) in Hk |- *.
  rewrite finish_chain_calls in Hk.
  destruct (chain_loop_call (WorkflowInput_Context input) log _ _ _ _ _ k c
              (chain_inv_init first input log Hf) Hk)
    as (j & step & rest' & sj & cj & lj & Hinv & Hle & Hb & Heq); [lia|].
  exists j, step, rest', sj, cj, lj. split; [done|]. split; [by rewrite Heq|].
  destruct Hinv as (_ & Hlen & _).
  apply (chain_body_call j step sj cj lj k c Hlen Hle Hb).
Qed.

Lemma chain_inv_requests ctx' log' i rest state calls log1 :
  chain_inv src rt e wf ctx' log' i rest state calls log1 →
  ∃ reqs, log1 = log' ++ reqs ∧ length reqs = i.
Proof.
  intros (_ & Hlen & _ & _ & (reqs & Hlog & Hreqs) & _).
  exists reqs. split; [done|]. apply Forall2_length in Hreqs. lia.
Qed.

(** C3 (as amended).  When the call for the step at index [k] (the
    [k+1]-th step) returns a result that carries an error and the step
    declares no error handler, the chain stops there: [k+1] calls and [k+1]
    requests were made, none for a later step.  When the loop called the
    step as a main step the output carries that error; when the step was
    called as the error handler of the step before, the output carries the
    error of the step before. *)
Theorem C3_error_without_handler name input log run k c result err :
  workflows e !! name = Some wf →
  ExecuteChain src rt e name input log = run →
  run_calls run !! k = Some c →
  call_result c = Ok result →
  StepResult_Error result = Some err →
  Step_ErrorHandler (call_step c) = "" →
  steps !! k = Some (call_step c) ∧
  length (run_calls run) = S k ∧
  (∃ reqs, run_log run = log ++ reqs ∧ length reqs = S k) ∧
  match call_role c with
  | MainStep => run_outcome run = Returned (Ok (error_output err))
  | ErrorHandlerStep =>
      ∃ j failing result' err',
        k = S j ∧
        run_calls run !! j = Some failing ∧
        call_role failing = MainStep ∧
        call_result failing = Ok result' ∧
        StepResult_Error result' = Some err' ∧
        Step_ErrorHandler (call_step failing) ≠ "" ∧
        run_outcome run = Returned (Ok (error_output err'))
  end.
Proof.
  intros Hwf <- Hk Hres Herr Hh.
  destruct (run_call _ _ _ _ _ Hwf Hk)
    as (j & step & rest' & sj & cj & lj & Hinv & -> &
        [[-> ->]|(-> & result' & err' & log1 & errorStep & HE & Herr' & Hh' & Hnext & ->)]).
  - simpl in *.
    destruct (exec step sj lj) as [r log1] eqn:HE. simpl in Hres. subst r.
    rewrite (chain_body_error_no_handler _ _ _ _ _ _ _ _ HE Herr Hh). simpl.
    destruct (ExecuteStep_Ok _ _ _ _ _ _ _ _ HE) as (req & Hreq & ->).
    destruct (chain_inv_requests _ _ _ _ _ _ _ Hinv) as (reqs & -> & Hlen).
    destruct Hinv as (Hdrop & Hlenc & _).
    apply drop_cons_inv in Hdrop as [Hi _].
    repeat split; try done.
    + rewrite length_app. simpl. lia.
    + exists (reqs ++ [req]). rewrite (assoc_L (++)), length_app. simpl. split; [done|lia].
  - rewrite (chain_body_handler _ _ _ _ _ _ _ _ _ HE Herr' Hh' Hnext).
    simpl in Hres |- *.
    destruct (ExecuteStep_Ok _ _ _ _ _ _ _ _ HE) as (req & Hreq & ->).
    destruct (chain_inv_requests _ _ _ _ _ _ _ Hinv) as (reqs & -> & Hlen).
    destruct Hinv as (_ & Hlenc & _).
    set (state1 := record_output sj step result') in *.
    destruct (exec errorStep state1 ((log ++ reqs) ++ [req])) as [r2 log2] eqn:HE2.
    simpl in Hres. subst r2.
    destruct (ExecuteStep_Ok _ _ _ _ _ _ _ _ HE2) as (req2 & Hreq2 & ->).
    unfold handler_call. rewrite HE2. simpl.
    split; [done|]. split; [rewrite !length_app; simpl; lia|].
    split.
    { exists (reqs ++ [req; req2]). split.
      - rewrite <- !(assoc_L (++)). done.
      - rewrite length_app. simpl. lia. }
    exists j, (main_call step sj (log ++ reqs)), result', err'.
    split; [done|]. split.
    { rewrite <- (assoc_L (++)). rewrite lookup_app_r by lia.
      replace (j - length cj)%nat with 0%nat by lia. done. }
    unfold main_call. simpl. rewrite HE. done.
Qed.

(** C2 (as amended).  When the loop calls the step at index [k] (the
    [k+1]-th step) as a main step, the call returns a result that carries an
    error, and the step declares an error handler and is not the last step,
    then exactly one more call is made: for the next positional step,
    against the state in which the failing step's output is recorded.  When
    that call returns a result, it is recorded under the handler step's own
    name with the failing step's input, [k+2] requests were sent in all, and
    the output carries only the original error.  When that call returns a Go
    error, the run returns it, wrapped, in place of an output. *)
Theorem C2_error_with_handler name input log run k c result err errorStep :
  workflows e !! name = Some wf →
  ExecuteChain src rt e name input log = run →
  run_calls run !! k = Some c →
  call_role c = MainStep →
  call_result c = Ok result →
  StepResult_Error result = Some err →
  Step_ErrorHandler (call_step c) ≠ "" →
  steps !! S k = Some errorStep →
  ∃ c',
    run_calls run !! S k = Some c' ∧
    length (run_calls run) = S (S k) ∧
    call_role c' = ErrorHandlerStep ∧
    call_step c' = errorStep ∧
    call_state c' = record_output (call_state c) (call_step c) result ∧
    match call_result c' with
    | Ok errorResult =>
        WorkflowState_Steps (run_state run) !! Step_Name errorStep
        = Some {| StepState_Input := recorded_input (call_state c) (call_step c);
                  StepState_Output := output_of_result errorResult |} ∧
        (∃ reqs, run_log run = log ++ reqs ∧ length reqs = S (S k)) ∧
        run_outcome run = Returned (Ok (error_output err))
    | Err err2 =>
        run_outcome run
        = Returned (Err ("error handler " +:+ Step_Name errorStep
                           +:+ " failed: " +:+ err2))
    end.
Proof.
  intros Hwf <- Hk Hrole Hres Herr Hh Hnext.
  destruct (run_call _ _ _ _ _ Hwf Hk)
    as (j & step & rest' & sj & cj & lj & Hinv & Hrun & [[-> ->]|(_ & ? & ? & ? & ? & _ & _ & _ & _ & ->)]);
    [|done].
  rewrite Hrun. clear Hrun. simpl in *.
  destruct (exec step sj lj) as [r log1] eqn:HE. simpl in Hres. subst r.
  rewrite (chain_body_handler _ _ _ _ _ _ _ _ _ HE Herr Hh Hnext).
  simpl in *.
  destruct (ExecuteStep_Ok _ _ _ _ _ _ _ _ HE) as (req & Hreq & ->).
  destruct (chain_inv_requests _ _ _ _ _ _ _ Hinv) as (reqs & -> & Hlen).
  destruct Hinv as (_ & Hlenc & _).
  set (state1 := record_output sj step result) in *.
  exists (handler_call errorStep state1 ((log ++ reqs) ++ [req])).
  split.
  { rewrite lookup_app_r by (rewrite length_app; simpl; lia).
    rewrite length_app. simpl.
    replace (S j - (length cj + 1))%nat with 0%nat by lia. done. }
  split; [rewrite !length_app; simpl; lia|].
  split; [done|]. split; [done|]. split; [done|].
  unfold handler_call. simpl.
  destruct (exec errorStep state1 ((log ++ reqs) ++ [req])) as [[r2|e2] log2] eqn:HE2;
    simpl; [|done].
  destruct (ExecuteStep_Ok _ _ _ _ _ _ _ _ HE2) as (req2 & Hreq2 & ->).
  split; [by rewrite lookup_insert_eq|]. split; [|done].
  exists (reqs ++ [req; req2]). split.
  - rewrite <- !(assoc_L (++)). done.
  - rewrite length_app. simpl. lia.
Qed.

(** C5.  When the POST of any call of a run fails in transport,
    [ExecuteStep] returns a Go error, that call is the last one of the
    run, its request is the last one sent, and [ExecuteChain] returns the
    error, wrapped, in place of an output. *)
Theorem C5_transport_failure name input log run k c req err :
  workflows e !! name = Some wf →
  ExecuteChain src rt e name input log = run →
  run_calls run !! k = Some c →
  step_request src rt e (call_step c) (call_state c) = Some req →
  http_respond rt (call_log c) req = Err err →
  exec (call_step c) (call_state c) (call_log c)
  = (Err ("failed to call lambda: " +:+ err), call_log c ++ [req]) ∧
  call_result c = Err ("failed to call lambda: " +:+ err) ∧
  length (run_calls run) = S k ∧
  run_log run = call_log c ++ [req] ∧
  run_outcome run
  = Returned (Err (match call_role c with
                   | MainStep => "step "
                   | ErrorHandlerStep => "error handler "
                   end +:+ Step_Name (call_step c) +:+ " failed: "
                     +:+ "failed to call lambda: " +:+ err)).
Proof.
  intros Hwf <- Hk Hreq Hnet.
  pose proof (ExecuteStep_transport _ _ _ _ _ _ _ _ Hreq Hnet) as HE.
  split; [done|].
  destruct (run_call _ _ _ _ _ Hwf Hk)
    as (j & step & rest' & sj & cj & lj & Hinv & -> &
        [[-> ->]|(-> & result & we & log1 & errorStep & HE1 & Herr & Hh & Hnext & ->)]);
    destruct Hinv as (_ & Hlenc & _); simpl in *.
  - rewrite (chain_body_fatal _ _ _ _ _ _ _ HE). simpl. rewrite HE. simpl.
    rewrite length_app. simpl. repeat split; try done. lia.
  - rewrite (chain_body_handler _ _ _ _ _ _ _ _ _ HE1 Herr Hh Hnext). simpl.
    rewrite HE. simpl. rewrite !length_app. simpl. repeat split; try done. lia.
Qed.

Lemma chain_loop_first_call i step rest state calls log :
  length calls = i →
  flow_calls (loop i (step :: rest) state calls log) !! i
  = Some (main_call step state log).
Proof.
  intros Hlen.
  assert (Hb : flow_calls (body i step state calls log) !! i
               = Some (main_call step state log)).
  { body_cases i step state calls log; simpl; rewrite <- ?(assoc_L (++));
      rewrite lookup_app_r by lia;
      replace (i - length calls)%nat with 0%nat by lia; done. }
  simpl. destruct (body i step state calls log) as [s' c' l'|r] eqn:Hbody; [|done].
  simpl in Hb.
  rewrite <- (prefix_lookup_lt _ _ _ (lookup_lt_Some _ _ _ Hb)
                (chain_loop_prefix rest (S i) s' c' l')).
  done.
Qed.

(** C6.  When the step at index [k] runs as a main step, succeeds and is
    not the last step, the next call is the main call of step [k+1], and
    the input recorded for it has the result data of step [k] and the
    context recorded for step [k]; that context is the one the run was
    started with. *)
Theorem C6_context_propagation name input log run k c result :
  workflows e !! name = Some wf →
  ExecuteChain src rt e name input log = run →
  run_calls run !! k = Some c →
  call_role c = MainStep →
  call_result c = Ok result →
  StepResult_Error result = None →
  (S k < length steps)%nat →
  WorkflowInput_Context (recorded_input (call_state c) (call_step c))
  = WorkflowInput_Context input ∧
  ∃ c', run_calls run !! S k = Some c' ∧
        call_role c' = MainStep ∧
        steps !! S k = Some (call_step c') ∧
        recorded_input (call_state c') (call_step c')
        = {| WorkflowInput_Data := StepResult_Data result;
             WorkflowInput_Context :=
               WorkflowInput_Context (recorded_input (call_state c) (call_step c)) |}.
Proof.
  intros Hwf <- Hk Hrole Hres Herr Hlt.
  destruct (run_call _ _ _ _ _ Hwf Hk)
    as (j & step & rest' & sj & cj & lj & Hinv & -> & [[-> ->]|(_ & ? & ? & ? & ? & _ & _ & _ & _ & ->)]);
    [|done].
  simpl in *.
  destruct (exec step sj lj) as [r log1] eqn:HE. simpl in Hres. subst r.
  pose proof Hinv as (Hdrop & Hlenc & _ & _ & _ & Hctx).
  split; [by apply Hctx|].
  apply drop_cons_inv in Hdrop as [Hj Hdrop].
  destruct (lookup_lt_is_Some_2 steps (S j) Hlt) as [next Hnext].
  assert (Hrest : ∃ rest'', rest' = next :: rest'').
  { rewrite (drop_S _ _ _ Hnext) in Hdrop. eauto. }
  destruct Hrest as [rest'' ->].
  rewrite (chain_body_success _ _ _ _ _ _ _ HE Herr), Hnext.
  rewrite finish_chain_calls.
  rewrite chain_loop_first_call by (rewrite length_app; simpl; lia).
  eexists. split; [done|]. simpl. split; [done|]. split; [done|].
  apply recorded_input_seed_next.
Qed.

Lemma main_call_succeeded step state log result log1 :
  exec step state log = (Ok result, log1) →
  StepResult_Error result = None →
  succeeded (main_call step state log).
Proof. intros HE He. exists result. unfold main_call. simpl. rewrite HE. done. Qed.

Lemma main_call_failed step state log r log1 :
  exec step state log = (r, log1) →
  match r with Ok result => StepResult_Error result ≠ None | Err _ => True end →
  ¬ succeeded (main_call step state log).
Proof.
  intros HE Hr (result & Hres & Hnone). unfold main_call in Hres. simpl in Hres.
  rewrite HE in Hres. simpl in Hres. subst r. done.
Qed.

(** A loop all of whose calls succeeded ran every remaining step and fell
    through; the state it ends in is the one in which the last result was
    recorded. *)
Lemma chain_loop_succeeded ctx log0 rest : ∀ i state calls log,
  chain_inv src rt e wf ctx log0 i rest state calls log →
  Forall succeeded (flow_calls (loop i rest state calls log)) →
  ∃ state' calls' log',
    loop i rest state calls log = LoopDone state' calls' log' ∧
    chain_inv src rt e wf ctx log0 (i + length rest) [] state' calls' log' ∧
    (rest ≠ [] →
     ∃ c result, last calls' = Some c ∧ call_result c = Ok result ∧
                 state' = record_output (call_state c) (call_step c) result).
Proof.
  induction rest as [|step rest IH]; intros i state calls log Hinv Hall.
  - exists state, calls, log. simpl. rewrite Nat.add_0_r. done.
  - simpl in Hall |- *.
    pose proof Hinv as (Hdrop & _).
    apply drop_cons_inv in Hdrop as [Hi Hdrop].
    destruct (body i step state calls log) as [s1 c1 l1|r] eqn:Hbody.
    + pose proof (chain_inv_step _ _ _ _ _ _ _ _ _ _ _ Hinv Hbody) as Hinv'.
      destruct (IH _ _ _ _ Hinv' Hall) as (s' & c' & l' & Hloop & Hfin & Hlast).
      exists s', c', l'. split; [done|].
      split; [by replace (i + S (length rest))%nat with (S i + length rest)%nat by lia|].
      intros _. destruct rest as [|step' rest]; [|by apply Hlast].
      simpl in Hloop. injection Hloop as <- <- <-.
      body_cases i step state calls log; try discriminate.
      injection Hbody as <- <- <-.
      rewrite (lookup_ge_None_2 steps (S i)).
      2:{ apply drop_nil_inv in Hdrop. lia. }
      exists (main_call step state log), result. rewrite last_snoc.
      unfold main_call. simpl. rewrite HE. done.
    + exfalso. simpl in Hall.
      body_cases i step state calls log; try discriminate;
        injection Hbody as <-; simpl in Hall;
        rewrite ?Forall_app, ?Forall_singleton in Hall; destruct_and!;
        match goal with H : succeeded (main_call _ _ _) |- _ => revert H end;
        eapply main_call_failed; eauto; simpl; first [done | congruence].
Qed.

(** C1.  When a workflow with at least one step is loaded and every call
    the run makes succeeds, the run calls each declared step once, in
    order, as a main step, sends one request per step, marks the state
    completed and returns the data of the last result with the context
    recorded as the last step's input. *)
Theorem C1_chain_success name input log run :
  workflows e !! name = Some wf →
  steps ≠ [] →
  ExecuteChain src rt e name input log = run →
  Forall succeeded (run_calls run) →
  map call_step (run_calls run) = steps ∧
  Forall (λ c, call_role c = MainStep) (run_calls run) ∧
  (∃ reqs, run_log run = log ++ reqs ∧ length reqs = length steps ∧
     Forall2 (λ c req, step_request src rt e (call_step c) (call_state c) = Some req)
       (run_calls run) reqs) ∧
  ∃ c result,
    last (run_calls run) = Some c ∧
    call_result c = Ok result ∧
    WorkflowState_Completed (run_state run) = true ∧
    run_outcome run
    = Returned (Ok {| WorkflowOutput_Data := StepResult_Data result;
                      WorkflowOutput_Context :=
                        WorkflowInput_Context
                          (recorded_input (run_state run) (call_step c));
                      WorkflowOutput_Error := None |}).
Proof.
  intros Hwf Hne <- Hall.
  destruct steps as [|first ss] eqn:Hsteps; [done|].
  assert (Hf : steps !! 0%nat = Some first) by (rewrite Hsteps; done).
  rewrite (ExecuteChain_finish _ _ _ _ Hwf Hf) in Hall |- *.
  rewrite finish_chain_calls in Hall |- *.
  rewrite <- Hsteps in *.
  destruct (chain_loop_succeeded _ _ _ _ _ _ _ (chain_inv_init first input log Hf) Hall)
    as (s' & c' & l' & -> & Hfin & Hlast).
  destruct Hlast as (c & result & Hlastc & Hres & ->); [by rewrite Hsteps|].
  destruct Hfin as (_ & Hlen & Hmap & Hmain & (reqs & -> & Hreqs) & _).
  simpl in Hlen, Hmap. rewrite firstn_all in Hmap.
  assert (Hls : steps !! (length steps - 1)%nat = Some (call_step c)).
  { rewrite Nat.sub_1_r, <- last_lookup, <- Hmap, fmap_last, Hlastc. done. }
  simpl. rewrite Hls. simpl.
  split; [done|]. split; [eapply Forall_impl; [apply Hmain|]; by intros ? []|].
  split.
  { exists reqs. split; [done|]. split; [|done].
    apply Forall2_length in Hreqs. lia. }
  exists c, result. split; [done|]. split; [done|]. split; [done|].
  do 3 f_equal.
  unfold steps_index, set_Completed, record_output, steps_assign. simpl.
  rewrite lookup_insert_eq. done.
Qed.
(** The two ways [ExecuteChain] indexes past the end of the step list. *)
Lemma ExecuteChain_no_steps name input log :
  workflows e !! name = Some wf →
  steps = [] →
  run_outcome (ExecuteChain src rt e name input log) = Panicked (index_panic 0 0).
Proof.
  intros Hwf Hs. unfold ExecuteChain. rewrite Hwf, Hs. done.
Qed.

Lemma ExecuteChain_handler_past_end name input log k c result err :
  workflows e !! name = Some wf →
  run_calls (ExecuteChain src rt e name input log) !! k = Some c →
  call_role c = MainStep →
  call_result c = Ok result →
  StepResult_Error result = Some err →
  Step_ErrorHandler (call_step c) ≠ "" →
  S k = length steps →
  run_outcome (ExecuteChain src rt e name input log)
  = Panicked (index_panic (k + 1) (length steps)).
Proof.
  intros Hwf Hk Hrole Hres Herr Hh Hlast.
  destruct (run_call _ _ _ _ _ Hwf Hk)
    as (j & step & rest' & sj & cj & lj & Hinv & -> & [[-> ->]|(_ & ? & ? & ? & ? & _ & _ & _ & _ & ->)]);
    [|done].
  simpl in *.
  destruct (exec step sj lj) as [r log1] eqn:HE. simpl in Hres. subst r.
  rewrite (chain_body_handler_missing _ _ _ _ _ _ _ _ HE Herr Hh); [done|].
  apply lookup_ge_None_2. lia.
Qed.
End ChainFacts.

(** ** Properties of one dispatch *)

Example json_object_accepts : is_json_object payload_create = true.
Proof. vm_compute. reflexivity. Qed.

Example json_object_accepts_nested :
  is_json_object ("{" +:+ jstr "a" +:+ ": [1, -2.5e3, true, null, {}], "
                    +:+ jstr "b" +:+ ": {" +:+ jstr "c" +:+ ": " +:+ jstr "d" +:+ "}}")
  = true.
Proof. vm_compute. reflexivity. Qed.

Example json_object_rejects_trailing_comma :
  is_json_object ("{" +:+ jstr "id" +:+ ": 7,}") = false.
Proof. vm_compute. reflexivity. Qed.

Example json_object_rejects_array : is_json_object "[1, 2]" = false.
Proof. vm_compute. reflexivity. Qed.

(** C4 (as amended).  In [unnamed/part_002], a response that is read and whose
    Content-Type is not [application/json] gives a result with code
    [INVALID_RESPONSE_TYPE]; a response with that Content-Type, status 200
    and a body that does not decode gives a result with code [INVALID_JSON].
    Both come back with a nil Go error. *)
Theorem C4_part002_recoverable rt e step state log req resp body :
  step_request SrcPart002 rt e step state = Some req →
  http_respond rt log req = Ok resp →
  resp_Body resp = Ok body →
  (resp_ContentType resp ≠ "application/json" →
   Part002.ExecuteStep rt e step state log
   = (Ok (error_result step
            ("lambda returned unexpected Content-Type: " +:+ resp_ContentType resp
               +:+ ", body: " +:+ body)
            "INVALID_RESPONSE_TYPE"),
      log ++ [req])) ∧
  (resp_ContentType resp = "application/json" →
   resp_StatusCode resp = StatusOK →
   ∀ err, json_Unmarshal rt body = Err err →
   Part002.ExecuteStep rt e step state log
   = (Ok (error_result step
            ("failed to parse lambda response as JSON: " +:+ body
               +:+ ", error: " +:+ err)
            "INVALID_JSON"),
      log ++ [req])).
Proof.
  intros Hreq Hnet Hbody. unfold_step.
  destruct (template_render rt (Step_InputTemplate step) state); try done.
  destruct (ports e !! Step_Lambda step); [|done].
  injection Hreq as <-. rewrite Hnet, Hbody. split.
  - intros Hct. destruct (String.eqb_spec (resp_ContentType resp) "application/json"); done.
  - intros Hct Hst err Herr. rewrite Hct, Hst, Herr. done.
Qed.

(** An answer whose body cannot be read is a Go error in both copies,
    whatever its Content-Type and status. *)
Lemma ExecuteStep_unread src rt e step state log req resp err :
  step_request src rt e step state = Some req →
  http_respond rt log req = Ok resp →
  resp_Body resp = Err err →
  ExecuteStep src rt e step state log
  = (Err ("failed to read lambda response: " +:+ err), log ++ [req]).
Proof.
  intros Hreq Hnet Hbody. destruct src; unfold_step;
    destruct (template_render rt (Step_InputTemplate step) state); try done.
  - injection Hreq as <-. by rewrite Hnet, Hbody.
  - destruct (ports e !! Step_Lambda step); [|done].
    injection Hreq as <-. by rewrite Hnet, Hbody.
Qed.

(** [orchestrator/executor.go] does not look at the Content-Type, and a
    body of a 200 response that does not decode is a Go error there. *)
Lemma Orchestrator_undecoded rt e step state log req resp body err :
  step_request SrcOrchestrator rt e step state = Some req →
  http_respond rt log req = Ok resp →
  resp_Body resp = Ok body →
  resp_StatusCode resp = StatusOK →
  json_Unmarshal rt body = Err err →
  Orchestrator.ExecuteStep rt e step state log
  = (Err ("failed to parse lambda response: " +:+ err), log ++ [req]).
Proof.
  intros Hreq Hnet Hbody Hst Herr. unfold_step.
  destruct (template_render rt (Step_InputTemplate step) state); try done.
  injection Hreq as <-. by rewrite Hnet, Hbody, Hst, Herr.
Qed.

(** C8 (as amended).  Whenever the input template of a step renders
    against the state and the step's lambda resolves to an address,
    [ExecuteStep] sends exactly one request, to that address and under
    Content-Type [application/json], whose body is the rendered text,
    unchanged: this holds of every rendered text, a JSON object or not, and
    whatever the network answers. *)
Theorem C8_literal_payload src rt e step state log url payload :
  template_render rt (Step_InputTemplate step) state = Rendered payload →
  lambdaURL src e step = Some url →
  snd (ExecuteStep src rt e step state log)
  = log ++ [{| req_url := url; req_contentType := "application/json";
               req_body := payload |}].
Proof.
  intros Hrender Hurl.
  assert (Hreq : step_request src rt e step state
                 = Some {| req_url := url; req_contentType := "application/json";
                           req_body := payload |}).
  { unfold step_request. rewrite Hrender, Hurl. done. }
  apply (ExecuteStep_request _ _ _ _ _ _ _ Hreq).
Qed.

Lemma sent_requests_spec src rt e step state log :
  sent_requests src rt e step state log
  = match step_request src rt e step state with
    | Some req => [req]
    | None => []
    end.
Proof.
  unfold sent_requests.
  destruct (step_request src rt e step state) as [req|] eqn:Hreq.
  - rewrite (ExecuteStep_request _ _ _ _ _ _ _ Hreq), drop_app_length. done.
  - destruct (ExecuteStep_no_request src rt e step state log Hreq) as [err ->].
    simpl. apply drop_all.
Qed.

(** C10 (as amended).  When the lambda has a port, the network gives the
    requests of the two copies the same answer, and that answer is
    well formed (JSON content type, and a body that decodes when the status
    is 200), the two copies of [ExecuteStep] return the same result or the
    same error. *)
Theorem C10_same_result rt e step state log port :
  ports e !! Step_Lambda step = Some port →
  (∀ req1 req2,
     step_request SrcOrchestrator rt e step state = Some req1 →
     step_request SrcPart002 rt e step state = Some req2 →
     http_respond rt log req1 = http_respond rt log req2 ∧
     well_formed_answer rt (http_respond rt log req2)) →
  fst (Orchestrator.ExecuteStep rt e step state log)
  = fst (Part002.ExecuteStep rt e step state log) ∧
  classify (fst (Orchestrator.ExecuteStep rt e step state log))
  = classify (fst (Part002.ExecuteStep rt e step state log)).
Proof.
  intros Hport Hnet.
  cut (fst (Orchestrator.ExecuteStep rt e step state log)
       = fst (Part002.ExecuteStep rt e step state log)).
  { intros ->. done. }
  unfold_step. rewrite Hport in *.
  destruct (template_render rt (Step_InputTemplate step) state) as [| |payload]; try done.
  destruct (Hnet _ _ eq_refl eq_refl) as [Heq Hwf]. rewrite Heq. clear Heq Hnet.
  destruct (http_respond rt log _) as [resp|err]; [|done].
  destruct (resp_Body resp) as [body|err] eqn:Hbody; [|done].
  destruct (Hwf resp body eq_refl Hbody) as [Hct Hdec]. rewrite Hct. simpl.
  destruct (Z.eqb_spec (resp_StatusCode resp) StatusOK) as [Hst|Hst]; simpl; [|done].
  destruct (Hdec Hst) as [result ->]. done.
Qed.

(** ** The properties on the concrete runs *)

(** C1 on [run_two_ok]. *)
Lemma C1_witness :
  (workflows demo_executor !! "two" = Some wf_two ∧
   Workflow_Steps wf_two ≠ [] ∧
   Forall succeeded (run_calls run_two_ok)) ∧
  map call_step (run_calls run_two_ok) = Workflow_Steps wf_two ∧
  Forall (λ c, call_role c = MainStep) (run_calls run_two_ok) ∧
  (∃ reqs, run_log run_two_ok = [] ++ reqs ∧ length reqs = length (Workflow_Steps wf_two) ∧
     Forall2 (λ c req, step_request SrcPart002 rt_two_ok demo_executor
                         (call_step c) (call_state c) = Some req)
       (run_calls run_two_ok) reqs) ∧
  ∃ c result,
    last (run_calls run_two_ok) = Some c ∧
    call_result c = Ok result ∧
    WorkflowState_Completed (run_state run_two_ok) = true ∧
    run_outcome run_two_ok
    = Returned (Ok {| WorkflowOutput_Data := StepResult_Data result;
                      WorkflowOutput_Context :=
                        WorkflowInput_Context
                          (recorded_input (run_state run_two_ok) (call_step c));
                      WorkflowOutput_Error := None |}).
Proof.
  assert (H1 : workflows demo_executor !! "two" = Some wf_two) by (vm_compute; reflexivity).
  assert (H2 : Workflow_Steps wf_two ≠ []) by discriminate.
  assert (H3 : Forall succeeded (run_calls run_two_ok)).
  { repeat constructor; eexists; split; vm_compute; reflexivity. }
  split; [done|].
  exact (C1_chain_success SrcPart002 rt_two_ok demo_executor wf_two "two" demo_input []
           run_two_ok H1 H2 eq_refl H3).
Defined.

(** What [run_two_ok] returns: the data of the second result and the context
    the run was started with. *)
Example run_two_ok_outcome :
  run_outcome run_two_ok
  = Returned (Ok {| WorkflowOutput_Data := Some {[ "done" := JBool true ]};
                    WorkflowOutput_Context := Some {[ "request_id" := JString "r-1" ]};
                    WorkflowOutput_Error := None |}).
Proof. vm_compute. reflexivity. Qed.

(** C3 on [run_two_failure], where the failing step is a main step. *)
Lemma C3_witness :
  (workflows demo_executor !! "two" = Some wf_two ∧
   run_calls run_two_failure !! 0%nat
   = Some (main_call SrcPart002 rt_failure demo_executor step_create
             (initial_state step_create demo_input) []) ∧
   StepResult_Error failure_result = Some failure_error ∧
   Step_ErrorHandler step_create = "") ∧
  Workflow_Steps wf_two !! 0%nat = Some step_create ∧
  length (run_calls run_two_failure) = 1%nat ∧
  (∃ reqs, run_log run_two_failure = [] ++ reqs ∧ length reqs = 1%nat) ∧
  run_outcome run_two_failure = Returned (Ok (error_output failure_error)).
Proof.
  assert (H1 : workflows demo_executor !! "two" = Some wf_two) by (vm_compute; reflexivity).
  assert (H2 : run_calls run_two_failure !! 0%nat
               = Some (main_call SrcPart002 rt_failure demo_executor step_create
                         (initial_state step_create demo_input) []))
    by (vm_compute; reflexivity).
  split; [done|].
  refine (C3_error_without_handler SrcPart002 rt_failure demo_executor wf_two "two"
            demo_input [] run_two_failure 0 _ failure_result failure_error
            H1 eq_refl H2 _ eq_refl eq_refl).
  vm_compute. reflexivity.
Defined.

(** C3 fails as stated on [run_three]: the second of three steps is called
    as the error handler of the first, returns a result that carries an
    error and declares no error handler; the run stops after these two
    calls, but its output carries the error of the first step, not that of
    the second. *)
Lemma C3_counterexample :
  workflows handlers_executor !! "three" = Some wf_three ∧
  Workflow_Steps wf_three !! 1%nat = Some step_cleanup ∧
  length (Workflow_Steps wf_three) = 3%nat ∧
  run_calls run_three !! 1%nat
  = Some (handler_call SrcPart002 rt_two_failures handlers_executor step_cleanup
            state_create_failed [request_create]) ∧
  call_result (handler_call SrcPart002 rt_two_failures handlers_executor step_cleanup
                 state_create_failed [request_create])
  = Ok cleanup_result ∧
  StepResult_Error cleanup_result = Some cleanup_error ∧
  Step_ErrorHandler step_cleanup = "" ∧
  length (run_calls run_three) = 2%nat ∧
  run_log run_three = [request_create; request_cleanup] ∧
  run_outcome run_three = Returned (Ok (error_output failure_error)) ∧
  run_outcome run_three ≠ Returned (Ok (error_output cleanup_error)).
Proof.
  repeat split; try (vm_compute; reflexivity); discriminate.
Qed.

(** C2 on [run_guarded], where the error handler answers with a result. *)
Lemma C2_witness :
  (workflows demo_executor !! "guarded" = Some wf_guarded ∧
   run_calls run_guarded !! 0%nat
   = Some (main_call SrcPart002 rt_recovered demo_executor step_create_guarded
             (initial_state step_create_guarded demo_input) []) ∧
   Step_ErrorHandler step_create_guarded ≠ "" ∧
   Workflow_Steps wf_guarded !! 1%nat = Some step_cleanup) ∧
  ∃ c',
    run_calls run_guarded !! 1%nat = Some c' ∧
    length (run_calls run_guarded) = 2%nat ∧
    call_role c' = ErrorHandlerStep ∧
    call_step c' = step_cleanup ∧
    call_state c'
    = record_output (initial_state step_create_guarded demo_input) step_create_guarded
        failure_result ∧
    match call_result c' with
    | Ok errorResult =>
        WorkflowState_Steps (run_state run_guarded) !! Step_Name step_cleanup
        = Some {| StepState_Input := demo_input;
                  StepState_Output := output_of_result errorResult |} ∧
        (∃ reqs, run_log run_guarded = [] ++ reqs ∧ length reqs = 2%nat) ∧
        run_outcome run_guarded = Returned (Ok (error_output failure_error))
    | Err err2 =>
        run_outcome run_guarded
        = Returned (Err ("error handler " +:+ Step_Name step_cleanup
                           +:+ " failed: " +:+ err2))
    end.
Proof.
  assert (H1 : workflows demo_executor !! "guarded" = Some wf_guarded)
    by (vm_compute; reflexivity).
  assert (H2 : run_calls run_guarded !! 0%nat
               = Some (main_call SrcPart002 rt_recovered demo_executor step_create_guarded
                         (initial_state step_create_guarded demo_input) []))
    by (vm_compute; reflexivity).
  assert (H3 : Step_ErrorHandler step_create_guarded ≠ "") by discriminate.
  split; [done|].
  refine (C2_error_with_handler SrcPart002 rt_recovered demo_executor wf_guarded "guarded"
            demo_input [] run_guarded 0 _ failure_result failure_error step_cleanup
            H1 eq_refl H2 eq_refl _ eq_refl H3 eq_refl).
  vm_compute. reflexivity.
Defined.

(** What the error handler of [run_guarded] returned and what the run
    ended in. *)
Example run_guarded_outcome :
  (∃ c', run_calls run_guarded !! 1%nat = Some c' ∧ call_result c' = Ok result_done) ∧
  run_outcome run_guarded = Returned (Ok (error_output failure_error)).
Proof.
  split; [eexists; split|]; vm_compute; reflexivity.
Qed.

(** C2 fails as stated, in two ways.  On [run_unrouted] the first step
    returns a result that carries an error and declares an error handler,
    yet one request is sent, not two, and the run returns a Go error and no
    output, because the handler step's lambda has no port.  On [run_nested]
    the second step is called as the error handler of the first, returns a
    result that carries an error and declares an error handler of its own,
    and a third step exists; yet no third call is made and the output
    carries the error of the first step. *)
Lemma C2_counterexample :
  (run_calls run_unrouted !! 0%nat
   = Some (main_call SrcPart002 rt_failure demo_executor step_create_guarded
             (initial_state step_create_guarded demo_input) []) ∧
   call_result (main_call SrcPart002 rt_failure demo_executor step_create_guarded
                  (initial_state step_create_guarded demo_input) [])
   = Ok failure_result ∧
   StepResult_Error failure_result = Some failure_error ∧
   Step_ErrorHandler step_create_guarded ≠ "" ∧
   Workflow_Steps wf_unrouted !! 1%nat = Some step_notify ∧
   run_log run_unrouted = [request_create] ∧
   run_outcome run_unrouted
   = Returned (Err "error handler notify failed: no port mapping found for lambda send_email") ∧
   run_outcome run_unrouted ≠ Returned (Ok (error_output failure_error))) ∧
  (workflows handlers_executor !! "nested" = Some wf_nested ∧
   run_calls run_nested !! 1%nat
   = Some (handler_call SrcPart002 rt_two_failures handlers_executor step_cleanup_guarded
             state_create_failed [request_create]) ∧
   call_result (handler_call SrcPart002 rt_two_failures handlers_executor
                  step_cleanup_guarded state_create_failed [request_create])
   = Ok cleanup_result ∧
   StepResult_Error cleanup_result = Some cleanup_error ∧
   Step_ErrorHandler step_cleanup_guarded ≠ "" ∧
   Workflow_Steps wf_nested !! 2%nat = Some step_verify ∧
   length (run_calls run_nested) = 2%nat ∧
   run_calls run_nested !! 2%nat = None ∧
   run_log run_nested = [request_create; request_cleanup] ∧
   run_outcome run_nested = Returned (Ok (error_output failure_error)) ∧
   run_outcome run_nested ≠ Returned (Ok (error_output cleanup_error))).
Proof.
  repeat split; try (vm_compute; reflexivity); discriminate.
Qed.

(** C5 on [run_two_down]. *)
Lemma C5_witness :
  (workflows demo_executor !! "two" = Some wf_two ∧
   run_calls run_two_down !! 0%nat
   = Some (main_call SrcPart002 rt_down demo_executor step_create
             (initial_state step_create demo_input) []) ∧
   step_request SrcPart002 rt_down demo_executor step_create
     (initial_state step_create demo_input) = Some request_create ∧
   http_respond rt_down [] request_create = Err "connection refused") ∧
  ExecuteStep SrcPart002 rt_down demo_executor step_create
    (initial_state step_create demo_input) []
  = (Err "failed to call lambda: connection refused", [request_create]) ∧
  length (run_calls run_two_down) = 1%nat ∧
  run_log run_two_down = [request_create] ∧
  run_outcome run_two_down
  = Returned (Err "step create_user failed: failed to call lambda: connection refused").
Proof.
  assert (H1 : workflows demo_executor !! "two" = Some wf_two) by (vm_compute; reflexivity).
  assert (H2 : run_calls run_two_down !! 0%nat
               = Some (main_call SrcPart002 rt_down demo_executor step_create
                         (initial_state step_create demo_input) []))
    by (vm_compute; reflexivity).
  assert (H3 : step_request SrcPart002 rt_down demo_executor step_create
                 (initial_state step_create demo_input) = Some request_create)
    by (vm_compute; reflexivity).
  assert (H4 : http_respond rt_down [] request_create = Err "connection refused")
    by reflexivity.
  split; [done|].
  destruct (C5_transport_failure SrcPart002 rt_down demo_executor wf_two "two" demo_input []
              run_two_down 0 _ request_create "connection refused" H1 eq_refl H2 H3 H4)
    as (HE & _ & Hlen & Hlog & Hout).
  done.
Defined.

(** C6 on [run_two_ok]. *)
Lemma C6_witness :
  (workflows demo_executor !! "two" = Some wf_two ∧
   run_calls run_two_ok !! 0%nat
   = Some (main_call SrcPart002 rt_two_ok demo_executor step_create
             (initial_state step_create demo_input) []) ∧
   StepResult_Error result_created = None ∧
   (1 < length (Workflow_Steps wf_two))%nat) ∧
  WorkflowInput_Context (recorded_input (initial_state step_create demo_input) step_create)
  = WorkflowInput_Context demo_input ∧
  ∃ c', run_calls run_two_ok !! 1%nat = Some c' ∧
        call_role c' = MainStep ∧
        Workflow_Steps wf_two !! 1%nat = Some (call_step c') ∧
        recorded_input (call_state c') (call_step c')
        = {| WorkflowInput_Data := StepResult_Data result_created;
             WorkflowInput_Context :=
               WorkflowInput_Context
                 (recorded_input (initial_state step_create demo_input) step_create) |}.
Proof.
  assert (H1 : workflows demo_executor !! "two" = Some wf_two) by (vm_compute; reflexivity).
  assert (H2 : run_calls run_two_ok !! 0%nat
               = Some (main_call SrcPart002 rt_two_ok demo_executor step_create
                         (initial_state step_create demo_input) []))
    by (vm_compute; reflexivity).
  assert (H3 : (1 < length (Workflow_Steps wf_two))%nat) by (simpl; lia).
  split; [done|].
  refine (C6_context_propagation SrcPart002 rt_two_ok demo_executor wf_two "two" demo_input []
            run_two_ok 0 _ result_created H1 eq_refl H2 eq_refl _ eq_refl H3).
  vm_compute. reflexivity.
Defined.

(** C7 fails on the code: with no step to run, and with an error handler
    declared on a last step that fails, [ExecuteChain] indexes past the end
    of the step list and panics. *)
Theorem C7_index_panics src :
  workflows demo_executor !! "empty" = Some wf_empty ∧
  run_outcome (ExecuteChain src rt_down demo_executor "empty" demo_input [])
  = Panicked "runtime error: index out of range [0] with length 0" ∧
  workflows demo_executor !! "single" = Some wf_single ∧
  run_outcome (ExecuteChain src rt_failure demo_executor "single" demo_input [])
  = Panicked "runtime error: index out of range [1] with length 1".
Proof. destruct src; repeat split; vm_compute; reflexivity. Qed.

(** C4 on a response of type [text/plain]. *)
Lemma C4_witness :
  (step_request SrcPart002 rt_mistyped demo_executor step_create
     (initial_state step_create demo_input) = Some request_create ∧
   http_respond rt_mistyped [] request_create = answer_text body_created ∧
   "text/plain; charset=utf-8" ≠ "application/json") ∧
  Part002.ExecuteStep rt_mistyped demo_executor step_create
    (initial_state step_create demo_input) []
  = (Ok (error_result step_create
           ("lambda returned unexpected Content-Type: text/plain; charset=utf-8"
              +:+ ", body: " +:+ body_created)
           "INVALID_RESPONSE_TYPE"),
     [request_create]).
Proof.
  assert (H1 : step_request SrcPart002 rt_mistyped demo_executor step_create
                 (initial_state step_create demo_input) = Some request_create)
    by (vm_compute; reflexivity).
  assert (H2 : http_respond rt_mistyped [] request_create = answer_text body_created)
    by reflexivity.
  assert (H3 : "text/plain; charset=utf-8" ≠ "application/json") by discriminate.
  split; [done|].
  exact (proj1 (C4_part002_recoverable rt_mistyped demo_executor step_create
                  (initial_state step_create demo_input) [] request_create _ body_created
                  H1 H2 eq_refl) H3).
Defined.

(** C4 fails as stated, in two ways.  On [orchestrator/executor.go] a 200
    response whose body does not decode makes [ExecuteStep] return a Go
    error, and a response with another Content-Type is decoded as if it were
    JSON.  And in [unnamed/part_002] too the body is read before the
    Content-Type is looked at: a response of type [text/plain] whose body
    cannot be read makes [ExecuteStep] return a Go error. *)
Lemma C4_counterexample :
  Orchestrator.ExecuteStep rt_garbled demo_executor step_create
    (initial_state step_create demo_input) []
  = (Err "failed to parse lambda response: invalid character",
     [{| req_url := "http://user_create:8080"; req_contentType := "application/json";
         req_body := payload_create |}]) ∧
  Orchestrator.ExecuteStep rt_mistyped demo_executor step_create
    (initial_state step_create demo_input) []
  = (Ok result_created,
     [{| req_url := "http://user_create:8080"; req_contentType := "application/json";
         req_body := payload_create |}]) ∧
  http_respond rt_unread [] request_create
  = Ok {| resp_StatusCode := 200; resp_ContentType := "text/plain; charset=utf-8";
          resp_Body := Err "unexpected EOF" |} ∧
  Part002.ExecuteStep rt_unread demo_executor step_create
    (initial_state step_create demo_input) []
  = (Err "failed to read lambda response: unexpected EOF", [request_create]).
Proof. repeat split; vm_compute; reflexivity. Qed.

(** C8 on [step_create], whose template renders to a JSON object. *)
Lemma C8_witness :
  (template_render rt_two_ok (Step_InputTemplate step_create)
     (initial_state step_create demo_input) = Rendered payload_create ∧
   lambdaURL SrcPart002 demo_executor step_create = Some "http://localhost:8080") ∧
  snd (ExecuteStep SrcPart002 rt_two_ok demo_executor step_create
         (initial_state step_create demo_input) [])
  = [] ++ [{| req_url := "http://localhost:8080"; req_contentType := "application/json";
              req_body := payload_create |}].
Proof.
  assert (H1 : template_render rt_two_ok (Step_InputTemplate step_create)
                 (initial_state step_create demo_input) = Rendered payload_create)
    by (vm_compute; reflexivity).
  assert (H3 : lambdaURL SrcPart002 demo_executor step_create = Some "http://localhost:8080")
    by (vm_compute; reflexivity).
  split; [done|].
  exact (C8_literal_payload SrcPart002 rt_two_ok demo_executor step_create
           (initial_state step_create demo_input) [] _ _ H1 H3).
Defined.

(** C8 fails as stated: the input template of [step_ping] renders to the
    text [ping], which is no JSON object, and both copies of [ExecuteStep]
    send it as the body of their request. *)
Lemma C8_counterexample :
  template_render rt_two_ok (Step_InputTemplate step_ping)
    (initial_state step_ping demo_input) = Rendered "ping" ∧
  is_json_object "ping" = false ∧
  sent_requests SrcPart002 rt_two_ok demo_executor step_ping
    (initial_state step_ping demo_input) []
  = [{| req_url := "http://localhost:8081"; req_contentType := "application/json";
        req_body := "ping" |}] ∧
  sent_requests SrcOrchestrator rt_two_ok demo_executor step_ping
    (initial_state step_ping demo_input) []
  = [{| req_url := "http://user_read:8080"; req_contentType := "application/json";
        req_body := "ping" |}].
Proof. repeat split; vm_compute; reflexivity. Qed.

(** C10 on a response both copies accept. *)
Lemma C10_witness :
  (ports demo_executor !! Step_Lambda step_create = Some 8080 ∧
   ∀ req1 req2,
     step_request SrcOrchestrator rt_two_ok demo_executor step_create
       (initial_state step_create demo_input) = Some req1 →
     step_request SrcPart002 rt_two_ok demo_executor step_create
       (initial_state step_create demo_input) = Some req2 →
     http_respond rt_two_ok [] req1 = http_respond rt_two_ok [] req2 ∧
     well_formed_answer rt_two_ok (http_respond rt_two_ok [] req2)) ∧
  fst (Orchestrator.ExecuteStep rt_two_ok demo_executor step_create
         (initial_state step_create demo_input) [])
  = fst (Part002.ExecuteStep rt_two_ok demo_executor step_create
           (initial_state step_create demo_input) []) ∧
  classify (fst (Orchestrator.ExecuteStep rt_two_ok demo_executor step_create
                   (initial_state step_create demo_input) []))
  = classify (fst (Part002.ExecuteStep rt_two_ok demo_executor step_create
                     (initial_state step_create demo_input) [])).
Proof.
  assert (H1 : ports demo_executor !! Step_Lambda step_create = Some 8080)
    by (vm_compute; reflexivity).
  assert (H2 : ∀ req1 req2,
     step_request SrcOrchestrator rt_two_ok demo_executor step_create
       (initial_state step_create demo_input) = Some req1 →
     step_request SrcPart002 rt_two_ok demo_executor step_create
       (initial_state step_create demo_input) = Some req2 →
     http_respond rt_two_ok [] req1 = http_respond rt_two_ok [] req2 ∧
     well_formed_answer rt_two_ok (http_respond rt_two_ok [] req2)).
  { intros req1 req2 _ _. split; [reflexivity|].
    intros resp body Hresp Hbody. simpl in Hresp. injection Hresp as <-.
    simpl in Hbody. injection Hbody as <-. split; [reflexivity|].
    intros _. exists result_created. vm_compute. reflexivity. }
  split; [done|].
  exact (C10_same_result rt_two_ok demo_executor step_create
           (initial_state step_create demo_input) [] 8080 H1 H2).
Defined.

(** C10 fails as stated: the network gives every request the same answer,
    status 200 with the JSON content type and a body that does not decode;
    [orchestrator/executor.go] returns a Go error and [unnamed/part_002] a
    result with code [INVALID_JSON]. *)
Lemma C10_counterexample :
  (∀ req req', http_respond rt_garbled [] req = http_respond rt_garbled [] req') ∧
  classify (fst (Orchestrator.ExecuteStep rt_garbled demo_executor step_create
                   (initial_state step_create demo_input) []))
  = Fatal ∧
  classify (fst (Part002.ExecuteStep rt_garbled demo_executor step_create
                   (initial_state step_create demo_input) []))
  = Recoverable "INVALID_JSON".
Proof. repeat split; vm_compute; reflexivity. Qed.

(** * Further properties of the executor *)

Section ChainInvariants.
Context (src : Source) (rt : Runtime) (e : ChainExecutor) (wf : Workflow).
Context (ctx : JSONMap) (log0 : list Request).
Context (P : nat → list Step → WorkflowState → list StepCall → Prop).

Local Abbreviation steps := (Workflow_Steps wf).
Local Abbreviation body := (chain_body src rt e wf).
Local Abbreviation loop := (chain_loop src rt e wf).
Local Abbreviation inv := (chain_inv src rt e wf ctx log0).

Hypothesis P_step : ∀ i step rest state calls log s' c' l',
  inv i (step :: rest) state calls log →
  P i (step :: rest) state calls →
  body i step state calls log = LoopDone s' c' l' →
  P (S i) rest s' c'.

(** A loop started where the invariants hold ends where they hold, or leaves
    from a run of the body that started where they hold. *)
Lemma chain_loop_unroll rest : ∀ i state calls log,
  inv i rest state calls log →
  P i rest state calls →
  match loop i rest state calls log with
  | LoopDone s' c' l' =>
      inv (i + length rest) [] s' c' l' ∧ P (i + length rest) [] s' c'
  | LoopExit r =>
      ∃ j step rest' sj cj lj,
        inv j (step :: rest') sj cj lj ∧ P j (step :: rest') sj cj ∧
        body j step sj cj lj = LoopExit r
  end.
Proof.
  induction rest as [|step rest IH]; intros i state calls log Hinv HP; simpl.
  - rewrite Nat.add_0_r. done.
  - destruct (body i step state calls log) as [s1 c1 l1|r] eqn:Hbody.
    + replace (i + S (length rest))%nat with (S i + length rest)%nat by lia.
      apply IH; [by eapply chain_inv_step|by eapply P_step].
    + exists i, step, rest, state, calls, log. done.
Qed.

(** Every call of the loop was made by a run of the body that started where
    the invariants hold. *)
Lemma chain_loop_call_with rest : ∀ i state calls log k c,
  inv i rest state calls log →
  P i rest state calls →
  flow_calls (loop i rest state calls log) !! k = Some c →
  (i ≤ k)%nat →
  ∃ j step rest' sj cj lj,
    inv j (step :: rest') sj cj lj ∧ P j (step :: rest') sj cj ∧ (j ≤ k)%nat ∧
    flow_calls (body j step sj cj lj) !! k = Some c.
Proof.
  induction rest as [|step rest IH]; intros i state calls log k c Hinv HP Hk Hle.
  - simpl in Hk. apply lookup_lt_Some in Hk. destruct Hinv as (_ & Hlen & _). lia.
  - simpl in Hk.
    destruct (body i step state calls log) as [s1 c1 l1|r] eqn:Hbody.
    + pose proof (chain_inv_step _ _ _ _ _ _ _ _ _ _ _ _ _ _ _ Hinv Hbody) as Hinv'.
      destruct (decide (k < length c1)%nat) as [Hlt|Hge].
      * exists i, step, rest, state, calls, log. rewrite Hbody. simpl.
        split; [done|]. split; [done|]. split; [done|].
        rewrite (prefix_lookup_lt _ _ _ Hlt
                   (chain_loop_prefix src rt e wf rest (S i) s1 c1 l1)).
        done.
      * destruct Hinv' as (? & Hlen' & ?).
        apply (IH (S i) s1 c1 l1); [done|by eapply P_step|done|lia].
    + exists i, step, rest, state, calls, log. rewrite Hbody. done.
Qed.
End ChainInvariants.

(** Case analysis on one run of the loop body, by the equations of
    [chain_body]. *)
Ltac chain_body_cases src rt e wf i step state calls log :=
  let HE := fresh "HE" in
  let He := fresh "He" in
  let Hh := fresh "Hh" in
  let Hn := fresh "Hn" in
  destruct (ExecuteStep src rt e step state log) as [[?result| ?err] ?log1] eqn:HE;
  [ destruct (StepResult_Error result) as [?we|] eqn:He;
    [ destruct (decide (Step_ErrorHandler step = "")) as [Hh|Hh];
      [ rewrite (chain_body_error_no_handler src rt e wf i step state calls log
                   _ _ _ HE He Hh) in *
      | destruct (Workflow_Steps wf !! S i) as [?errorStep|] eqn:Hn;
        [ rewrite (chain_body_handler src rt e wf i step state calls log
                     _ _ _ _ HE He Hh Hn) in *
        | rewrite (chain_body_handler_missing src rt e wf i step state calls log
                     _ _ _ HE He Hh Hn) in * ] ]
    | rewrite (chain_body_success src rt e wf i step state calls log _ _ HE He) in * ]
  | rewrite (chain_body_fatal src rt e wf i step state calls log _ _ HE) in * ].

Ltac destruct_call_result :=
  match goal with
  | |- context [call_result ?c] => destruct (call_result c)
  | |- context [match fst ?x with _ => _ end] => destruct (fst x)
  end.

Lemma recorded_input_record_output state step result :
  recorded_input (record_output state step result) step = recorded_input state step.
Proof.
  unfold recorded_input at 1, steps_index, record_output, steps_assign. simpl.
  rewrite lookup_insert_eq. done.
Qed.

Lemma recorded_input_assign_ne state name st step :
  name ≠ Step_Name step →
  recorded_input (steps_assign state name st) step = recorded_input state step.
Proof.
  intros Hne. unfold recorded_input, steps_index, steps_assign. simpl.
  rewrite lookup_insert_ne by done. done.
Qed.

Lemma take_S_names (steps : list Step) i step :
  steps !! i = Some step →
  Step_Name <$> take (S i) steps = (Step_Name <$> take i steps) ++ [Step_Name step].
Proof. intros H. rewrite (take_S_r _ _ _ H), fmap_app. done. Qed.

Section StateInvariant.
Context (src : Source) (rt : Runtime) (e : ChainExecutor) (wf : Workflow).
Context (ctx : JSONMap) (log0 : list Request).

Local Abbreviation steps := (Workflow_Steps wf).

Lemma chain_state_inv_step i step rest state calls log s' c' l' :
  chain_inv src rt e wf ctx log0 i (step :: rest) state calls log →
  chain_state_inv wf ctx i (step :: rest) state →
  chain_body src rt e wf i step state calls log = LoopDone s' c' l' →
  chain_state_inv wf ctx (S i) rest s'.
Proof.
  intros (Hdrop & _ & _ & _ & _ & Hctx) (Hcomp & Hcur & _ & _ & Hdom) Hbody.
  apply drop_cons_inv in Hdrop as [Hi Hdrop].
  chain_body_cases src rt e wf i step state calls log; try discriminate.
  injection Hbody as <- <- <-.
  assert (Hlast : last (take (S i) steps) = Some step).
  { rewrite (take_S_r _ _ _ Hi), last_snoc. done. }
  assert (Hstepdom : is_Some (WorkflowState_Steps state !! Step_Name step)).
  { apply Hdom. rewrite (take_S_names _ _ _ Hi), elem_of_app, list_elem_of_singleton.
    by right. }
  destruct (steps !! S i) as [next|] eqn:Hnext.
  - assert (Hrest : head rest = Some next).
    { rewrite (drop_S _ _ _ Hnext) in Hdrop. by subst rest. }
    split; [done|]. split.
    { intros step' Hs. rewrite Hrest in Hs. by injection Hs as <-. }
    split. { intros step' ->. done. }
    split.
    { intros step' Hs. rewrite Hlast in Hs. injection Hs as <-.
      destruct (decide (Step_Name next = Step_Name step)) as [Heq|Hne].
      - unfold recorded_input at 1, steps_index, seed_next, steps_assign. simpl.
        rewrite Heq, lookup_insert_eq. simpl. apply Hctx. done.
      - unfold seed_next. rewrite recorded_input_assign_ne by done.
        unfold recorded_input at 1, steps_index, set_CurrentStep. simpl.
        rewrite lookup_insert_eq. simpl. apply Hctx. done. }
    intros name. rewrite (take_S_names _ _ _ Hnext).
    unfold seed_next, record_output, steps_assign. simpl.
    rewrite !lookup_insert_is_Some, Hdom, (take_S_names _ _ _ Hi).
    rewrite !elem_of_app, !list_elem_of_singleton.
    destruct (decide (Step_Name next = name)), (decide (Step_Name step = name));
      intuition congruence.
  - assert (rest = []) as -> by (apply lookup_ge_None in Hnext; rewrite <- Hdrop;
                                 by apply drop_ge).
    split; [done|]. split; [done|]. split.
    { intros step' _ Hs. rewrite Hlast in Hs. injection Hs as <-. simpl.
      apply Hcur. done. }
    split.
    { intros step' Hs. rewrite Hlast in Hs. injection Hs as <-.
      rewrite recorded_input_record_output. apply Hctx. done. }
    intros name. apply lookup_ge_None in Hnext.
    replace (take (S (S i)) steps) with (take (S i) steps)
      by (rewrite !take_ge by lia; done).
    unfold record_output, steps_assign. simpl.
    rewrite lookup_insert_is_Some, Hdom, (take_S_names _ _ _ Hi).
    rewrite !elem_of_app, !list_elem_of_singleton.
    destruct (decide (Step_Name step = name)); intuition congruence.
Qed.
End StateInvariant.

Lemma ExecuteStep_log_grows src rt e step state log :
  ∃ new, snd (ExecuteStep src rt e step state log) = log ++ new ∧ (length new ≤ 1)%nat.
Proof.
  destruct (step_request src rt e step state) as [req|] eqn:Hreq.
  - exists [req]. split; [by apply ExecuteStep_request|simpl; lia].
  - destruct (ExecuteStep_no_request src rt e step state log Hreq) as [err ->].
    exists []. rewrite (right_id_L [] (++)). simpl. split; [done|lia].
Qed.

Lemma finish_chain_done wf s c l :
  run_state (finish_chain wf (LoopDone s c l)) = set_Completed s true ∧
  run_calls (finish_chain wf (LoopDone s c l)) = c ∧
  run_log (finish_chain wf (LoopDone s c l)) = l.
Proof. unfold finish_chain. by case_match. Qed.

Section RunFacts.
Context (src : Source) (rt : Runtime) (e : ChainExecutor) (wf : Workflow).

Local Abbreviation steps := (Workflow_Steps wf).
Local Abbreviation body := (chain_body src rt e wf).
Local Abbreviation loop := (chain_loop src rt e wf).
Local Abbreviation exec := (ExecuteStep src rt e).

Lemma chain_state_inv_init first input :
  steps !! 0%nat = Some first →
  chain_state_inv wf (WorkflowInput_Context input) 0 steps (initial_state first input).
Proof.
  intros Hf.
  split; [done|]. split.
  { intros step Hs. rewrite head_lookup, Hf in Hs. by injection Hs as <-. }
  split; [done|]. split; [done|].
  intros name. rewrite (take_S_names _ _ _ Hf). simpl.
  unfold initial_state, steps_assign. simpl.
  rewrite lookup_insert_is_Some, lookup_empty, list_elem_of_singleton.
  split; [intros [?|[_ [? ?]]]; done|intros ->; by left].
Qed.

End RunFacts.

Section RunUnroll.
Context (src : Source) (rt : Runtime) (e : ChainExecutor) (wf : Workflow).
Context (input : WorkflowInput) (log : list Request).
Context (P : nat → list Step → WorkflowState → list StepCall → Prop).

Local Abbreviation steps := (Workflow_Steps wf).
Local Abbreviation inv := (chain_inv src rt e wf (WorkflowInput_Context input) log).

Hypothesis P_step : ∀ i step rest state calls lg s' c' l',
  inv i (step :: rest) state calls lg →
  P i (step :: rest) state calls →
  chain_body src rt e wf i step state calls lg = LoopDone s' c' l' →
  P (S i) rest s' c'.

(** A run of a workflow with a first step either falls through the loop,
    from where the invariants hold at the end of the step list, or returns
    from a run of the loop body that started where they hold. *)
Lemma run_unroll_with name first :
  workflows e !! name = Some wf →
  steps !! 0%nat = Some first →
  P 0 steps (initial_state first input) [] →
  (∃ s' c' l',
     inv (length steps) [] s' c' l' ∧ P (length steps) [] s' c' ∧
     ExecuteChain src rt e name input log = finish_chain wf (LoopDone s' c' l')) ∨
  (∃ j step rest' sj cj lj,
     inv j (step :: rest') sj cj lj ∧ P j (step :: rest') sj cj ∧
     chain_body src rt e wf j step sj cj lj
     = LoopExit (ExecuteChain src rt e name input log)).
Proof.
  intros Hwf Hf HP. rewrite (ExecuteChain_finish _ _ _ _ _ _ _ _ Hwf Hf).
  pose proof (chain_loop_unroll src rt e wf (WorkflowInput_Context input) log P P_step
                steps 0 (initial_state first input) [] log
                (chain_inv_init src rt e wf first input log Hf) HP) as H.
  destruct (chain_loop src rt e wf 0 steps (initial_state first input) [] log)
    as [s' c' l'|r].
  - left. exists s', c', l'. destruct H. done.
  - right. simpl. done.
Qed.
End RunUnroll.

Section RunStateFacts.
Context (src : Source) (rt : Runtime) (e : ChainExecutor) (wf : Workflow).

Local Abbreviation steps := (Workflow_Steps wf).

Lemma run_unroll name input log first :
  workflows e !! name = Some wf →
  steps !! 0%nat = Some first →
  (∃ s' c' l',
     chain_inv src rt e wf (WorkflowInput_Context input) log (length steps) [] s' c' l' ∧
     chain_state_inv wf (WorkflowInput_Context input) (length steps) [] s' ∧
     ExecuteChain src rt e name input log = finish_chain wf (LoopDone s' c' l')) ∨
  (∃ j step rest' sj cj lj,
     chain_inv src rt e wf (WorkflowInput_Context input) log j (step :: rest') sj cj lj ∧
     chain_state_inv wf (WorkflowInput_Context input) j (step :: rest') sj ∧
     chain_body src rt e wf j step sj cj lj
     = LoopExit (ExecuteChain src rt e name input log)).
Proof.
  intros Hwf Hf.
  apply (run_unroll_with src rt e wf input log
           (λ i rest state _, chain_state_inv wf (WorkflowInput_Context input) i rest state)
           (λ i step rest state calls lg s' c' l',
              chain_state_inv_step src rt e wf _ _ i step rest state calls lg s' c' l')
           name first Hwf Hf).
  by apply chain_state_inv_init.
Qed.
End RunStateFacts.

Section RunProperties.
Context (src : Source) (rt : Runtime) (e : ChainExecutor) (wf : Workflow).

Local Abbreviation steps := (Workflow_Steps wf).
Local Abbreviation body := (chain_body src rt e wf).
Local Abbreviation exec := (ExecuteStep src rt e).

Lemma ExecuteChain_first_step name input log :
  workflows e !! name = Some wf →
  (∃ first, steps !! 0%nat = Some first) ∨
  (steps = [] ∧
   ExecuteChain src rt e name input log
   = {| run_outcome := Panicked (index_panic 0 (length steps));
        run_state := zero_WorkflowState; run_calls := []; run_log := log |}).
Proof.
  intros Hwf. unfold ExecuteChain. rewrite Hwf.
  destruct steps as [|first ss] eqn:Hs; [right|left; eauto]. done.
Qed.

(** X1.  Whatever happens, a run calls the steps in declared order and each
    at most once: the call at position [k] of its history is for the step at
    index [k], also when it is the error-handler call; so there are at most
    as many calls as steps, and at most one request per call. *)
Theorem ExecuteChain_declared_order name input log run :
  workflows e !! name = Some wf →
  ExecuteChain src rt e name input log = run →
  (∀ k c, run_calls run !! k = Some c → steps !! k = Some (call_step c)) ∧
  (length (run_calls run) ≤ length steps)%nat ∧
  ∃ reqs, run_log run = log ++ reqs ∧ (length reqs ≤ length (run_calls run))%nat.
Proof.
  intros Hwf <-.
  assert (Hord : ∀ k c, run_calls (ExecuteChain src rt e name input log) !! k = Some c →
                        steps !! k = Some (call_step c)).
  { intros k c Hk.
    destruct (run_call src rt e wf _ _ _ _ _ Hwf Hk)
      as (j & step & rest' & sj & cj & lj & Hinv & _ &
          [[-> ->]|(-> & ? & ? & ? & ? & _ & _ & _ & Hnext & ->)]); [|done].
    destruct Hinv as (Hdrop & _). by apply drop_cons_inv in Hdrop as [Hj _]. }
  split; [done|]. split.
  { destruct (run_calls (ExecuteChain src rt e name input log)) as [|c0 cs] eqn:Hc
      using rev_ind; [simpl; lia|].
    rewrite length_app. simpl.
    assert (Hk : (cs ++ [c0]) !! length cs = Some c0) by apply list_lookup_middle, eq_refl.
    apply Hord, lookup_lt_Some in Hk. lia. }
  destruct (ExecuteChain_first_step name input log Hwf) as [[first Hf]|[_ ->]].
  2:{ exists []. simpl. rewrite (right_id_L [] (++)). done. }
  destruct (run_unroll src rt e wf name input log first Hwf Hf)
    as [(s' & c' & l' & Hinv & _ & ->)|(j & step & rest' & sj & cj & lj & Hinv & _ & Hb)].
  - destruct Hinv as (_ & Hlen & _ & _ & (reqs & -> & Hreqs) & _).
    exists reqs. apply Forall2_length in Hreqs.
    destruct (finish_chain_done wf s' c' (log ++ reqs)) as (_ & -> & ->).
    split; [done|lia].
  - destruct (chain_inv_requests _ _ _ _ _ _ _ _ _ _ _ Hinv) as (reqs & -> & Hlen).
    destruct Hinv as (_ & Hlenc & _).
    destruct (ExecuteStep_log_grows src rt e step sj (log ++ reqs)) as (new & Hnew & Hle).
    chain_body_cases src rt e wf j step sj cj (log ++ reqs); try discriminate;
      injection Hb as <-; simpl in *; subst;
      try (exists (reqs ++ new); rewrite (assoc_L (++)), !length_app; simpl;
           split; [done|lia]).
    match goal with
    | |- context [ExecuteStep src rt e ?s ?st ?lg] =>
        destruct (ExecuteStep_log_grows src rt e s st lg) as (new2 & -> & Hle2)
    end.
    exists (reqs ++ new ++ new2). rewrite !(assoc_L (++)), !length_app. simpl.
    split; [done|lia].
Qed.

Lemma take_names_subseteq i nm :
  nm ∈ Step_Name <$> take i steps → nm ∈ Step_Name <$> steps.
Proof.
  rewrite !list_elem_of_fmap. intros (s & -> & Hs). exists s. split; [done|].
  by apply (subseteq_take i).
Qed.

(** The state a run is left in when it returns from inside the loop body:
    its completion mark is the one the body started with, and it has entries
    for no other names than the body's state, the step and the step after. *)
Lemma chain_body_exit_state j step sj cj lj r :
  body j step sj cj lj = LoopExit r →
  WorkflowState_Completed (run_state r) = WorkflowState_Completed sj ∧
  ∀ nm, is_Some (WorkflowState_Steps (run_state r) !! nm) →
        is_Some (WorkflowState_Steps sj !! nm) ∨ nm = Step_Name step ∨
        ∃ errorStep, steps !! S j = Some errorStep ∧ nm = Step_Name errorStep.
Proof.
  intros Hb.
  chain_body_cases src rt e wf j step sj cj lj; try discriminate;
    injection Hb as <-; simpl.
  - split; [done|]. intros nm. rewrite lookup_insert_is_Some. intuition eauto.
  - destruct_call_result; simpl; (split; [done|]); intros nm;
      rewrite ?lookup_insert_is_Some; intuition eauto.
  - split; [done|]. intros nm. rewrite lookup_insert_is_Some. intuition eauto.
  - split; [done|]. auto.
Qed.

(** X2.  What a run returns and whether its state is marked completed go
    together.  An output without an error comes with a completed state, the
    last step as the current one, and the context the run was started with;
    an output with an error carries nothing else; and the state is not marked
    completed in any run that returns an error, an output with an error, or
    panics. *)
Theorem ExecuteChain_outcome_shape name input log run :
  workflows e !! name = Some wf →
  ExecuteChain src rt e name input log = run →
  match run_outcome run with
  | Returned (Ok out) =>
      (WorkflowOutput_Error out = None ∧
       WorkflowOutput_Context out = WorkflowInput_Context input ∧
       WorkflowState_Completed (run_state run) = true ∧
       ∀ lastStep, last steps = Some lastStep →
                   WorkflowState_CurrentStep (run_state run) = Step_Name lastStep) ∨
      (∃ err, out = error_output err ∧
              WorkflowState_Completed (run_state run) = false)
  | Returned (Err _) | Panicked _ =>
      WorkflowState_Completed (run_state run) = false
  end.
Proof.
  intros Hwf <-.
  destruct (ExecuteChain_first_step name input log Hwf) as [[first Hf]|[_ ->]]; [|done].
  destruct (run_unroll src rt e wf name input log first Hwf Hf)
    as [(s' & c' & l' & Hinv & Hst & ->)|(j & step & rest' & sj & cj & lj & Hinv & Hst & Hb)].
  - destruct Hst as (_ & _ & Hcur & Hctx & _).
    rewrite firstn_all in Hcur, Hctx.
    unfold finish_chain. rewrite Nat.sub_1_r, <- last_lookup.
    destruct (last steps) as [lastStep|] eqn:Hlast.
    2:{ apply last_None in Hlast. rewrite Hlast in Hf. done. }
    simpl. left. split; [done|]. split; [by apply Hctx|]. split; [done|].
    intros ? [= <-]. by apply Hcur.
  - destruct Hst as (Hcomp & _).
    chain_body_cases src rt e wf j step sj cj lj; try discriminate;
      injection Hb as <-; simpl; try done.
    + right. eauto.
    + destruct_call_result; [right; eauto|done].
Qed.

(** X3.  The state a step is rendered against names the step in progress:
    for a main call the current step is the step being called, for the
    error-handler call it is still the step that failed; and no call sees a
    state marked completed. *)
Theorem ExecuteChain_current_step name input log run k c :
  workflows e !! name = Some wf →
  ExecuteChain src rt e name input log = run →
  run_calls run !! k = Some c →
  WorkflowState_Completed (call_state c) = false ∧
  match call_role c with
  | MainStep => WorkflowState_CurrentStep (call_state c) = Step_Name (call_step c)
  | ErrorHandlerStep =>
      ∃ j failing, k = S j ∧ steps !! j = Some failing ∧
                   WorkflowState_CurrentStep (call_state c) = Step_Name failing
  end.
Proof.
  intros Hwf <- Hk.
  destruct (ExecuteChain_calls_nonempty src rt e wf _ _ _ _ _ Hwf Hk) as [first Hf].
  rewrite (ExecuteChain_finish _ _ _ _ _ _ _ _ Hwf Hf), finish_chain_calls in Hk.
  destruct (chain_loop_call_with src rt e wf (WorkflowInput_Context input) log
              (λ i rest state _, chain_state_inv wf (WorkflowInput_Context input)
                                   i rest state)
              (λ i step rest state calls lg s' c' l' Hi HP Hb,
                 chain_state_inv_step src rt e wf _ _ i step rest state calls lg s' c' l'
                   Hi HP Hb)
              steps 0 (initial_state first input) [] log k c
              (chain_inv_init src rt e wf first input log Hf)
              (chain_state_inv_init wf first input Hf) Hk)
    as (j & step & rest' & sj & cj & lj & Hinv & Hst & Hle & Hb); [lia|].
  destruct Hinv as (Hdrop & Hlen & _). apply drop_cons_inv in Hdrop as [Hj _].
  destruct Hst as (Hcomp & Hcur & _).
  destruct (chain_body_call src rt e wf j step sj cj lj k c Hlen Hle Hb)
    as [[-> ->]|(-> & result & err & log1 & errorStep & _ & _ & _ & _ & ->)]; simpl.
  - split; [done|]. by apply Hcur.
  - split; [done|]. exists j, step. split; [done|]. split; [done|]. by apply Hcur.
Qed.

(** X4.  The state of a run has entries only under names of declared steps,
    and after a completed run under the name of every declared step. *)
Theorem ExecuteChain_state_names name input log run :
  workflows e !! name = Some wf →
  ExecuteChain src rt e name input log = run →
  (∀ nm, is_Some (WorkflowState_Steps (run_state run) !! nm) →
         nm ∈ Step_Name <$> steps) ∧
  (WorkflowState_Completed (run_state run) = true →
   ∀ nm, nm ∈ Step_Name <$> steps →
         is_Some (WorkflowState_Steps (run_state run) !! nm)).
Proof.
  intros Hwf <-.
  destruct (ExecuteChain_first_step name input log Hwf) as [[first Hf]|[_ ->]].
  2:{ simpl. split; [|done]. intros nm. rewrite lookup_empty. by intros [? ?]. }
  destruct (run_unroll src rt e wf name input log first Hwf Hf)
    as [(s' & c' & l' & Hinv & Hst & ->)|(j & step & rest' & sj & cj & lj & Hinv & Hst & Hb)].
  - destruct Hst as (_ & _ & _ & _ & Hdom).
    rewrite (take_ge steps (S (length steps))) in Hdom by lia.
    destruct (finish_chain_done wf s' c' l') as (-> & _ & _). simpl.
    split; [|intros _]; intros nm; by rewrite Hdom.
  - destruct Hst as (Hcomp & _ & _ & _ & Hdom).
    destruct Hinv as (Hdrop & _). apply drop_cons_inv in Hdrop as [Hj _].
    destruct (chain_body_exit_state j step sj cj lj _ Hb) as [Hc Hnames].
    split; [|by rewrite Hc, Hcomp].
    intros nm Hnm. destruct (Hnames nm Hnm) as [H|[->|(errorStep & Hn & ->)]].
    + eapply take_names_subseteq. by apply Hdom.
    + apply list_elem_of_fmap_2. by eapply list_elem_of_lookup_2.
    + apply list_elem_of_fmap_2. by eapply list_elem_of_lookup_2.
Qed.
End RunProperties.

(** ** What the state records when step names are unique *)

Lemma lookup_map {A B} (f : A → B) (l : list A) k :
  map f l !! k = f <$> l !! k.
Proof. revert k. induction l as [|x l IH]; intros [|k]; simpl; auto. Qed.

Lemma record_inv_assign state calls name st :
  chain_record_inv state calls →
  Forall (λ c, Step_Name (call_step c) ≠ name) calls →
  chain_record_inv (steps_assign state name st) calls.
Proof.
  intros HP Hne k c r Hk Hrole Hres. unfold steps_assign. simpl.
  rewrite lookup_insert_ne; [by eapply HP|].
  rewrite Forall_forall in Hne. intros ->. eapply Hne; [|done].
  by eapply list_elem_of_lookup_2.
Qed.

Lemma record_inv_snoc state calls c :
  chain_record_inv state calls →
  (call_role c = MainStep → ∀ r, call_result c = Ok r →
   WorkflowState_Steps state !! Step_Name (call_step c)
   = Some {| StepState_Input := recorded_input (call_state c) (call_step c);
             StepState_Output := output_of_result r |}) →
  chain_record_inv state (calls ++ [c]).
Proof.
  intros HP Hc k c' r Hk Hrole Hres.
  apply lookup_snoc_Some in Hk as [[_ Hk]|[_ <-]]; [by eapply HP|by apply Hc].
Qed.

Section Records.
Context (src : Source) (rt : Runtime) (e : ChainExecutor) (wf : Workflow).

Local Abbreviation steps := (Workflow_Steps wf).

Hypothesis names_unique : NoDup (Step_Name <$> steps).

Lemma step_names_distinct a b sa sb :
  steps !! a = Some sa → steps !! b = Some sb → a ≠ b → Step_Name sa ≠ Step_Name sb.
Proof.
  intros Ha Hb Hab Heq. apply Hab.
  apply (NoDup_lookup _ a b (Step_Name sa) names_unique);
    rewrite list_lookup_fmap; [by rewrite Ha|by rewrite Hb, Heq].
Qed.

Lemma calls_names_distinct ctx log0 i rest state calls log j sj :
  chain_inv src rt e wf ctx log0 i rest state calls log →
  steps !! j = Some sj → (i ≤ j)%nat →
  Forall (λ c, Step_Name (call_step c) ≠ Step_Name sj) calls.
Proof.
  intros (_ & Hlen & Hmap & _) Hj Hle. apply Forall_lookup. intros k c Hk.
  assert (Hsk : steps !! k = Some (call_step c)).
  { assert (map call_step calls !! k = Some (call_step c)) as H
      by (rewrite lookup_map, Hk; done).
    rewrite Hmap in H. by apply lookup_take_Some in H as [H _]. }
  apply lookup_lt_Some in Hk. eapply step_names_distinct; [done|done|lia].
Qed.

(** Recording the result of the step at index [i] keeps the records of the
    earlier calls and adds the one of this call. *)
Lemma record_inv_record_output ctx log0 i step rest state calls log result log1 :
  chain_inv src rt e wf ctx log0 i (step :: rest) state calls log →
  chain_record_inv state calls →
  ExecuteStep src rt e step state log = (Ok result, log1) →
  chain_record_inv (record_output state step result)
    (calls ++ [main_call src rt e step state log]).
Proof.
  intros Hinv HP HE.
  pose proof Hinv as (Hdrop & _). apply drop_cons_inv in Hdrop as [Hi _].
  apply record_inv_snoc.
  - apply record_inv_assign; [done|]. by eapply calls_names_distinct.
  - intros _ r. unfold main_call. simpl. rewrite HE. simpl. intros [= <-].
    unfold record_output, steps_assign. simpl. by rewrite lookup_insert_eq.
Qed.

Lemma chain_record_inv_step ctx log0 i step rest state calls log s' c' l' :
  chain_inv src rt e wf ctx log0 i (step :: rest) state calls log →
  chain_record_inv state calls →
  chain_body src rt e wf i step state calls log = LoopDone s' c' l' →
  chain_record_inv s' c'.
Proof.
  intros Hinv HP Hbody.
  pose proof Hinv as (Hdrop & _). apply drop_cons_inv in Hdrop as [Hi _].
  chain_body_cases src rt e wf i step state calls log; try discriminate.
  injection Hbody as <- <- <-.
  pose proof (record_inv_record_output _ _ _ _ _ _ _ _ _ _ Hinv HP HE) as HP'.
  destruct (steps !! S i) as [next|] eqn:Hnext; [|done].
  unfold seed_next. apply record_inv_assign.
  - intros k c r Hk Hrole Hres. by apply (HP' k c r).
  - apply Forall_app. split; [by eapply calls_names_distinct; [done|done|lia]|].
    constructor; [|done]. simpl. eapply step_names_distinct; [done|done|lia].
Qed.

(** X5.  When the step names of a workflow are unique, the state a run is
    left in records every main call that returned a result: under the
    step's name it holds the input the step was called with and the result
    as its output.  This holds however the run ends. *)
Theorem ExecuteChain_records_steps name input log run k c r :
  workflows e !! name = Some wf →
  ExecuteChain src rt e name input log = run →
  run_calls run !! k = Some c →
  call_role c = MainStep →
  call_result c = Ok r →
  WorkflowState_Steps (run_state run) !! Step_Name (call_step c)
  = Some {| StepState_Input := recorded_input (call_state c) (call_step c);
            StepState_Output := output_of_result r |}.
Proof.
  intros Hwf <- Hk Hrole Hres.
  destruct (ExecuteChain_calls_nonempty src rt e wf _ _ _ _ _ Hwf Hk) as [first Hf].
  cut (chain_record_inv (run_state (ExecuteChain src rt e name input log))
         (run_calls (ExecuteChain src rt e name input log))).
  { intros HP. by apply (HP k c r). }
  clear k c r Hk Hrole Hres.
  destruct (run_unroll_with src rt e wf input log
              (λ _ _ state calls, chain_record_inv state calls)
              (λ i step rest state calls lg s' c' l',
                 chain_record_inv_step _ _ i step rest state calls lg s' c' l')
              name first Hwf Hf)
    as [(s' & c' & l' & Hinv & HP & ->)|(j & step & rest' & sj & cj & lj & Hinv & HP & Hb)].
  { intros k c r Hk. done. }
  - destruct (finish_chain_done wf s' c' l') as (-> & -> & _). done.
  - pose proof Hinv as (Hdrop & _). apply drop_cons_inv in Hdrop as [Hj _].
    chain_body_cases src rt e wf j step sj cj lj; try discriminate;
      injection Hb as <-; simpl.
    + by eapply record_inv_record_output.
    + pose proof (record_inv_record_output _ _ _ _ _ _ _ _ _ _ Hinv HP HE) as HP'.
      destruct_call_result.
      * apply record_inv_snoc; [|done]. apply record_inv_assign; [done|].
        apply Forall_app. split; [by eapply calls_names_distinct; [done|done|lia]|].
        constructor; [|done]. simpl. eapply step_names_distinct; [done|done|lia].
      * apply record_inv_snoc; done.
    + by eapply record_inv_record_output.
    + apply record_inv_snoc; [done|].
      intros _ r. unfold main_call. simpl. rewrite HE. done.
Qed.
End Records.

(** ** What a run depends on in the executor and the workflow *)

Lemma ExecuteStep_alike src rt e e' s s' state log :
  step_alike s s' →
  ports e = ports e' →
  ExecuteStep src rt e s state log = ExecuteStep src rt e' s' state log.
Proof.
  intros (Hn & Hl & Ht & _) Hp.
  destruct src; unfold ExecuteStep, Orchestrator.ExecuteStep, Part002.ExecuteStep,
    error_result; rewrite ?Hn, ?Hl, ?Ht, ?Hp; done.
Qed.

Section Alike.
Context (src : Source) (rt : Runtime) (e e' : ChainExecutor) (wf wf' : Workflow).

Hypothesis same_ports : ports e = ports e'.
Hypothesis alike : Forall2 step_alike (Workflow_Steps wf) (Workflow_Steps wf').

Lemma alike_lookup k s :
  Workflow_Steps wf !! k = Some s →
  ∃ s', Workflow_Steps wf' !! k = Some s' ∧ step_alike s s'.
Proof. intros Hk. by eapply Forall2_lookup_l. Qed.

Lemma alike_lookup_None k :
  Workflow_Steps wf !! k = None → Workflow_Steps wf' !! k = None.
Proof.
  rewrite !lookup_ge_None. by rewrite (Forall2_length _ _ _ alike).
Qed.

Lemma chain_body_alike i step step' state calls calls' log :
  step_alike step step' →
  map call_result calls = map call_result calls' →
  flow_alike (chain_body src rt e wf i step state calls log)
    (chain_body src rt e' wf' i step' state calls' log).
Proof.
  intros Hs Hc. pose proof Hs as (Hn & _ & _ & Hh).
  pose proof (eq_sym (ExecuteStep_alike src rt e e' step step' state log Hs same_ports))
    as HE'.
  assert (Hc1 : map call_result (calls ++ [main_call src rt e step state log])
                = map call_result (calls' ++ [main_call src rt e' step' state log])).
  { rewrite !map_app, Hc. unfold main_call. simpl. by rewrite HE'. }
  assert (Hro : ∀ r, record_output state step r = record_output state step' r).
  { intros r. unfold record_output, recorded_input. by rewrite Hn. }
  chain_body_cases src rt e wf i step state calls log.
  - rewrite (chain_body_error_no_handler src rt e' wf' i step' state calls' log
               _ _ _ HE' He (proj1 Hh Hh0)).
    repeat split; simpl; try done; by rewrite Hro.
  - destruct (alike_lookup _ _ Hn0) as (errorStep' & Hn' & Hes).
    rewrite (chain_body_handler src rt e' wf' i step' state calls' log
               _ _ _ _ HE' He (λ H, Hh0 (proj2 Hh H)) Hn').
    pose proof (ExecuteStep_alike src rt e e' errorStep errorStep'
                  (record_output state step result) log1 Hes same_ports) as HE2.
    destruct Hes as (Hen & _).
    unfold handler_call. simpl. rewrite <- !Hro, <- HE2, <- Hen.
    unfold recorded_input. rewrite <- Hn.
    split; [done|]. split; [done|]. split; [done|]. cbn [run_calls].
    rewrite (map_app _ (calls ++ _)), Hc1, (map_app _ (calls' ++ _)). done.
  - rewrite (chain_body_handler_missing src rt e' wf' i step' state calls' log
               _ _ _ HE' He (λ H, Hh0 (proj2 Hh H))
               (alike_lookup_None _ Hn0)).
    repeat split; simpl; rewrite ?(Forall2_length _ _ _ alike), ?Hro; done.
  - rewrite (chain_body_success src rt e' wf' i step' state calls' log
               _ _ HE' He).
    simpl. split; [|done].
    destruct (Workflow_Steps wf !! S i) as [next|] eqn:Hnext.
    + destruct (alike_lookup _ _ Hnext) as (next' & -> & (Hnn & _)).
      unfold seed_next, recorded_input. by rewrite <- Hro, Hnn, Hn.
    + rewrite (alike_lookup_None _ Hnext). apply Hro.
  - rewrite (chain_body_fatal src rt e' wf' i step' state calls' log
               _ _ HE').
    repeat split; simpl; rewrite ?Hn; done.
Qed.

Lemma chain_loop_alike rest rest' :
  Forall2 step_alike rest rest' →
  ∀ i state calls calls' log,
    map call_result calls = map call_result calls' →
    flow_alike (chain_loop src rt e wf i rest state calls log)
      (chain_loop src rt e' wf' i rest' state calls' log).
Proof.
  induction 1 as [|step step' rest rest' Hs _ IH]; intros i state calls calls' log Hc; simpl.
  - done.
  - pose proof (chain_body_alike i step step' state calls calls' log Hs Hc) as Hb.
    destruct (chain_body src rt e wf i step state calls log) as [s1 c1 l1|r],
             (chain_body src rt e' wf' i step' state calls' log) as [s1' c1' l1'|r'];
      simpl in Hb; try done.
    destruct Hb as (<- & <- & Hc'). by apply IH.
Qed.

Lemma finish_chain_alike f f' :
  flow_alike f f' → run_alike (finish_chain wf f) (finish_chain wf' f').
Proof.
  destruct f as [s c l|r], f' as [s' c' l'|r']; simpl; try done.
  intros (<- & <- & Hc). rewrite <- (Forall2_length _ _ _ alike).
  destruct (Workflow_Steps wf !! _) as [lastStep|] eqn:Hlast.
  - destruct (alike_lookup _ _ Hlast) as (last' & -> & (Hln & _)).
    unfold recorded_input. rewrite <- Hln. done.
  - rewrite (alike_lookup_None _ Hlast). done.
Qed.

(** X6.  A run depends on a workflow only through the names, lambdas and
    input templates of its steps, in order, and through which steps declare
    an error handler; and on the executor only through its port table.  The
    workflow's name and description, the name it is registered under, the
    steps' [pass_output_as] and the handler an [error_handler] names have no
    effect on the outcome, the final state, the requests sent or what each
    call returns. *)
Theorem ExecuteChain_depends_on name name' input log :
  workflows e !! name = Some wf →
  workflows e' !! name' = Some wf' →
  run_alike (ExecuteChain src rt e name input log)
    (ExecuteChain src rt e' name' input log).
Proof.
  intros Hwf Hwf'.
  destruct (Workflow_Steps wf !! 0%nat) as [first|] eqn:Hf.
  - destruct (alike_lookup _ _ Hf) as (first' & Hf' & (Hfn & _)).
    rewrite (ExecuteChain_finish src rt e wf name first input log Hwf Hf).
    rewrite (ExecuteChain_finish src rt e' wf' name' first' input log Hwf' Hf').
    apply finish_chain_alike.
    replace (initial_state first' input) with (initial_state first input)
      by (unfold initial_state; by rewrite Hfn).
    by apply chain_loop_alike.
  - pose proof (alike_lookup_None _ Hf) as Hf'.
    unfold ExecuteChain. rewrite Hwf, Hwf', Hf, Hf', (Forall2_length _ _ _ alike). done.
Qed.
End Alike.

(** ** What an answer makes [ExecuteStep] return *)

(** X7.  [ExecuteStep] returns a result only after it has sent exactly one
    request and read the response; a result without an error only when the
    status was 200 and the body decoded to that result (in [unnamed/part_002]
    also only under Content-Type [application/json]); and when it returns an
    error it has sent that one request or none. *)
Theorem ExecuteStep_outcome_sound src rt e step state log :
  match ExecuteStep src rt e step state log with
  | (Ok result, log') =>
      ∃ req resp body,
        step_request src rt e step state = Some req ∧ log' = log ++ [req] ∧
        http_respond rt log req = Ok resp ∧ resp_Body resp = Ok body ∧
        (StepResult_Error result = None →
         resp_StatusCode resp = StatusOK ∧ json_Unmarshal rt body = Ok result ∧
         (src = SrcPart002 → resp_ContentType resp = "application/json"))
  | (Err _, log') =>
      (step_request src rt e step state = None ∧ log' = log) ∨
      (∃ req, step_request src rt e step state = Some req ∧ log' = log ++ [req])
  end.
Proof.
  destruct src; unfold_step;
    destruct (template_render rt (Step_InputTemplate step) state) as [| |payload];
    try (left; done).
  - destruct (http_respond rt log _) as [resp|err] eqn:Hnet; [|right; eauto].
    destruct (resp_Body resp) as [body|err] eqn:Hbody; [|right; eauto].
    destruct (Z.eqb_spec (resp_StatusCode resp) StatusOK) as [Hst|Hst]; simpl.
    + destruct (json_Unmarshal rt body) as [result|err] eqn:Hdec; [|right; eauto].
      eexists _, resp, body. repeat split; done.
    + eexists _, resp, body. repeat split; done.
  - destruct (ports e !! Step_Lambda step) as [port|]; [|left; done].
    destruct (http_respond rt log _) as [resp|err] eqn:Hnet; [|right; eauto].
    destruct (resp_Body resp) as [body|err] eqn:Hbody; [|right; eauto].
    destruct (String.eqb_spec (resp_ContentType resp) "application/json") as [Hct|Hct];
      simpl; [|eexists _, resp, body; repeat split; done].
    destruct (Z.eqb_spec (resp_StatusCode resp) StatusOK) as [Hst|Hst]; simpl;
      [|eexists _, resp, body; repeat split; done].
    destruct (json_Unmarshal rt body) as [result|err] eqn:Hdec;
      eexists _, resp, body; repeat split; done.
Qed.

(** X8.  A response whose status is not 200 never reaches the decoder: both
    copies return a result that carries an error named for the step and no
    data, whatever the body holds.  The code is [LAMBDA_ERROR] with the body
    as message, except that [unnamed/part_002] looks at the Content-Type
    first and reports [INVALID_RESPONSE_TYPE] when it is not JSON. *)
Theorem ExecuteStep_non_200 src rt e step state log req resp body :
  step_request src rt e step state = Some req →
  http_respond rt log req = Ok resp →
  resp_Body resp = Ok body →
  resp_StatusCode resp ≠ StatusOK →
  ExecuteStep src rt e step state log
  = (Ok (match src with
         | SrcPart002 =>
             if String.eqb (resp_ContentType resp) "application/json"
             then error_result step ("lambda returned error: " +:+ body) "LAMBDA_ERROR"
             else error_result step
                    ("lambda returned unexpected Content-Type: "
                       +:+ resp_ContentType resp +:+ ", body: " +:+ body)
                    "INVALID_RESPONSE_TYPE"
         | SrcOrchestrator =>
             error_result step ("lambda returned error: " +:+ body) "LAMBDA_ERROR"
         end),
     log ++ [req]).
Proof.
  intros Hreq Hnet Hbody Hst. destruct src; unfold_step;
    destruct (template_render rt (Step_InputTemplate step) state) as [| |payload];
    try done.
  - injection Hreq as <-. rewrite Hnet, Hbody.
    destruct (Z.eqb_spec (resp_StatusCode resp) StatusOK); done.
  - destruct (ports e !! Step_Lambda step) as [port|]; [|done].
    injection Hreq as <-. rewrite Hnet, Hbody.
    destruct (String.eqb (resp_ContentType resp) "application/json"); [|done].
    destruct (Z.eqb_spec (resp_StatusCode resp) StatusOK); done.
Qed.

(** * The registry *)

Lemma ExecuteStep_workflows_irrelevant src rt w w' p step state log :
  ExecuteStep src rt {| workflows := w; ports := p |} step state log
  = ExecuteStep src rt {| workflows := w'; ports := p |} step state log.
Proof. by destruct src. Qed.

Lemma chain_body_workflows_irrelevant src rt w w' p wf i step state calls log :
  chain_body src rt {| workflows := w; ports := p |} wf i step state calls log
  = chain_body src rt {| workflows := w'; ports := p |} wf i step state calls log.
Proof. by destruct src. Qed.

Lemma chain_loop_workflows_irrelevant src rt w w' p wf rest : ∀ i state calls log,
  chain_loop src rt {| workflows := w; ports := p |} wf i rest state calls log
  = chain_loop src rt {| workflows := w'; ports := p |} wf i rest state calls log.
Proof.
  induction rest as [|step rest IH]; intros i state calls log; simpl; [done|].
  rewrite (chain_body_workflows_irrelevant src rt w w' p).
  destruct (chain_body _ _ _ _ _ _ _ _ _); [apply IH|done].
Qed.

(** A run looks at the executor's registry only under the name it is given. *)
Lemma ExecuteChain_registry_frame src rt e e' name input log :
  ports e' = ports e →
  workflows e' !! name = workflows e !! name →
  ExecuteChain src rt e' name input log = ExecuteChain src rt e name input log.
Proof.
  destruct e as [w p], e' as [w' p']. simpl. intros -> Hw.
  unfold ExecuteChain. simpl. rewrite Hw.
  destruct (w !! name) as [wf|]; [|done].
  destruct (Workflow_Steps wf !! 0%nat); [|done].
  by rewrite (chain_loop_workflows_irrelevant src rt w' w p).
Qed.

(** X9.  A successful [LoadWorkflow] stores what the file at
    [workflows/<name>.yaml] parses to under the name it was given, whatever
    name the file declares, and changes nothing else: other names and the
    port table stay, runs of other workflows are the same runs, and loading
    the name again changes nothing. *)
Theorem LoadWorkflow_registers host e name e' :
  LoadWorkflow host e name = Ok e' →
  (∃ file workflow,
     os_ReadFile host (workflow_path name) = Ok file ∧
     yaml_Unmarshal host file = Ok workflow ∧
     workflows e' !! name = Some workflow) ∧
  (∀ other, other ≠ name → workflows e' !! other = workflows e !! other) ∧
  ports e' = ports e ∧
  LoadWorkflow host e' name = Ok e' ∧
  (∀ src rt other input log,
     other ≠ name →
     ExecuteChain src rt e' other input log = ExecuteChain src rt e other input log).
Proof.
  unfold LoadWorkflow.
  destruct (os_ReadFile host (workflow_path name)) as [file|err] eqn:Hread; [|done].
  destruct (yaml_Unmarshal host file) as [workflow|err] eqn:Hparse; [|done].
  intros [= <-]. simpl.
  split; [exists file, workflow; by rewrite lookup_insert_eq|].
  split; [intros other Hne; by rewrite lookup_insert_ne|].
  split; [done|]. split; [by rewrite insert_insert_eq|].
  intros src rt other input log Hne.
  apply ExecuteChain_registry_frame; [done|]. simpl. by rewrite lookup_insert_ne.
Qed.

Lemma GetWorkflows_keys visit : GetWorkflows visit = visit.*1.
Proof.
  unfold GetWorkflows.
  cut (∀ acc, foldl (λ workflows entry, workflows ++ [entry.1]) acc visit
              = acc ++ visit.*1).
  { intros H. by rewrite H. }
  induction visit as [|entry visit IH]; intros acc; simpl.
  - by rewrite (right_id_L [] (++)).
  - by rewrite IH, <- (assoc_L (++)).
Qed.

(** X10.  Whatever order the [range] takes, [GetWorkflows] returns the
    registered names and only those, each once: as many names as there are
    workflows. *)
Theorem GetWorkflows_lists_registered e visit :
  range_of e visit →
  NoDup (GetWorkflows visit) ∧
  length (GetWorkflows visit) = size (workflows e) ∧
  ∀ name, name ∈ GetWorkflows visit ↔ is_Some (workflows e !! name).
Proof.
  unfold range_of. intros Hv. rewrite GetWorkflows_keys.
  assert (Hk : visit.*1 ≡ₚ (map_to_list (workflows e)).*1) by (by rewrite Hv).
  split; [rewrite Hk; apply NoDup_fst_map_to_list|].
  split; [by rewrite Hk, length_fmap, length_map_to_list|].
  intros name. rewrite Hk, list_elem_of_fmap. split.
  - intros ([k wf] & -> & Hin). apply elem_of_map_to_list in Hin. simpl. eauto.
  - intros [wf Hwf]. exists (name, wf). split; [done|]. by apply elem_of_map_to_list.
Qed.

Lemma LoadWorkflow_loadable host e name :
  match loadable host name with
  | Some workflow =>
      LoadWorkflow host e name
      = Ok {| workflows := <[name := workflow]> (workflows e); ports := ports e |}
  | None => ∃ err, LoadWorkflow host e name = Err err
  end.
Proof.
  unfold loadable, LoadWorkflow.
  destruct (os_ReadFile host (workflow_path name)) as [file|err]; [|eauto].
  destruct (yaml_Unmarshal host file) as [workflow|err]; eauto.
Qed.

Lemma load_all_lookup host files name : ∀ e,
  workflows
    (foldl (λ executor file,
              match LoadWorkflow host executor (workflow_name file) with
              | Ok executor' => executor'
              | Err _ => executor
              end) e files) !! name
  = match loadable host name with
    | Some workflow =>
        if decide (name ∈ workflow_name <$> files) then Some workflow
        else workflows e !! name
    | None => workflows e !! name
    end.
Proof.
  induction files as [|file files IH]; intros e.
  - cbn [foldl]. destruct (loadable host name); [|done].
    destruct (decide _) as [H|H]; [|done]. by apply elem_of_nil in H.
  - cbn [foldl]. rewrite IH. clear IH. rewrite fmap_cons.
    pose proof (LoadWorkflow_loadable host e (workflow_name file)) as Hload.
    destruct (decide (workflow_name file = name)) as [<-|Hne].
    + destruct (loadable host (workflow_name file)) as [workflow|].
      * rewrite Hload. simpl. rewrite lookup_insert_eq.
        rewrite (decide_True (P := _ ∈ _ :: _)) by apply list_elem_of_here.
        by destruct (decide _).
      * by destruct Hload as [err ->].
    + assert (Hin : name ∈ workflow_name file :: (workflow_name <$> files)
                    ↔ name ∈ workflow_name <$> files).
      { rewrite elem_of_cons. intuition congruence. }
      assert (Hsame : workflows
                        match LoadWorkflow host e (workflow_name file) with
                        | Ok executor' => executor'
                        | Err _ => e
                        end !! name = workflows e !! name).
      { destruct (loadable host (workflow_name file)) as [workflow|].
        - rewrite Hload. simpl. by rewrite lookup_insert_ne.
        - by destruct Hload as [err ->]. }
      rewrite Hsame. destruct (loadable host name); [|done].
      destruct (decide (name ∈ workflow_name <$> files)) as [H|H].
      * by rewrite decide_True by (by apply Hin).
      * by rewrite decide_False by (by rewrite Hin).
Qed.

Lemma load_all_ports host files : ∀ e,
  ports
    (foldl (λ executor file,
              match LoadWorkflow host executor (workflow_name file) with
              | Ok executor' => executor'
              | Err _ => executor
              end) e files)
  = ports e.
Proof.
  induction files as [|file files IH]; intros e; simpl; [done|].
  rewrite IH. pose proof (LoadWorkflow_loadable host e (workflow_name file)) as Hload.
  destruct (loadable host (workflow_name file)); [by rewrite Hload|].
  by destruct Hload as [err ->].
Qed.

(** X11.  The executor [NewServer] builds holds, under the base name of
    every matched file whose workflow file reads and parses, what that file
    parses to, and nothing else; a file that fails to load is skipped and
    does not keep the others from loading.  Its port table is the one of a
    new executor. *)
Theorem NewServer_registry src host name :
  workflows (executor (NewServer src host)) !! name
  = (if decide (name ∈ workflow_name <$>
                         match filepath_Glob host "workflows/*.yaml" with
                         | Ok files => files
                         | Err _ => []
                         end)
     then loadable host name else None) ∧
  ports (executor (NewServer src host)) = ports (NewChainExecutor src).
Proof.
  unfold NewServer. simpl. rewrite load_all_lookup, load_all_ports. simpl.
  rewrite lookup_empty. split; [|done].
  destruct (loadable host name); [done|]. by destruct (decide _).
Qed.

(** ** Names of workflow files *)

Lemma list_ascii_of_string_app s t :
  String.list_ascii_of_string (s +:+ t)
  = String.list_ascii_of_string s ++ String.list_ascii_of_string t.
Proof. induction s as [|c s IH]; simpl; [done|]. by rewrite IH. Qed.

Lemma string_of_list_ascii_app l k :
  String.string_of_list_ascii (l ++ k)
  = String.string_of_list_ascii l +:+ String.string_of_list_ascii k.
Proof. induction l as [|c l IH]; simpl; [done|]. by rewrite IH. Qed.

Lemma take_to_slash_app l k :
  forallb (λ c, negb (is_slash c)) l = true →
  take_to_slash (l ++ "/"%char :: k) = l.
Proof.
  induction l as [|c l IH]; simpl; [done|].
  intros [Hc Hl]%andb_prop. destruct (is_slash c); [done|]. by rewrite IH.
Qed.

Lemma forallb_reverse {A} (f : A → bool) l :
  forallb f (reverse l) = forallb f l.
Proof.
  induction l as [|x l IH]; [done|].
  rewrite reverse_cons, forallb_app, IH. simpl. rewrite andb_true_r. apply andb_comm.
Qed.

Lemma strings_TrimSuffix_app s suffix :
  strings_TrimSuffix (s +:+ suffix) suffix = s.
Proof.
  unfold strings_TrimSuffix. rewrite list_ascii_of_string_app, length_app.
  set (l := String.list_ascii_of_string s).
  set (suf := String.list_ascii_of_string suffix).
  replace (length l + length suf - length suf)%nat with (length l) by lia.
  rewrite drop_app_length, take_app_length.
  rewrite decide_True by (split; [lia|done]).
  apply String.string_of_list_ascii_of_string.
Qed.

Lemma filepath_Base_workflow_path x :
  no_slash x = true →
  filepath_Base (workflow_path x) = x +:+ ".yaml".
Proof.
  intros Hx. unfold filepath_Base, workflow_path.
  change ("workflows/" +:+ x +:+ ".yaml")
    with (String "w" ("orkflows/" +:+ x +:+ ".yaml")).
  cbv iota beta.
  change (String "w" ("orkflows/" +:+ x +:+ ".yaml"))
    with ("workflows" +:+ "/" +:+ x +:+ ".yaml").
  rewrite !list_ascii_of_string_app, !reverse_app. simpl.
  set (lx := String.list_ascii_of_string x) in *.
  change (reverse (String.list_ascii_of_string ".yaml"))
    with ["l"; "m"; "a"; "y"; "."]%char.
  change (reverse (String.list_ascii_of_string "/")) with ["/"%char].
  simpl.
  change (reverse ["/"%char]) with ["/"%char].
  rewrite <- (assoc_L (++)). cbn [app].
  rewrite (take_to_slash_app (reverse lx))
    by (rewrite forallb_reverse; apply Hx).
  rewrite !reverse_cons, reverse_involutive, <- !(assoc_L (++)).
  cbn [app reverse rev_append].
  change (reverse []) with (@nil ascii). cbn [app].
  destruct lx as [|c lx'] eqn:Hl; cbn [app].
  - unfold lx in Hl. destruct x; [done|discriminate].
  - rewrite <- (String.string_of_list_ascii_of_string x).
    fold lx. rewrite Hl. cbn [String.string_of_list_ascii]. f_equal.
    by rewrite string_of_list_ascii_app.
Qed.

(** X12.  The name [NewServer] derives from a matched file leads
    [LoadWorkflow] back to that file: for a name without a slash, the base
    name of [workflows/<name>.yaml] without its suffix is the name. *)
Theorem workflow_name_of_path x :
  no_slash x = true →
  workflow_name (workflow_path x) = x.
Proof.
  intros Hx. unfold workflow_name.
  by rewrite filepath_Base_workflow_path, strings_TrimSuffix_app.
Qed.


(** * The server's handlers *)

(** The context of what a run returns: the context it was started with, or
    none. *)
Lemma ExecuteChain_output_context src rt e name input log out :
  run_outcome (ExecuteChain src rt e name input log) = Returned (Ok out) →
  (WorkflowOutput_Error out = None ∧
   WorkflowOutput_Context out = WorkflowInput_Context input) ∨
  (∃ err, out = error_output err).
Proof.
  destruct (workflows e !! name) as [wf|] eqn:Hwf.
  2:{ unfold ExecuteChain. rewrite Hwf. done. }
  destruct (ExecuteChain_first_step src rt e wf name input log Hwf)
    as [[first Hf]|[_ ->]]; [|done].
  destruct (run_unroll src rt e wf name input log first Hwf Hf)
    as [(s' & c' & l' & Hinv & Hst & ->)|(j & step & rest' & sj & cj & lj & Hinv & Hst & Hb)].
  - destruct Hst as (_ & _ & _ & Hctx & _).
    rewrite firstn_all in Hctx.
    unfold finish_chain. rewrite Nat.sub_1_r, <- last_lookup.
    destruct (last (Workflow_Steps wf)) as [lastStep|] eqn:Hlast.
    2:{ apply last_None in Hlast. rewrite Hlast in Hf. done. }
    simpl. intros [= <-]. left. split; [done|]. by apply Hctx.
  - chain_body_cases src rt e wf j step sj cj lj; try discriminate;
      injection Hb as <-; simpl; try done.
    + intros [= <-]. right. eauto.
    + destruct_call_result; [|done]. intros [= <-]. right. eauto.
Qed.

(** X13.  [handleWorkflow] answers every request it does not crash on with
    the CORS headers and Content-Type [application/json].  When it answers
    with a workflow output the status is 200, also when the output carries a
    step's error, and the output has no context: the handler starts every
    run without one.  Without a body it answers only OPTIONS; and 405 and 400
    are answered before any lambda is called. *)
Theorem handleWorkflow_reply src rt json_Decode s r log :
  match handleWorkflow src rt json_Decode s new_writer r log with
  | (Replied w, log') =>
      w_Header w = w_Header (SetCORSHeaders new_writer) ∧
      match w_Body w with
      | [] => r_Method r = "OPTIONS" ∧ w_Status w = Some StatusOK ∧ log' = log
      | [OutputPayload output] =>
          r_Method r = "POST" ∧
          w_Status w = Some StatusOK ∧
          WorkflowOutput_Context output = None ∧
          (WorkflowOutput_Error output = None ∨ ∃ err, output = error_output err)
      | [ErrorMessage _] =>
          (w_Status w = Some StatusMethodNotAllowed ∧ r_Method r ≠ "POST" ∧ log' = log) ∨
          (w_Status w = Some StatusBadRequest ∧ log' = log) ∨
          (w_Status w = Some StatusInternalServerError ∧ r_Method r = "POST")
      | _ => False
      end
  | (Crashed _, _) => r_Method r = "POST"
  end.
Proof.
  unfold handleWorkflow.
  destruct (String.eqb_spec (r_Method r) "OPTIONS") as [Hopt|Hopt]; [done|].
  destruct (String.eqb_spec (r_Method r) "POST") as [Hpost|Hpost]; simpl.
  2:{ split; [done|]. left. done. }
  destruct (split_slashes (trim_slashes (r_URL_Path r))) as [|prefix [|workflowName [|]]];
    simpl; try (split; [done|]; right; left; done).
  unfold DecodeJSONBody.
  destruct (json_Decode (r_Body r)) as [input|err]; simpl;
    [|split; [done|]; right; left; done].
  pose proof (ExecuteChain_output_context src rt (executor s) workflowName
                {| WorkflowInput_Data := input; WorkflowInput_Context := None |} log)
    as Hctx.
  destruct (run_outcome _) as [[output|err]|msg]; simpl; [|by auto|done].
  split; [done|]. split; [done|]. split; [done|].
  destruct (Hctx output eq_refl) as [[Herr Hc]|[err ->]]; [by auto|].
  split; [done|]. right. eauto.
Qed.

(** The step [handleLambda] builds has no template: what it sends does not
    depend on the state. *)
Lemma ExecuteStep_lambda_step src rt e lambdaName state state' log :
  ExecuteStep src rt e (lambda_step lambdaName) state log
  = ExecuteStep src rt e (lambda_step lambdaName) state' log.
Proof. by destruct src. Qed.

Lemma ExecuteStep_lambda_step_sent src rt e lambdaName state log :
  ∃ sent, snd (ExecuteStep src rt e (lambda_step lambdaName) state log) = log ++ sent ∧
          (length sent ≤ 1)%nat ∧
          Forall (λ req, req_body req = "" ∧ req_contentType req = "application/json") sent.
Proof.
  destruct (step_request src rt e (lambda_step lambdaName) state) as [req|] eqn:Hreq.
  - exists [req]. rewrite (ExecuteStep_request src rt e _ _ _ _ Hreq).
    split; [done|]. split; [simpl; lia|]. constructor; [|done].
    revert Hreq. unfold step_request. simpl.
    destruct (lambdaURL src e _); [|done]. by intros [= <-].
  - destruct (ExecuteStep_no_request src rt e _ _ log Hreq) as [err ->].
    exists []. simpl. rewrite (right_id_L [] (++)).
    split; [done|]. split; [lia|done].
Qed.

(** X14.  [handleLambda] never forwards the input it is given: the step it
    builds has no input template, so the one request it may send has an
    empty body, and two requests with the same method and path whose bodies
    both decode get the same reply and cause the same traffic, whatever the
    bodies hold. *)
Theorem handleLambda_ignores_input src rt json_Decode s w r r' log input input' :
  r_Method r' = r_Method r →
  r_URL_Path r' = r_URL_Path r →
  json_Decode (r_Body r) = Ok input →
  json_Decode (r_Body r') = Ok input' →
  handleLambda src rt json_Decode s w r' log = handleLambda src rt json_Decode s w r log ∧
  ∃ sent, snd (handleLambda src rt json_Decode s w r log) = log ++ sent ∧
          (length sent ≤ 1)%nat ∧
          Forall (λ req, req_body req = "" ∧ req_contentType req = "application/json") sent.
Proof.
  intros Hm Hp Hd Hd'. unfold handleLambda, DecodeJSONBody.
  rewrite Hm, Hp, Hd, Hd'.
  assert (Hnone : ∃ sent : list Request, log = log ++ sent ∧ (length sent ≤ 1)%nat ∧
            Forall (λ req, req_body req = "" ∧ req_contentType req = "application/json")
              sent).
  { exists []. rewrite (right_id_L [] (++)). split; [done|]. split; [simpl; lia|done]. }
  destruct (String.eqb (r_Method r) "OPTIONS"); [done|].
  destruct (negb (String.eqb (r_Method r) "POST")); [done|].
  destruct (split_slashes (trim_slashes (r_URL_Path r))) as [|prefix [|lambdaName [|]]];
    try done.
  rewrite (ExecuteStep_lambda_step src rt (executor s) lambdaName
             (lambda_state lambdaName input') (lambda_state lambdaName input)).
  split; [done|].
  destruct (ExecuteStep_lambda_step_sent src rt (executor s) lambdaName
              (lambda_state lambdaName input) log) as (sent & Hsent & Hlen & Hall).
  exists sent. split; [|done]. rewrite <- Hsent.
  destruct (ExecuteStep _ _ _ _ _ _) as [[result|err] log']; simpl; [|done].
  by destruct (StepResult_Error result).
Qed.

(** * The lambdas *)

(** X15.  [user_create] never answers 409.  [db.CreateUser] wraps every
    error of the insert, so the handler's test for a [*pq.Error] with code
    23505 never holds: a duplicate email, like any other failure of the
    insert, is answered 500 [Failed to create user]. *)
Theorem user_create_never_conflict env r :
  w_Status (UserCreate.handleRequest env new_writer r) ≠ Some StatusConflict ∧
  ∀ input dbConn err,
    r_Method r = "POST" →
    decode_CreateUserInput env (r_Body r) = Ok input →
    sql_Open env = Value dbConn →
    insert_returning dbConn (CreateUserInput_Email input) (CreateUserInput_Name input)
    = Failure err →
    w_Status (UserCreate.handleRequest env new_writer r) = Some StatusInternalServerError ∧
    w_Body (UserCreate.handleRequest env new_writer r)
    = [PlainText ("Failed to create user" +:+ newline)].
Proof.
  split.
  - unfold UserCreate.handleRequest.
    destruct (String.eqb (r_Method r) "OPTIONS"); [done|].
    destruct (negb (String.eqb (r_Method r) "POST")); [done|].
    destruct (decode_CreateUserInput env (r_Body r)) as [input|]; [|done].
    destruct (sql_Open env) as [dbConn|]; [|done].
    unfold CreateUser.
    by destruct (insert_returning dbConn _ _).
  - intros input dbConn err Hm Hd Ho Hi. unfold UserCreate.handleRequest, CreateUser.
    rewrite Hm, Hd, Ho, Hi. done.
Qed.

(** What [http.Error] leaves in a writer nothing has been written to. *)
Lemma http_Error_reply w error code :
  w_Status w = None →
  w_Body w = [] →
  w_Status (http_Error w error code) = Some code ∧
  w_Header (http_Error w error code) !! "Content-Type" = Some "text/plain; charset=utf-8" ∧
  w_Body (http_Error w error code) = [PlainText (error +:+ newline)].
Proof.
  intros Hs Hb. unfold http_Error, Write, WriteHeader. simpl. rewrite Hs. simpl.
  rewrite Hb. split; [done|]. split; [|done].
  by rewrite lookup_insert_ne, lookup_insert_eq.
Qed.

Lemma http_Error_failure w error code :
  w_Status w = None →
  w_Body w = [] →
  w_Status (http_Error w error code) ≠ Some StatusOK →
  ∃ msg, w_Header (http_Error w error code) !! "Content-Type"
         = Some "text/plain; charset=utf-8" ∧
         w_Body (http_Error w error code) = [PlainText (msg +:+ newline)].
Proof.
  intros Hs Hb _. exists error. by apply http_Error_reply.
Qed.

(** What a lambda answers with a status other than 200 it answers through
    [http.Error]. *)
Lemma lambda_failure_reply lambda env r w :
  lambda_handler lambda env new_writer r = Replied w →
  w_Status w ≠ Some StatusOK →
  ∃ msg, w_Header w !! "Content-Type" = Some "text/plain; charset=utf-8" ∧
         w_Body w = [PlainText (msg +:+ newline)].
Proof.
  destruct lambda; cbn [lambda_handler].
  - intros [= <-]. unfold UserCreate.handleRequest.
    destruct (String.eqb (r_Method r) "OPTIONS"); [done|].
    destruct (negb (String.eqb (r_Method r) "POST")); [by apply http_Error_failure|].
    destruct (decode_CreateUserInput env (r_Body r)) as [input|];
      [|by apply http_Error_failure].
    destruct (sql_Open env) as [dbConn|]; [|by apply http_Error_failure].
    destruct (CreateUser dbConn input) as [user|[]];
      [done|by apply http_Error_failure| |by apply http_Error_failure..].
    destruct (String.eqb Code "23505"); by apply http_Error_failure.
  - intros [= <-]. unfold UserRead.handleRequest.
    destruct (String.eqb (r_Method r) "OPTIONS"); [done|].
    destruct (negb (String.eqb (r_Method r) "GET")); [by apply http_Error_failure|].
    destruct (decode_ReadUserInput env (r_Body r)) as [input|];
      [|by apply http_Error_failure].
    destruct (sql_Open env) as [dbConn|]; [|by apply http_Error_failure].
    destruct (GetUserByID dbConn _) as [user|]; [done|by apply http_Error_failure].
  - unfold UserUpdate.handleRequest.
    destruct (String.eqb (r_Method r) "OPTIONS"); [by intros [= <-]|].
    destruct (negb (String.eqb (r_Method r) "PUT"));
      [intros [= <-]; by apply http_Error_failure|].
    destruct (r_URL_Path r) as [|c idStr]; [done|].
    destruct (strconv_Atoi env idStr) as [id|];
      [|intros [= <-]; by apply http_Error_failure].
    destruct (decode_UpdateUserInput env (r_Body r)) as [input|];
      [|intros [= <-]; by apply http_Error_failure].
    destruct (sql_Open env) as [dbConn|]; [|intros [= <-]; by apply http_Error_failure].
    destruct (UpdateUser dbConn id input) as [user|]; intros [= <-];
      [done|by apply http_Error_failure].
Qed.

(** * The executor in front of the lambdas *)

Lemma append_empty_r (s : string) : s +:+ "" = s.
Proof.
  induction s as [|c s IH]; [done|].
  change (String c (s +:+ "") = String c s). by rewrite IH.
Qed.

(** What [ExecuteStep] makes of an answer written by [http.Error] with a
    status other than 200. *)
Lemma ExecuteStep_http_Error src rt e step state log req json_Marshal w msg :
  step_request src rt e step state = Some req →
  http_respond rt log req = Ok (response_of json_Marshal w) →
  w_Status w ≠ Some StatusOK →
  w_Status w ≠ None →
  w_Header w !! "Content-Type" = Some "text/plain; charset=utf-8" →
  w_Body w = [PlainText (msg +:+ newline)] →
  ExecuteStep src rt e step state log
  = (Ok (match src with
         | SrcOrchestrator =>
             error_result step ("lambda returned error: " +:+ msg +:+ newline)
               "LAMBDA_ERROR"
         | SrcPart002 =>
             error_result step
               ("lambda returned unexpected Content-Type: text/plain; charset=utf-8, body: "
                  +:+ msg +:+ newline)
               "INVALID_RESPONSE_TYPE"
         end),
     log ++ [req]).
Proof.
  intros Hreq Hnet Hst Hst' Hct Hbody.
  assert (Hcode : (default StatusOK (w_Status w) =? StatusOK) = false).
  { destruct (w_Status w) as [code|]; [|done]. simpl.
    apply Z.eqb_neq. intros ->. done. }
  destruct src; unfold_step;
    destruct (template_render rt (Step_InputTemplate step) state) as [| |payload];
    try discriminate.
  - injection Hreq as <-. rewrite Hnet. simpl. rewrite Hbody, Hcode. simpl.
    by rewrite append_empty_r.
  - destruct (ports e !! Step_Lambda step) as [port|]; [|discriminate].
    injection Hreq as <-. rewrite Hnet. simpl. rewrite Hbody, Hct. simpl.
    by rewrite append_empty_r.
Qed.

(** [user_read] and [user_update] refuse a POST. *)
Lemma lambda_refuses_post lambda env req :
  lambda = user_read ∨ lambda = user_update →
  lambda_handler lambda env new_writer (posted req)
  = Replied (http_Error
               (Header_Set
                  (Header_Set
                     (Header_Set new_writer "Access-Control-Allow-Origin" "*")
                     "Access-Control-Allow-Methods"
                     match lambda with user_read => "GET, OPTIONS" | _ => "PUT, OPTIONS" end)
                  "Access-Control-Allow-Headers" "Content-Type")
               "Method not allowed" StatusMethodNotAllowed).
Proof. by intros [-> | ->]. Qed.

(** X16.  The executor cannot get a result from [user_read] or
    [user_update]: it calls every lambda with a POST, which these two answer
    405 through [http.Error], so [ExecuteStep] returns a result that carries
    an error, [LAMBDA_ERROR] in [orchestrator/executor.go] and
    [INVALID_RESPONSE_TYPE] in [unnamed/part_002], whatever the step's input
    is and whatever the database holds. *)
Theorem ExecuteStep_post_refused src rt e step state log req lambda env json_Marshal :
  lambda = user_read ∨ lambda = user_update →
  step_request src rt e step state = Some req →
  http_respond rt log req = served_by lambda env json_Marshal req →
  ExecuteStep src rt e step state log
  = (Ok (match src with
         | SrcOrchestrator =>
             error_result step
               ("lambda returned error: Method not allowed" +:+ newline)
               "LAMBDA_ERROR"
         | SrcPart002 =>
             error_result step
               ("lambda returned unexpected Content-Type: text/plain; charset=utf-8, body: Method not allowed"
                  +:+ newline)
               "INVALID_RESPONSE_TYPE"
         end),
     log ++ [req]).
Proof.
  intros Hl Hreq Hnet. unfold served_by in Hnet.
  rewrite (lambda_refuses_post lambda env req Hl) in Hnet.
  destruct (http_Error_reply
              (Header_Set
                 (Header_Set
                    (Header_Set new_writer "Access-Control-Allow-Origin" "*")
                    "Access-Control-Allow-Methods"
                    match lambda with user_read => "GET, OPTIONS" | _ => "PUT, OPTIONS" end)
                 "Access-Control-Allow-Headers" "Content-Type")
              "Method not allowed" StatusMethodNotAllowed eq_refl eq_refl)
    as (Hst & Hct & Hbody).
  rewrite (ExecuteStep_http_Error src rt e step state log req json_Marshal _
             "Method not allowed" Hreq Hnet); [by destruct src|..]; done.
Qed.

(** X17.  In [unnamed/part_002] a failure of a lambda of the repository is
    never reported as [LAMBDA_ERROR]: the three lambdas write every status
    other than 200 through [http.Error], which sets Content-Type
    [text/plain], and [ExecuteStep] looks at the Content-Type first. *)
Theorem Part002_lambda_failure rt e step state log req lambda env json_Marshal resp :
  step_request SrcPart002 rt e step state = Some req →
  http_respond rt log req = served_by lambda env json_Marshal req →
  served_by lambda env json_Marshal req = Ok resp →
  resp_StatusCode resp ≠ StatusOK →
  ∃ msg,
    resp_Body resp = Ok (msg +:+ newline) ∧
    ExecuteStep SrcPart002 rt e step state log
    = (Ok (error_result step
             ("lambda returned unexpected Content-Type: text/plain; charset=utf-8, body: "
                +:+ msg +:+ newline)
             "INVALID_RESPONSE_TYPE"),
       log ++ [req]).
Proof.
  intros Hreq Hnet Hserved Hcode. rewrite Hserved in Hnet. unfold served_by in Hserved.
  destruct (lambda_handler lambda env new_writer (posted req)) as [w|] eqn:Hw;
    [|discriminate].
  injection Hserved as <-.
  assert (Hst : w_Status w ≠ Some StatusOK).
  { intros Hs. apply Hcode. simpl. by rewrite Hs. }
  assert (Hst' : w_Status w ≠ None).
  { intros Hs. apply Hcode. simpl. by rewrite Hs. }
  destruct (lambda_failure_reply lambda env (posted req) w Hw Hst) as (msg & Hct & Hbody).
  exists msg. split; [simpl; rewrite Hbody; simpl; by rewrite append_empty_r|].
  exact (ExecuteStep_http_Error SrcPart002 rt e step state log req json_Marshal w msg
           Hreq Hnet Hst Hst' Hct Hbody).
Qed.

Lemma step_request_url src rt e step state req :
  step_request src rt e step state = Some req →
  lambdaURL src e step = Some (req_url req).
Proof.
  unfold step_request.
  destruct (template_render rt (Step_InputTemplate step) state); try discriminate.
  destruct (lambdaURL src e step); [|discriminate]. by intros [= <-].
Qed.

(** A step whose lambda is [user_read] or [user_update] never returns a
    result without an error. *)
Lemma ExecuteStep_never_succeeds src rt e step lambda env json_Marshal url state log
    result log' :
  lambda = user_read ∨ lambda = user_update →
  lambdaURL src e step = Some url →
  (∀ sent req, req_url req = url →
               http_respond rt sent req = served_by lambda env json_Marshal req) →
  ExecuteStep src rt e step state log = (Ok result, log') →
  StepResult_Error result ≠ None.
Proof.
  intros Hl Hurl Hnet HE.
  destruct (ExecuteStep_Ok src rt e _ _ _ _ _ HE) as (req & Hreq & _).
  pose proof (step_request_url _ _ _ _ _ _ Hreq) as Hu.
  rewrite Hurl in Hu. injection Hu as Hu.
  pose proof (Hnet log req (eq_sym Hu)) as Hresp. unfold served_by in Hresp.
  rewrite (lambda_refuses_post lambda env req Hl) in Hresp.
  destruct (http_Error_reply
              (Header_Set
                 (Header_Set
                    (Header_Set new_writer "Access-Control-Allow-Origin" "*")
                    "Access-Control-Allow-Methods"
                    match lambda with user_read => "GET, OPTIONS" | _ => "PUT, OPTIONS" end)
                 "Access-Control-Allow-Headers" "Content-Type")
              "Method not allowed" StatusMethodNotAllowed eq_refl eq_refl)
    as (Hst & Hct & Hbody).
  rewrite (ExecuteStep_http_Error src rt e step state log req json_Marshal _
             "Method not allowed" Hreq Hresp) in HE by done.
  injection HE as <- _. by destruct src.
Qed.

(** A run whose state is marked completed, or that returns an output
    without an error, has gone through the whole loop. *)
Lemma run_completed_inv src rt e wf name input log :
  workflows e !! name = Some wf →
  (WorkflowState_Completed (run_state (ExecuteChain src rt e name input log)) = true ∨
   ∃ out, run_outcome (ExecuteChain src rt e name input log) = Returned (Ok out) ∧
          WorkflowOutput_Error out = None) →
  ∃ s' c' l',
    chain_inv src rt e wf (WorkflowInput_Context input) log
      (length (Workflow_Steps wf)) [] s' c' l' ∧
    ExecuteChain src rt e name input log = finish_chain wf (LoopDone s' c' l').
Proof.
  intros Hwf Hdone.
  destruct (ExecuteChain_first_step src rt e wf name input log Hwf)
    as [[first Hf]|[_ Hrun]].
  2:{ rewrite Hrun in Hdone. simpl in Hdone. destruct Hdone as [|(out & ? & _)]; done. }
  destruct (run_unroll src rt e wf name input log first Hwf Hf)
    as [(s' & c' & l' & Hinv & _ & Hrun)|(j & step & rest' & sj & cj & lj & _ & Hst & Hb)];
    [by eauto|].
  exfalso. destruct Hst as (Hcomp & _).
  chain_body_cases src rt e wf j step sj cj lj; try discriminate;
    injection Hb as Hb; rewrite <- Hb in Hdone; simpl in Hdone.
  - destruct Hdone as [|(out & [= <-] & ?)]; simpl in *; congruence.
  - destruct (fst (ExecuteStep src rt e errorStep _ log1));
      destruct Hdone as [|(out & Hout & ?)]; simpl in *; try congruence.
    injection Hout as <-. done.
  - destruct Hdone as [|(out & ? & _)]; simpl in *; congruence.
  - destruct Hdone as [|(out & ? & _)]; simpl in *; congruence.
Qed.

(** X18.  A workflow with a step whose lambda is [user_read] or
    [user_update] never completes, whatever its input and whatever the other
    lambdas answer: the state is never marked completed and every output the
    run returns carries an error. *)
Theorem ExecuteChain_post_refused src rt e wf name input log k step lambda env
    json_Marshal url :
  workflows e !! name = Some wf →
  Workflow_Steps wf !! k = Some step →
  lambda = user_read ∨ lambda = user_update →
  lambdaURL src e step = Some url →
  (∀ sent req, req_url req = url →
               http_respond rt sent req = served_by lambda env json_Marshal req) →
  WorkflowState_Completed (run_state (ExecuteChain src rt e name input log)) = false ∧
  ∀ out, run_outcome (ExecuteChain src rt e name input log) = Returned (Ok out) →
         WorkflowOutput_Error out ≠ None.
Proof.
  intros Hwf Hk Hl Hurl Hnet.
  cut (¬ (WorkflowState_Completed (run_state (ExecuteChain src rt e name input log)) = true ∨
          ∃ out, run_outcome (ExecuteChain src rt e name input log) = Returned (Ok out) ∧
                 WorkflowOutput_Error out = None)).
  { intros Hnot. split.
    - destruct (WorkflowState_Completed _); [|done]. destruct Hnot. by left.
    - intros out Hout Herr. destruct Hnot. right. eauto. }
  intros Hdone.
  destruct (run_completed_inv src rt e wf name input log Hwf Hdone)
    as (s' & c' & l' & Hinv & Hrun).
  destruct Hinv as (_ & Hlen & Hsteps & Hall & _).
  rewrite firstn_all in Hsteps.
  destruct (lookup_lt_is_Some_2 c' k) as [c Hc].
  { rewrite Hlen. by eapply lookup_lt_Some. }
  assert (Hcs : call_step c = step).
  { assert (Hm : map call_step c' !! k = Some (call_step c)).
    { rewrite lookup_map, Hc. done. }
    rewrite Hsteps, Hk in Hm. congruence. }
  pose proof (proj1 (Forall_lookup _ _) Hall k c Hc) as [Hrole (result & Hres & Herr)].
  assert (Hkc : run_calls (ExecuteChain src rt e name input log) !! k = Some c).
  { rewrite Hrun. by destruct (finish_chain_done wf s' c' l') as (_ & -> & _). }
  destruct (run_call src rt e wf _ _ _ _ _ Hwf Hkc)
    as (j & stepj & rest' & sj & cj & lj & _ & _ &
        [[-> ->]|(_ & ? & ? & ? & ? & _ & _ & _ & _ & ->)]); [|done].
  simpl in Hcs, Hres. subst stepj.
  destruct (ExecuteStep src rt e step sj lj) as [r log'] eqn:HE. simpl in Hres. subst r.
  by apply (ExecuteStep_never_succeeds src rt e step lambda env json_Marshal url sj lj
              result log' Hl Hurl Hnet HE).
Qed.

(** * Routes of the server *)

Lemma drop_slashes_free c l :
  is_slash c = false → drop_slashes (c :: l) = c :: l.
Proof. intros Hc. simpl. by rewrite Hc. Qed.

Lemma split_slashes_go_free l : ∀ piece,
  forallb (λ c, negb (is_slash c)) l = true →
  split_slashes_go piece l = [String.string_of_list_ascii (reverse piece ++ l)].
Proof.
  induction l as [|c l IH]; intros piece Hl; simpl.
  - by rewrite (right_id_L [] (++)).
  - simpl in Hl. apply andb_prop in Hl as [Hc Hl].
    destruct (is_slash c); [done|]. rewrite (IH _ Hl), reverse_cons.
    by rewrite <- (assoc_L (++)).
Qed.

Lemma split_slashes_go_app l rest : ∀ piece,
  forallb (λ c, negb (is_slash c)) l = true →
  split_slashes_go piece (l ++ "/"%char :: rest)
  = String.string_of_list_ascii (reverse piece ++ l) :: split_slashes_go [] rest.
Proof.
  induction l as [|c l IH]; intros piece Hl; simpl.
  - by rewrite (right_id_L [] (++)).
  - simpl in Hl. apply andb_prop in Hl as [Hc Hl].
    destruct (is_slash c); [done|]. rewrite (IH _ Hl), reverse_cons.
    by rewrite <- (assoc_L (++)).
Qed.

Lemma no_slash_head s :
  no_slash s = true → s ≠ "" →
  ∃ c l, String.list_ascii_of_string s = c :: l ∧ is_slash c = false.
Proof.
  unfold no_slash. destruct s as [|c s]; [done|]. simpl.
  intros [Hc _]%andb_prop _. exists c, (String.list_ascii_of_string s).
  split; [done|]. by destruct (is_slash c).
Qed.

Lemma no_slash_last s :
  no_slash s = true → s ≠ "" →
  ∃ c l, reverse (String.list_ascii_of_string s) = c :: l ∧ is_slash c = false.
Proof.
  unfold no_slash. intros Hs Hne.
  rewrite <- forallb_reverse in Hs.
  destruct (reverse (String.list_ascii_of_string s)) as [|c l] eqn:Hr.
  { apply (f_equal reverse) in Hr. rewrite reverse_involutive in Hr.
    destruct s; [done|discriminate]. }
  simpl in Hs. apply andb_prop in Hs as [Hc _]. exists c, l.
  split; [done|]. by destruct (is_slash c).
Qed.

Lemma drop_slashes_app a b :
  drop_slashes a ≠ [] → drop_slashes (a ++ b) = drop_slashes a ++ b.
Proof.
  induction a as [|x a IH]; simpl; [done|].
  destruct (is_slash x); [apply IH|done].
Qed.

(** The two parts of the path of a route: [/<prefix>/<name>], with or
    without a slash at its end. *)
Lemma route_parts prefix name (tail : string) :
  no_slash prefix = true → prefix ≠ "" →
  no_slash name = true → name ≠ "" →
  tail = "" ∨ tail = "/" →
  split_slashes (trim_slashes ("/" +:+ prefix +:+ "/" +:+ name +:+ tail))
  = [prefix; name].
Proof.
  intros Hp Hpne Hn Hnne Htail.
  destruct (no_slash_head prefix Hp Hpne) as (cp & lp & Hlp & Hcp).
  destruct (no_slash_last name Hn Hnne) as (cn & ln & Hln & Hcn).
  unfold split_slashes, trim_slashes.
  rewrite String.list_ascii_of_string_of_list_ascii.
  rewrite !list_ascii_of_string_app.
  change (String.list_ascii_of_string "/") with ["/"%char].
  set (LP := String.list_ascii_of_string prefix) in *.
  set (LN := String.list_ascii_of_string name) in *.
  set (LT := String.list_ascii_of_string tail) in *.
  assert (Htl : drop_slashes (reverse (LN ++ LT)) = reverse LN).
  { unfold LT. destruct Htail as [-> | ->]; simpl.
    - rewrite (right_id_L [] (++)), Hln. by apply drop_slashes_free.
    - rewrite reverse_app. simpl. rewrite Hln. by apply drop_slashes_free. }
  change (drop_slashes (["/"%char] ++ LP ++ ["/"%char] ++ LN ++ LT))
    with (drop_slashes (LP ++ ["/"%char] ++ LN ++ LT)).
  rewrite (drop_slashes_app LP) by (rewrite Hlp, drop_slashes_free; done).
  rewrite Hlp, (drop_slashes_free cp lp Hcp), <- Hlp.
  rewrite (reverse_app LP), (reverse_app ["/"%char]).
  rewrite <- (assoc_L (++)).
  rewrite drop_slashes_app by (rewrite Htl, Hln; done).
  rewrite Htl, !reverse_app, !reverse_involutive.
  change (reverse ["/"%char]) with ["/"%char].
  rewrite <- (assoc_L (++)). cbn [app].
  rewrite split_slashes_go_app by apply Hp.
  rewrite split_slashes_go_free by apply Hn.
  change (reverse []) with (@nil ascii). cbn [app].
  unfold LP, LN. by rewrite !String.string_of_list_ascii_of_string.
Qed.

(** X19.  A POST to [/workflow/<name>], with or without a slash at the end,
    runs the workflow registered under [name] on the decoded body as data,
    without a context, and answers as the run ends: 200 with the output, 500
    with the text of the Go error, and no answer when the run panics.  The
    requests the run sent are the traffic of the handler. *)
Theorem handleWorkflow_route src rt json_Decode s r log name tail input :
  r_Method r = "POST" →
  r_URL_Path r = "/workflow/" +:+ name +:+ tail →
  no_slash name = true → name ≠ "" →
  tail = "" ∨ tail = "/" →
  json_Decode (r_Body r) = Ok input →
  handleWorkflow src rt json_Decode s new_writer r log
  = (match run_outcome
             (ExecuteChain src rt (executor s) name
                {| WorkflowInput_Data := input; WorkflowInput_Context := None |} log)
     with
     | Returned (Ok output) =>
         Replied (RespondJSON (SetCORSHeaders new_writer) StatusOK (OutputPayload output))
     | Returned (Err err) =>
         Replied (RespondError (SetCORSHeaders new_writer) StatusInternalServerError err)
     | Panicked msg => Crashed msg
     end,
     run_log (ExecuteChain src rt (executor s) name
                {| WorkflowInput_Data := input; WorkflowInput_Context := None |} log)).
Proof.
  intros Hm Hp Hn Hne Htail Hd. unfold handleWorkflow, DecodeJSONBody.
  rewrite Hm, Hp, Hd.
  change ("/workflow/" +:+ name +:+ tail) with ("/" +:+ "workflow" +:+ "/" +:+ name +:+ tail).
  rewrite (route_parts "workflow" name tail eq_refl) by done.
  simpl. by destruct (run_outcome _) as [[|]|].
Qed.


(** * The database layer *)

Lemma Value_fmap_inj {A} (l k : list A) :
  Value <$> l = Value <$> k → l = k.
Proof.
  revert k. induction l as [|x l IH]; intros [|y k]; simpl; try done.
  intros [= -> Hl]. f_equal. by apply IH.
Qed.

Lemma scan_users_spec rows : ∀ users result,
  scan_users rows users = Value result ↔
  ∃ scanned, rows = Value <$> scanned ∧ result = users ++ scanned.
Proof.
  induction rows as [|[user|err] rows IH]; intros users result; simpl.
  - split.
    + intros [= <-]. exists []. by rewrite (right_id_L [] (++)).
    + intros (scanned & Hs & ->). destruct scanned; [|done].
      by rewrite (right_id_L [] (++)).
  - rewrite IH. split.
    + intros (scanned & -> & ->). exists (user :: scanned).
      by rewrite <- (assoc_L (++)).
    + intros ([|user' scanned] & Hs & ->); [done|]. injection Hs as <- ->.
      exists scanned. by rewrite <- (assoc_L (++)).
  - split; [done|]. by intros ([|] & ? & _).
Qed.

(** X21.  [ListUsers] is all or nothing: it returns users exactly when the
    query succeeded, every row scanned and the iteration ended without an
    error, and then it returns every row, in the order of the rows.  One row
    that does not scan, or an error at the end of the iteration, and the
    rows read so far are dropped. *)
Theorem ListUsers_all_or_nothing db users :
  ListUsers db = Value users ↔ select_all db = Value (Value <$> users, None).
Proof.
  unfold ListUsers. destruct (select_all db) as [[rows rows_Err]|err]; [|done].
  destruct (scan_users rows []) as [scanned|err] eqn:Hscan.
  - apply scan_users_spec in Hscan as (scanned' & -> & ->). simpl.
    destruct rows_Err; split; try done.
    + intros [= <-]. done.
    + intros [= Heq]. f_equal.
      by apply Value_fmap_inj in Heq.
  - split; [done|]. intros [= -> ->].
    assert (H : scan_users (Value <$> users) [] = Value ([] ++ users))
      by (apply scan_users_spec; eauto).
    congruence.
Qed.

(** X22.  No function of the repository hands a caller the database's own
    error: every error it returns is wrapped or new, never [sql.ErrNoRows]
    or a [*pq.Error] itself.  A caller that compares with [sql.ErrNoRows] or
    asserts the type [*pq.Error] therefore never recognises one. *)
Theorem db_errors_opaque db :
  (∀ input err, CreateUser db input = Failure err → driver_error err = false) ∧
  (∀ id err, GetUserByID db id = Failure err → driver_error err = false) ∧
  (∀ err, ListUsers db = Failure err → driver_error err = false) ∧
  (∀ id input err, UpdateUser db id input = Failure err → driver_error err = false) ∧
  (∀ id err, DeleteUser db id = Some err → driver_error err = false).
Proof.
  split; [|split; [|split; [|split]]].
  - intros input err. unfold CreateUser.
    destruct (insert_returning db _ _); [done|]. by intros [= <-].
  - intros id err. unfold GetUserByID.
    destruct (select_by_id db id) as [|[]]; [done|..]; by intros [= <-].
  - intros err. unfold ListUsers.
    destruct (select_all db) as [[rows rows_Err]|]; [|by intros [= <-]].
    destruct (scan_users rows []) as [users|err'] eqn:Hscan.
    + destruct rows_Err; [|done]. by intros [= <-].
    + intros [= <-]. revert Hscan. generalize (@nil User).
      induction rows as [|[user|e] rows IH]; intros acc; simpl; [done|apply IH|].
      by intros [= <-].
  - intros id input err. unfold UpdateUser.
    destruct (update_returning db _ _ id) as [|[]]; [done|..]; by intros [= <-].
  - intros id err. unfold DeleteUser.
    destruct (delete_by_id db id) as [[rows|]|]; [|by intros [= <-]..].
    destruct (rows =? 0); [|done]. by intros [= <-].
Qed.

(** ** The further properties on the concrete runs *)

Lemma demo_executor_two : workflows demo_executor !! "two" = Some wf_two.
Proof. vm_compute. reflexivity. Qed.

Lemma demo_executor_guarded : workflows demo_executor !! "guarded" = Some wf_guarded.
Proof. vm_compute. reflexivity. Qed.

(** [ExecuteChain_declared_order] on [run_guarded], whose second call is the
    error handler's. *)
Lemma ExecuteChain_declared_order_witness :
  workflows demo_executor !! "guarded" = Some wf_guarded ∧
  (∀ k c, run_calls run_guarded !! k = Some c →
          Workflow_Steps wf_guarded !! k = Some (call_step c)) ∧
  (length (run_calls run_guarded) ≤ length (Workflow_Steps wf_guarded))%nat ∧
  ∃ reqs, run_log run_guarded = [] ++ reqs ∧
          (length reqs ≤ length (run_calls run_guarded))%nat.
Proof.
  split; [exact demo_executor_guarded|].
  exact (ExecuteChain_declared_order SrcPart002 rt_recovered demo_executor wf_guarded
           "guarded" demo_input [] run_guarded demo_executor_guarded eq_refl).
Defined.

(** [ExecuteChain_outcome_shape] on [run_two_ok]. *)
Lemma ExecuteChain_outcome_shape_witness :
  workflows demo_executor !! "two" = Some wf_two ∧
  match run_outcome run_two_ok with
  | Returned (Ok out) =>
      (WorkflowOutput_Error out = None ∧
       WorkflowOutput_Context out = WorkflowInput_Context demo_input ∧
       WorkflowState_Completed (run_state run_two_ok) = true ∧
       ∀ lastStep, last (Workflow_Steps wf_two) = Some lastStep →
                   WorkflowState_CurrentStep (run_state run_two_ok) = Step_Name lastStep) ∨
      (∃ err, out = error_output err ∧
              WorkflowState_Completed (run_state run_two_ok) = false)
  | Returned (Err _) | Panicked _ =>
      WorkflowState_Completed (run_state run_two_ok) = false
  end.
Proof.
  split; [exact demo_executor_two|].
  exact (ExecuteChain_outcome_shape SrcPart002 rt_two_ok demo_executor wf_two
           "two" demo_input [] run_two_ok demo_executor_two eq_refl).
Defined.

(** [ExecuteChain_current_step] on the error-handler call of [run_guarded]. *)
Lemma ExecuteChain_current_step_witness :
  (workflows demo_executor !! "guarded" = Some wf_guarded ∧
   run_calls run_guarded !! 1%nat
   = Some (handler_call SrcPart002 rt_recovered demo_executor step_cleanup
             (record_output (initial_state step_create_guarded demo_input)
                step_create_guarded failure_result)
             [request_create])) ∧
  WorkflowState_Completed
    (record_output (initial_state step_create_guarded demo_input)
       step_create_guarded failure_result) = false ∧
  ∃ j failing, 1%nat = S j ∧ Workflow_Steps wf_guarded !! j = Some failing ∧
               WorkflowState_CurrentStep
                 (record_output (initial_state step_create_guarded demo_input)
                    step_create_guarded failure_result) = Step_Name failing.
Proof.
  assert (H2 : run_calls run_guarded !! 1%nat
               = Some (handler_call SrcPart002 rt_recovered demo_executor step_cleanup
                         (record_output (initial_state step_create_guarded demo_input)
                            step_create_guarded failure_result)
                         [request_create]))
    by (vm_compute; reflexivity).
  split; [split; [exact demo_executor_guarded|exact H2]|].
  exact (ExecuteChain_current_step SrcPart002 rt_recovered demo_executor wf_guarded
           "guarded" demo_input [] run_guarded 1 _ demo_executor_guarded eq_refl H2).
Defined.

(** [ExecuteChain_state_names] on [run_two_ok]. *)
Lemma ExecuteChain_state_names_witness :
  workflows demo_executor !! "two" = Some wf_two ∧
  (∀ nm, is_Some (WorkflowState_Steps (run_state run_two_ok) !! nm) →
         nm ∈ Step_Name <$> Workflow_Steps wf_two) ∧
  (WorkflowState_Completed (run_state run_two_ok) = true →
   ∀ nm, nm ∈ Step_Name <$> Workflow_Steps wf_two →
         is_Some (WorkflowState_Steps (run_state run_two_ok) !! nm)).
Proof.
  split; [exact demo_executor_two|].
  exact (ExecuteChain_state_names SrcPart002 rt_two_ok demo_executor wf_two
           "two" demo_input [] run_two_ok demo_executor_two eq_refl).
Defined.

(** [ExecuteChain_records_steps] on the first call of [run_two_ok]. *)
Lemma ExecuteChain_records_steps_witness :
  (NoDup (Step_Name <$> Workflow_Steps wf_two) ∧
   workflows demo_executor !! "two" = Some wf_two ∧
   run_calls run_two_ok !! 0%nat
   = Some (main_call SrcPart002 rt_two_ok demo_executor step_create
             (initial_state step_create demo_input) []) ∧
   call_result (main_call SrcPart002 rt_two_ok demo_executor step_create
                  (initial_state step_create demo_input) [])
   = Ok result_created) ∧
  WorkflowState_Steps (run_state run_two_ok) !! "create_user"
  = Some {| StepState_Input := demo_input;
            StepState_Output := output_of_result result_created |}.
Proof.
  assert (H0 : NoDup (Step_Name <$> Workflow_Steps wf_two)).
  { apply (bool_decide_unpack _). vm_compute. exact I. }
  assert (H2 : run_calls run_two_ok !! 0%nat
               = Some (main_call SrcPart002 rt_two_ok demo_executor step_create
                         (initial_state step_create demo_input) []))
    by (vm_compute; reflexivity).
  assert (H3 : call_result (main_call SrcPart002 rt_two_ok demo_executor step_create
                              (initial_state step_create demo_input) [])
               = Ok result_created)
    by (vm_compute; reflexivity).
  split; [exact (conj H0 (conj demo_executor_two (conj H2 H3)))|].
  exact (ExecuteChain_records_steps SrcPart002 rt_two_ok demo_executor wf_two H0
           "two" demo_input [] run_two_ok 0 _ result_created
           demo_executor_two eq_refl H2 eq_refl H3).
Defined.

(** [ExecuteChain_depends_on]: [wf_two] and [wf_two_described], registered
    under different names in different executors, give the same run. *)
Lemma ExecuteChain_depends_on_witness :
  (ports demo_executor = ports signup_executor ∧
   Forall2 step_alike (Workflow_Steps wf_two) (Workflow_Steps wf_two_described) ∧
   workflows demo_executor !! "two" = Some wf_two ∧
   workflows signup_executor !! "signup" = Some wf_two_described) ∧
  run_alike run_two_ok
    (ExecuteChain SrcPart002 rt_two_ok signup_executor "signup" demo_input []).
Proof.
  assert (H1 : Forall2 step_alike (Workflow_Steps wf_two)
                 (Workflow_Steps wf_two_described)).
  { repeat constructor; simpl; done. }
  assert (H2 : workflows signup_executor !! "signup" = Some wf_two_described)
    by (vm_compute; reflexivity).
  split; [exact (conj eq_refl (conj H1 (conj demo_executor_two H2)))|].
  exact (ExecuteChain_depends_on SrcPart002 rt_two_ok demo_executor signup_executor
           wf_two wf_two_described eq_refl H1 "two" "signup" demo_input []
           demo_executor_two H2).
Defined.

(** [ExecuteStep_non_200] on the answer of [rt_failure]. *)
Lemma ExecuteStep_non_200_witness :
  (step_request SrcPart002 rt_failure demo_executor step_create
     (initial_state step_create demo_input) = Some request_create ∧
   http_respond rt_failure [] request_create = Ok response_failure ∧
   resp_Body response_failure = Ok "Failed to create user" ∧
   resp_StatusCode response_failure ≠ StatusOK) ∧
  ExecuteStep SrcPart002 rt_failure demo_executor step_create
    (initial_state step_create demo_input) []
  = (Ok failure_result, [request_create]).
Proof.
  assert (H1 : step_request SrcPart002 rt_failure demo_executor step_create
                 (initial_state step_create demo_input) = Some request_create)
    by (vm_compute; reflexivity).
  assert (H4 : resp_StatusCode response_failure ≠ StatusOK) by discriminate.
  split; [exact (conj H1 (conj eq_refl (conj eq_refl H4)))|].
  exact (ExecuteStep_non_200 SrcPart002 rt_failure demo_executor step_create
           (initial_state step_create demo_input) [] request_create response_failure
           "Failed to create user" H1 eq_refl eq_refl H4).
Defined.

(** [LoadWorkflow_registers] on [demo_host]: loading the file [two.yaml]
    into a new executor. *)
Lemma LoadWorkflow_registers_witness :
  LoadWorkflow demo_host (NewChainExecutor SrcPart002) "two" = Ok loaded_executor ∧
  (∃ file workflow,
     os_ReadFile demo_host (workflow_path "two") = Ok file ∧
     yaml_Unmarshal demo_host file = Ok workflow ∧
     workflows loaded_executor !! "two" = Some workflow) ∧
  (∀ other, other ≠ "two" →
            workflows loaded_executor !! other
            = workflows (NewChainExecutor SrcPart002) !! other) ∧
  ports loaded_executor = ports (NewChainExecutor SrcPart002) ∧
  LoadWorkflow demo_host loaded_executor "two" = Ok loaded_executor ∧
  (∀ src rt other input log,
     other ≠ "two" →
     ExecuteChain src rt loaded_executor other input log
     = ExecuteChain src rt (NewChainExecutor SrcPart002) other input log).
Proof.
  assert (H1 : LoadWorkflow demo_host (NewChainExecutor SrcPart002) "two"
               = Ok loaded_executor).
  { vm_compute. reflexivity. }
  split; [exact H1|].
  exact (LoadWorkflow_registers demo_host (NewChainExecutor SrcPart002) "two"
           loaded_executor H1).
Defined.

(** [GetWorkflows_lists_registered] on the registry of [demo_executor],
    visited in the order of [demo_visit]. *)
Lemma GetWorkflows_lists_registered_witness :
  range_of demo_executor (demo_visit) ∧
  NoDup (GetWorkflows (demo_visit)) ∧
  length (GetWorkflows (demo_visit))
  = size (workflows demo_executor) ∧
  ∀ name, name ∈ GetWorkflows (demo_visit)
          ↔ is_Some (workflows demo_executor !! name).
Proof.
  assert (H1 : range_of demo_executor (demo_visit))
    by (unfold range_of, demo_visit; apply reverse_Permutation).
  split; [exact H1|].
  exact (GetWorkflows_lists_registered demo_executor _ H1).
Defined.

(** [workflow_name_of_path] on the name of the workflow file of the
    repository. *)
Lemma workflow_name_of_path_witness :
  no_slash "user_signup_chain" = true ∧
  workflow_name (workflow_path "user_signup_chain") = "user_signup_chain".
Proof.
  split; [reflexivity|].
  exact (workflow_name_of_path "user_signup_chain" eq_refl).
Defined.

(** What [NewServer] loads on [demo_host]: the file that parses, not the
    other. *)
Example NewServer_demo_host :
  executor (NewServer SrcPart002 demo_host) = loaded_executor.
Proof.
  vm_compute. reflexivity.
Qed.

(** ** The handlers and the lambdas on the concrete deployment *)

(** [handleLambda_ignores_input]: two direct calls of [user_create] with
    different bodies. *)
Lemma handleLambda_ignores_input_witness :
  handleLambda SrcPart002 rt_local decode_any demo_server new_writer
    (post "/lambda/user_create" payload_taken) []
  = handleLambda SrcPart002 rt_local decode_any demo_server new_writer
      (post "/lambda/user_create" payload_create) [] ∧
  ∃ sent, snd (handleLambda SrcPart002 rt_local decode_any demo_server new_writer
                 (post "/lambda/user_create" payload_create) []) = [] ++ sent ∧
          (length sent ≤ 1)%nat ∧
          Forall (λ req, req_body req = "" ∧ req_contentType req = "application/json") sent.
Proof.
  exact (handleLambda_ignores_input SrcPart002 rt_local decode_any demo_server new_writer
           (post "/lambda/user_create" payload_create)
           (post "/lambda/user_create" payload_taken) [] (Some ∅) (Some ∅)
           eq_refl eq_refl eq_refl eq_refl).
Defined.

(** What the direct call gets: [user_create] is sent an empty body, which it
    does not decode. *)
Example handleLambda_user_create :
  handleLambda SrcPart002 rt_local decode_any demo_server new_writer
    (post "/lambda/user_create" payload_create) []
  = (RespondError (SetCORSHeaders new_writer) StatusInternalServerError
       ("lambda returned unexpected Content-Type: text/plain; charset=utf-8, body: Invalid request body"
          +:+ newline),
     [{| req_url := "http://localhost:8080"; req_contentType := "application/json";
         req_body := "" |}]).
Proof. vm_compute. reflexivity. Qed.

(** [user_create] on a duplicate email: the insert fails with the driver's
    error 23505 and the answer is 500. *)
Example user_create_duplicate_email :
  insert_returning demo_db "taken@b.com" ""
  = Failure (pq_Error "23505" "duplicate key value violates unique constraint") ∧
  w_Status (UserCreate.handleRequest demo_env new_writer (post "/" payload_taken))
  = Some StatusInternalServerError ∧
  w_Body (UserCreate.handleRequest demo_env new_writer (post "/" payload_taken))
  = [PlainText ("Failed to create user" +:+ newline)].
Proof. repeat split; vm_compute; reflexivity. Qed.

(** [ExecuteStep_post_refused] on the step [verify_user], whose lambda is
    [user_read]. *)
Lemma ExecuteStep_post_refused_witness :
  (step_request SrcPart002 rt_local demo_executor step_verify
     (initial_state step_verify demo_input) = Some request_verify ∧
   http_respond rt_local [] request_verify
   = served_by user_read demo_env demo_marshal request_verify) ∧
  ExecuteStep SrcPart002 rt_local demo_executor step_verify
    (initial_state step_verify demo_input) []
  = (Ok (error_result step_verify
           ("lambda returned unexpected Content-Type: text/plain; charset=utf-8, body: Method not allowed"
              +:+ newline)
           "INVALID_RESPONSE_TYPE"),
     [] ++ [request_verify]).
Proof.
  assert (H1 : step_request SrcPart002 rt_local demo_executor step_verify
                 (initial_state step_verify demo_input) = Some request_verify)
    by (vm_compute; reflexivity).
  split; [exact (conj H1 eq_refl)|].
  exact (ExecuteStep_post_refused SrcPart002 rt_local demo_executor step_verify
           (initial_state step_verify demo_input) [] request_verify user_read
           demo_env demo_marshal (or_introl eq_refl) H1 eq_refl).
Defined.

(** [Part002_lambda_failure] on [user_create] answering 400. *)
Lemma Part002_lambda_failure_witness :
  (step_request SrcPart002 rt_local demo_executor step_create_bad
     (initial_state step_create_bad demo_input) = Some request_create_bad ∧
   http_respond rt_local [] request_create_bad
   = served_by user_create demo_env demo_marshal request_create_bad ∧
   served_by user_create demo_env demo_marshal request_create_bad
   = Ok response_bad_request ∧
   resp_StatusCode response_bad_request ≠ StatusOK) ∧
  ∃ msg,
    resp_Body response_bad_request = Ok (msg +:+ newline) ∧
    ExecuteStep SrcPart002 rt_local demo_executor step_create_bad
      (initial_state step_create_bad demo_input) []
    = (Ok (error_result step_create_bad
             ("lambda returned unexpected Content-Type: text/plain; charset=utf-8, body: "
                +:+ msg +:+ newline)
             "INVALID_RESPONSE_TYPE"),
       [] ++ [request_create_bad]).
Proof.
  assert (H1 : step_request SrcPart002 rt_local demo_executor step_create_bad
                 (initial_state step_create_bad demo_input) = Some request_create_bad)
    by (vm_compute; reflexivity).
  assert (H3 : served_by user_create demo_env demo_marshal request_create_bad
               = Ok response_bad_request)
    by (vm_compute; reflexivity).
  assert (H4 : resp_StatusCode response_bad_request ≠ StatusOK) by discriminate.
  split; [exact (conj H1 (conj eq_refl (conj H3 H4)))|].
  exact (Part002_lambda_failure rt_local demo_executor step_create_bad
           (initial_state step_create_bad demo_input) [] request_create_bad user_create
           demo_env demo_marshal response_bad_request H1 eq_refl H3 H4).
Defined.

Lemma local_deploy_user_read sent req :
  req_url req = "http://localhost:8081" →
  http_respond rt_local sent req = served_by user_read demo_env demo_marshal req.
Proof. intros Hurl. simpl. unfold local_deploy. by rewrite Hurl. Qed.

(** [ExecuteChain_post_refused] on [wf_two], whose second step calls
    [user_read]. *)
Lemma ExecuteChain_post_refused_witness :
  (workflows demo_executor !! "two" = Some wf_two ∧
   Workflow_Steps wf_two !! 1%nat = Some step_verify ∧
   lambdaURL SrcPart002 demo_executor step_verify = Some "http://localhost:8081") ∧
  WorkflowState_Completed
    (run_state (ExecuteChain SrcPart002 rt_local demo_executor "two" demo_input []))
  = false ∧
  ∀ out, run_outcome (ExecuteChain SrcPart002 rt_local demo_executor "two" demo_input [])
         = Returned (Ok out) →
         WorkflowOutput_Error out ≠ None.
Proof.
  assert (H3 : lambdaURL SrcPart002 demo_executor step_verify
               = Some "http://localhost:8081")
    by (vm_compute; reflexivity).
  split; [exact (conj demo_executor_two (conj eq_refl H3))|].
  exact (ExecuteChain_post_refused SrcPart002 rt_local demo_executor wf_two "two"
           demo_input [] 1 step_verify user_read demo_env demo_marshal
           "http://localhost:8081" demo_executor_two eq_refl (or_introl eq_refl) H3
           local_deploy_user_read).
Defined.

(** The run on the deployment: [create_user] answers, [verify_user] is
    refused. *)
Example run_local_outcome :
  run_outcome (ExecuteChain SrcPart002 rt_local demo_executor "two" demo_input [])
  = Returned (Ok (error_output
                    {| WorkflowError_Step := "verify_user";
                       WorkflowError_Message :=
                         "lambda returned unexpected Content-Type: text/plain; charset=utf-8, body: Method not allowed"
                           +:+ newline;
                       WorkflowError_Code := "INVALID_RESPONSE_TYPE" |})) ∧
  length (run_log (ExecuteChain SrcPart002 rt_local demo_executor "two" demo_input []))
  = 2%nat.
Proof. split; vm_compute; reflexivity. Qed.

(** [handleWorkflow_route] on a POST to [/workflow/two/]. *)
Lemma handleWorkflow_route_witness :
  handleWorkflow SrcPart002 rt_local decode_any demo_server new_writer
    (post "/workflow/two/" "{}") []
  = (match run_outcome
             (ExecuteChain SrcPart002 rt_local (executor demo_server) "two"
                {| WorkflowInput_Data := Some ∅; WorkflowInput_Context := None |} [])
     with
     | Returned (Ok output) =>
         Replied (RespondJSON (SetCORSHeaders new_writer) StatusOK (OutputPayload output))
     | Returned (Err err) =>
         Replied (RespondError (SetCORSHeaders new_writer) StatusInternalServerError err)
     | Panicked msg => Crashed msg
     end,
     run_log (ExecuteChain SrcPart002 rt_local (executor demo_server) "two"
                {| WorkflowInput_Data := Some ∅; WorkflowInput_Context := None |} [])).
Proof.
  refine (handleWorkflow_route SrcPart002 rt_local decode_any demo_server
            (post "/workflow/two/" "{}") [] "two" "/" (Some ∅)
            eq_refl eq_refl eq_refl _ (or_intror eq_refl) eq_refl).
  discriminate.
Defined.

